(** * sensor_service: the storage core of [server.go]

    A shallow embedding of the file-backed sensor log of [server.go]
    ([write], [read] and the [readWriteRoutine] worker) together with models
    of the Go library calls it is built from ([strings.Split],
    [bufio.Scanner], [bufio.Writer], [os.Open]/[os.OpenFile], [sort.Slice],
    [strconv.ParseFloat] and the float rendering of [fmt.Fprintln]).

    Go strings are byte strings: they are modelled by [string], whose
    characters are the 256 bytes.  Go's [int] indices are non-negative
    wherever they are used here and are modelled by [nat]. *)

From Stdlib Require Import ZArith NArith String Ascii Sorting.Sorted Lia.
From Stdlib Require Import Decimal DecimalString DecimalPos DecimalZ.
From stdpp Require Import base option list sorting gmap strings pretty.

Open Scope string_scope.
Open Scope nat_scope.
Open Scope list_scope.

(** ** Outcomes of Go code that may panic *)

(** A Go run-time panic: the only one [server.go] can raise in its storage
    path is the bounds check of an index expression. *)
Inductive runtime_error : Type :=
| IndexOutOfRange (index len : nat).

Inductive outcome (A : Type) : Type :=
| Returns (a : A)
| Panics (e : runtime_error).
Arguments Returns {A} a.
Arguments Panics {A} e.

(** ** Byte-string helpers *)

Definition byte_space : ascii := " "%char.
Definition byte_LF : ascii := "010"%char.
Definition byte_CR : ascii := "013"%char.

(** [contains_byte c s]: the byte [c] occurs in [s]. *)
Fixpoint contains_byte (c : ascii) (s : string) : bool :=
  match s with
  | EmptyString => false
  | String x s' => Ascii.eqb x c || contains_byte c s'
  end.

(** The last byte of a string, if any. *)
Fixpoint last_byte (s : string) : option ascii :=
  match s with
  | EmptyString => None
  | String c EmptyString => Some c
  | String _ s' => last_byte s'
  end.

(** All bytes but the last. *)
Fixpoint drop_last (s : string) : string :=
  match s with
  | EmptyString => EmptyString
  | String _ EmptyString => EmptyString
  | String c s' => String c (drop_last s')
  end.

(** [p[:n]] and [p[n:]] of a byte string, cut at its length. *)
Fixpoint take_bytes (n : nat) (s : string) : string :=
  match n, s with
  | S n', String c s' => String c (take_bytes n' s')
  | _, _ => EmptyString
  end.

Fixpoint drop_bytes (n : nat) (s : string) : string :=
  match n, s with
  | S n', String _ s' => drop_bytes n' s'
  | _, _ => s
  end.

(** [n] times the byte [c] *)
Fixpoint repeat_byte (c : ascii) (n : nat) : string :=
  match n with
  | O => EmptyString
  | S n' => String c (repeat_byte c n')
  end.

(** ** Errors

    The values of Go's [error] interface that the storage path can meet: the
    [*os.PathError] of a failed system call, with its [syscall.Errno], and
    [io.ErrShortWrite]. *)
Inductive Errno : Type :=
| ENOENT   (* no such file or directory *)
| EACCES   (* permission denied *)
| ENOSPC.  (* no space left on device *)

Inductive error : Type :=
| PathError (errno : Errno)
| ErrShortWrite.

(** ** package strconv (and the float rendering of package fmt)

    Binary floating point is not modelled: [float64], the text [fmt] prints
    for a [float64] operand under the verb [%v] ([FormatFloat], which is
    [strconv.FormatFloat(v, 'g', -1, 64)]) and [strconv.ParseFloat(s, 64)]
    are taken as an interface: the type, [Float64Type], and its operations,
    [Float64].  The laws, [Float64Laws], are the documented contract of the
    library: the shortest rendering parses back to the same value; the
    rendering is made of digits, signs, a point, an exponent mark and the
    letters of [Inf] and [NaN]; a syntax error comes with the value zero.
    (Values are taken up to the identification of NaN payloads.) *)
Module strconv.

Inductive NumError : Type := ErrSyntax | ErrRange.

(** The bytes [FormatFloat] can produce. *)
Definition float_byte (c : ascii) : bool :=
  contains_byte c "0123456789+-.eInfNa".

(** the type [float64] *)
Class Float64Type : Type := float64 : Type.

(** its operations *)
Class Float64 {T : Float64Type} : Type := {
  (** the zero value of the type, [0.0] *)
  float64_zero : float64;
  FormatFloat : float64 → string;
  (** the two results of [ParseFloat]: the value, and the error if any *)
  ParseFloat : string → float64 * option NumError
}.

(** their laws *)
Class Float64Laws {T : Float64Type} (F : Float64) : Prop := {
  ParseFloat_FormatFloat : ∀ v, ParseFloat (FormatFloat v) = (v, None);
  FormatFloat_bytes :
    ∀ v c, contains_byte c (FormatFloat v) = true → float_byte c = true;
  ParseFloat_ErrSyntax :
    ∀ s v, ParseFloat s = (v, Some ErrSyntax) → v = float64_zero
}.

(** What the library documents of a numeral out of range: [ParseFloat]
    returns an infinity with [ErrRange]; [fmt] prints the infinities as
    [+Inf] and [-Inf], and zero as [0]. *)
Class Float64RangeLaws {T : Float64Type} (F : Float64) : Prop := {
  ParseFloat_ErrRange :
    ∀ s v, ParseFloat s = (v, Some ErrRange) →
           FormatFloat v = "+Inf" ∨ FormatFloat v = "-Inf";
  FormatFloat_zero : FormatFloat float64_zero = "0"
}.

(** *** [ParseUint]

    [ParseUint(s, base, bitSize)] for [2 <= base <= 36] and
    [0 < bitSize <= 64], which covers the one call of [server.go],
    [ParseUint(sensorId, 10, 32)]; the prefixes and underscores of base 0
    are not embedded.  The value is a [uint64]; its arithmetic wraps. *)
Definition maxUint64 : N := 2 ^ 64 - 1.

Definition uint64 (n : N) : N := (n mod 2 ^ 64)%N.

(** [lower(c)]: [c | ('x' - 'X')] *)
Definition lower (c : N) : N := N.lor c 32.

(** The digit a byte stands for, in the three cases of the switch of the
    loop: a decimal digit, a letter, anything else. *)
Definition digit_value (c : ascii) : option N :=
  let c := N_of_ascii c in
  if (48 <=? c)%N && (c <=? 57)%N then Some (c - 48)%N
  else if (97 <=? lower c)%N && (lower c <=? 122)%N
       then Some (lower c - 97 + 10)%N
  else None.

(** The loop [for _, c := range []byte(s)] of [ParseUint], from the value
    [n] read so far. *)
Fixpoint ParseUint_loop (s : string) (base cutoff maxVal n : N)
  : N * option NumError :=
  match s with
  | EmptyString => (n, None)
  | String c s' =>
      match digit_value c with
      | None => (0%N, Some ErrSyntax)
      | Some d =>
          if (base <=? d)%N then (0%N, Some ErrSyntax)
          else if (cutoff <=? n)%N then (maxVal, Some ErrRange)
          else
            let n := uint64 (n * base) in
            let n1 := uint64 (n + d) in
            if (n1 <? n)%N || (maxVal <? n1)%N then (maxVal, Some ErrRange)
            else ParseUint_loop s' base cutoff maxVal n1
      end
  end.

Definition ParseUint (s : string) (base bitSize : N) : N * option NumError :=
  match s with
  | EmptyString => (0%N, Some ErrSyntax)
  | _ =>
      let cutoff := (maxUint64 / base + 1)%N in
      let maxVal := uint64 (uint64 (N.shiftl 1 bitSize) + maxUint64) in
      ParseUint_loop s base cutoff maxVal 0
  end.

End strconv.

(** ** package strings *)
Module strings.

(** [Split s sep] for a one-byte separator (the only call of [server.go]
    passes a single space): the substrings between the occurrences of [sep];
    there is always at least one, and splitting the empty string gives one
    empty substring. *)
Fixpoint Split (s : string) (sep : ascii) : list string :=
  match s with
  | EmptyString => [EmptyString]
  | String c s' =>
      if Ascii.eqb c sep then EmptyString :: Split s' sep
      else match Split s' sep with
           | tok :: toks => String c tok :: toks
           | [] => [String c EmptyString]
           end
  end.

End strings.

(** ** package os: a file system with permissions and a capacity *)
Module os.

Record inode : Type := {
  contents : string;
  readable : bool;
  writable : bool
}.

(** [files] maps a path to its regular file; [may_create] tells whether new
    files can be created under the data directory; [free] is the number of
    bytes the device can still take. *)
Record FS : Type := {
  files : gmap string inode;
  may_create : bool;
  free : nat
}.

(** [os.Open(name)]: open for reading; the handle is modelled by the
    contents it will deliver. *)
Definition Open (fs : FS) (name : string) : error + string :=
  match files fs !! name with
  | None => inl (PathError ENOENT)
  | Some f => if readable f then inr (contents f) else inl (PathError EACCES)
  end.

(** [os.OpenFile(name, O_APPEND|O_CREATE|O_WRONLY, 0644)]: the file is
    created empty when absent and is never truncated.  The handle is the
    name itself. *)
Definition OpenFile (fs : FS) (name : string) : error + FS :=
  match files fs !! name with
  | Some f => if writable f then inr fs else inl (PathError EACCES)
  | None =>
      if may_create fs then
        inr {| files := <[name := {| contents := EmptyString;
                                     readable := true;
                                     writable := true |}]> (files fs);
               may_create := may_create fs;
               free := free fs |}
      else inl (PathError EACCES)
  end.

(** [File.Write(p)] on a handle opened with [O_APPEND]: the bytes go to
    the end of the file; when the device fills up, the bytes that fit are
    written and the call reports how many, with [ENOSPC]. *)
Definition File_Write (fs : FS) (name : string) (p : string)
  : FS * (nat * option error) :=
  match files fs !! name with
  | None => (fs, (0, Some (PathError ENOENT)))
  | Some f =>
      let n := Nat.min (String.length p) (free fs) in
      ({| files := <[name := {| contents := contents f +:+ take_bytes n p;
                                readable := readable f;
                                writable := writable f |}]> (files fs);
          may_create := may_create fs;
          free := free fs - n |},
       (n, if String.length p <=? free fs then None
           else Some (PathError ENOSPC)))
  end.

End os.

(** ** package bufio *)
Module bufio.

(** *** Scanner, with the default split function [ScanLines] *)

Definition MaxScanTokenSize : nat := 64 * 1024.

(** [dropCR]: drop one trailing carriage return. *)
Definition dropCR (data : string) : string :=
  match last_byte data with
  | Some c => if Ascii.eqb c byte_CR then drop_last data else data
  | None => data
  end.

(** The tokens that successive calls of [Scan] deliver on input [s], and
    whether scanning ended with [ErrTooLong].  [tok] is the part of the
    current line read so far.  A line ends at a newline; the end-of-line
    marker, one optional carriage return and the newline, is not part of the
    token; a last line without newline is a token when it is not empty.  The
    buffer cannot grow beyond [MaxScanTokenSize] bytes: [Scan] gives up as
    soon as that many bytes of one line are buffered without its newline. *)
Fixpoint scan_from (tok : string) (s : string) : list string * bool :=
  match s with
  | EmptyString =>
      (match tok with EmptyString => [] | _ => [dropCR tok] end, false)
  | String c s' =>
      if Ascii.eqb c byte_LF then
        let '(toks, too_long) := scan_from EmptyString s' in
        (dropCR tok :: toks, too_long)
      else if MaxScanTokenSize <=? S (String.length tok) then ([], true)
      else scan_from (tok +:+ String c EmptyString) s'
  end.

Definition Scanner_tokens (s : string) : list string := fst (scan_from EmptyString s).
Definition Scanner_Err (s : string) : bool := snd (scan_from EmptyString s).

(** *** Writer *)

Definition defaultBufSize : nat := 4096.

(** [wr] is the file written to, [buf] the buffered bytes [b.buf[0:b.n]],
    [err] the sticky error. *)
Record Writer : Type := {
  wr : string;
  buf : string;
  err : option error
}.

Definition NewWriter (file : string) : Writer :=
  {| wr := file; buf := EmptyString; err := None |}.

Definition Buffered (b : Writer) : nat := String.length (buf b).
Definition Available (b : Writer) : nat := defaultBufSize - Buffered b.

Definition Flush (fs : os.FS) (b : Writer) : os.FS * Writer * option error :=
  match err b with
  | Some e => (fs, b, Some e)
  | None =>
      if Buffered b =? 0 then (fs, b, None)
      else
        let '(fs', (n, e)) := os.File_Write fs (wr b) (buf b) in
        let e := match e with
                 | None => if n <? Buffered b then Some ErrShortWrite else None
                 | Some _ => e
                 end in
        match e with
        | Some _ =>
            (fs', {| wr := wr b; buf := drop_bytes n (buf b); err := e |}, e)
        | None =>
            (fs', {| wr := wr b; buf := EmptyString; err := None |}, None)
        end
  end.

(** The loop of [Writer.Write]: as long as [p] does not fit in the buffer
    and no error has occurred, either write [p] through (empty buffer) or
    fill the buffer and flush it.  Returns the rest of [p] and the count
    [nn] of bytes taken. *)
Fixpoint Write_loop (fuel : nat) (fs : os.FS) (b : Writer) (p : string)
  (nn : nat) : os.FS * Writer * string * nat :=
  match fuel with
  | O => (fs, b, p, nn)
  | S fuel' =>
      if (Available b <? String.length p)
         && match err b with None => true | Some _ => false end
      then
        if Buffered b =? 0 then
          let '(fs', (n, e)) := os.File_Write fs (wr b) p in
          Write_loop fuel' fs' {| wr := wr b; buf := buf b; err := e |}
            (drop_bytes n p) (nn + n)
        else
          let n := Nat.min (Available b) (String.length p) in
          let b1 := {| wr := wr b; buf := buf b +:+ take_bytes n p;
                       err := err b |} in
          let '(fs', b2, _) := Flush fs b1 in
          Write_loop fuel' fs' b2 (drop_bytes n p) (nn + n)
      else (fs, b, p, nn)
  end.

(** [Writer.Write(p)].  The loop runs at most twice (a flush, then a direct
    write); see [Write_loop_fuel]. *)
Definition Write (fs : os.FS) (b : Writer) (p : string)
  : os.FS * Writer * (nat * option error) :=
  let '(fs', b', p', nn) := Write_loop 3 fs b p 0 in
  match err b' with
  | Some e => (fs', b', (nn, Some e))
  | None =>
      let n := Nat.min (Available b') (String.length p') in
      (fs', {| wr := wr b'; buf := buf b' +:+ take_bytes n p'; err := None |},
       (nn + n, None))
  end.

End bufio.

(** ** package math/bits *)
Module bits.

(** [bits.Len(x)]: the number of bits needed to represent [x]; 0 for 0. *)
Definition Len (x : nat) : nat :=
  match x with
  | O => 0
  | S _ => S (Nat.log2 x)
  end.

End bits.

(** ** package sort: [sort.Slice]

    The pattern-defeating quicksort of Go 1.19 and later ([zsortfunc.go]),
    function by function.  The slice is a [list A]; [less] compares two
    elements, and the closure passed to [sort.Slice], which compares the
    elements at two indices of the slice being sorted, is [Less]; [Swap] is
    the swapper of the slice.  All indices the algorithm uses are within
    the slice; outside it [Less] is false and [Swap] does nothing.

    Earlier versions of Go sort with another algorithm.  The package
    promises of every version that the result holds the elements of the
    slice in the order of [less], and no stability; the properties proved
    of [read] rest on that much only. *)
Module sort.
Section lessSwap.
Context {A : Type} (less : A → A → bool).

Definition Less (data : list A) (i j : nat) : bool :=
  match data !! i, data !! j with
  | Some x, Some y => less x y
  | _, _ => false
  end.

Definition Swap (data : list A) (i j : nat) : list A :=
  match data !! i, data !! j with
  | Some x, Some y => <[j := x]> (<[i := y]> data)
  | _, _ => data
  end.

(** The inner loop of [insertionSort_func]:
    [for j := i; j > a && data.Less(j, j-1); j-- { data.Swap(j, j-1) }]. *)
Fixpoint insertion_shift (a j : nat) (data : list A) : list A :=
  match j with
  | O => data
  | S j' =>
      if (a <? j) && Less data j j'
      then insertion_shift a j' (Swap data j j')
      else data
  end.

(** The outer loop, [for i := a + 1; i < b; i++], with [n] iterations left. *)
Fixpoint insertion_loop (n a i : nat) (data : list A) : list A :=
  match n with
  | O => data
  | S n' => insertion_loop n' a (S i) (insertion_shift a i data)
  end.

(** [insertionSort_func(data, a, b)] sorts [data[a:b]]. *)
Definition insertionSort_func (data : list A) (a b : nat) : list A :=
  insertion_loop (b - (a + 1)) a (a + 1) data.

(** The loop of [siftDown_func]; [root] grows at each turn, so the loop
    ends within [hi] turns. *)
Fixpoint siftDown_loop (fuel : nat) (data : list A) (root hi first : nat)
  : list A :=
  match fuel with
  | O => data
  | S fuel' =>
      let child := 2 * root + 1 in
      if hi <=? child then data
      else
        let child :=
          if (child + 1 <? hi) && Less data (first + child) (first + child + 1)
          then child + 1 else child in
        if negb (Less data (first + root) (first + child)) then data
        else siftDown_loop fuel' (Swap data (first + root) (first + child))
               child hi first
  end.

Definition siftDown_func (data : list A) (lo hi first : nat) : list A :=
  siftDown_loop hi data lo hi first.

(** [for i := (hi - 1) / 2; i >= 0; i-- { siftDown_func(data, i, hi, first) }]:
    [n] counts the iterations left, the current index is [n - 1]. *)
Fixpoint heapify_loop (n : nat) (data : list A) (hi first : nat) : list A :=
  match n with
  | O => data
  | S i => heapify_loop i (siftDown_func data i hi first) hi first
  end.

(** [for i := hi - 1; i >= 0; i-- { data.Swap(first, first+i);
    siftDown_func(data, lo, i, first) }], likewise. *)
Fixpoint heappop_loop (n : nat) (data : list A) (lo first : nat) : list A :=
  match n with
  | O => data
  | S i =>
      heappop_loop i (siftDown_func (Swap data first (first + i)) lo i first)
        lo first
  end.

Definition heapSort_func (data : list A) (a b : nat) : list A :=
  let first := a in
  let lo := 0 in
  let hi := b - a in
  let data := heapify_loop (S ((hi - 1) / 2)) data hi first in
  heappop_loop hi data lo first.

(** The two scanning loops of the partitions, [for i <= j && c(i) { i++ }]
    and [for i <= j && c(j) { j-- }]; [n] bounds the number of turns. *)
Fixpoint scan_up (n : nat) (c : nat → bool) (i j : nat) : nat :=
  match n with
  | O => i
  | S n' => if (i <=? j) && c i then scan_up n' c (S i) j else i
  end.

Fixpoint scan_down (n : nat) (c : nat → bool) (i j : nat) : nat :=
  match n with
  | O => j
  | S n' => if (i <=? j) && c j then scan_down n' c i (j - 1) else j
  end.

(** The main loop of [partition_func], after its first exchange. *)
Fixpoint partition_loop (fuel : nat) (data : list A) (a i j : nat)
  : list A * nat :=
  match fuel with
  | O => (data, j)
  | S fuel' =>
      let i := scan_up (S j - i) (λ i, Less data i a) i j in
      let j := scan_down (S j - i) (λ j, negb (Less data j a)) i j in
      if j <? i then (data, j)
      else partition_loop fuel' (Swap data i j) a (S i) (j - 1)
  end.

(** [partition_func(data, a, b, pivot)]: the data, the new index of the
    pivot, and whether the slice was already partitioned. *)
Definition partition_func (data : list A) (a b pivot : nat)
  : list A * nat * bool :=
  let data := Swap data a pivot in
  let i := a + 1 in
  let j := b - 1 in
  let i := scan_up (S j - i) (λ i, Less data i a) i j in
  let j := scan_down (S j - i) (λ j, negb (Less data j a)) i j in
  if j <? i then (Swap data j a, j, true)
  else
    let data := Swap data i j in
    let '(data, j) := partition_loop (S j - i) data a (S i) (j - 1) in
    (Swap data j a, j, false).

(** The loop of [partitionEqual_func]. *)
Fixpoint partitionEqual_loop (fuel : nat) (data : list A) (a i j : nat)
  : list A * nat :=
  match fuel with
  | O => (data, i)
  | S fuel' =>
      let i := scan_up (S j - i) (λ i, negb (Less data a i)) i j in
      let j := scan_down (S j - i) (λ j, Less data a j) i j in
      if j <? i then (data, i)
      else partitionEqual_loop fuel' (Swap data i j) a (S i) (j - 1)
  end.

Definition partitionEqual_func (data : list A) (a b pivot : nat)
  : list A * nat :=
  let data := Swap data a pivot in
  partitionEqual_loop (b - a) data a (a + 1) (b - 1).

(** The loops of [partialInsertionSort_func] that shift the smaller element
    to the left, [for j := i - 1; j >= 1; j--], and the greater one to the
    right, [for j := i + 1; j < b; j++]. *)
Fixpoint shift_left (j : nat) (data : list A) : list A :=
  match j with
  | O => data
  | S j' =>
      if negb (Less data j j') then data
      else shift_left j' (Swap data j j')
  end.

Fixpoint shift_right (n j : nat) (data : list A) : list A :=
  match n with
  | O => data
  | S n' =>
      if negb (Less data j (j - 1)) then data
      else shift_right n' (S j) (Swap data j (j - 1))
  end.

Definition maxSteps : nat := 5.
Definition shortestShifting : nat := 50.

(** The outer loop of [partialInsertionSort_func], [steps] turns left. *)
Fixpoint partialInsertion_loop (steps : nat) (data : list A) (a b i : nat)
  : list A * bool :=
  match steps with
  | O => (data, false)
  | S steps' =>
      let i := scan_up (b - i) (λ i, negb (Less data i (i - 1))) i (b - 1) in
      if i =? b then (data, true)
      else if b - a <? shortestShifting then (data, false)
      else
        let data := Swap data i (i - 1) in
        let data := if 2 <=? i - a then shift_left (i - 1) data else data in
        let data :=
          if 2 <=? b - i then shift_right (b - (i + 1)) (i + 1) data
          else data in
        partialInsertion_loop steps' data a b i
  end.

Definition partialInsertionSort_func (data : list A) (a b : nat)
  : list A * bool :=
  partialInsertion_loop maxSteps data a b (a + 1).

(** [xorshift.Next] on 64-bit words. *)
Definition mask64 : N := N.ones 64.

Definition xorshift_Next (r : N) : N :=
  let r := N.lxor r (N.land (N.shiftl r 13) mask64) in
  let r := N.lxor r (N.shiftr r 7) in
  let r := N.lxor r (N.land (N.shiftl r 17) mask64) in
  r.

Definition nextPowerOfTwo (length : nat) : N :=
  N.shiftl 1 (N.of_nat (bits.Len length)).

(** The three exchanges of [breakPatterns_func], [for i := 0; i < 3; i++]. *)
Fixpoint breakPatterns_loop (n i : nat) (data : list A) (random modulus : N)
  (a idx length : nat) : list A :=
  match n with
  | O => data
  | S n' =>
      let random := xorshift_Next random in
      let other := N.to_nat (N.land random (modulus - 1)) in
      let other := if length <=? other then other - length else other in
      breakPatterns_loop n' (S i) (Swap data (idx - 1 + i) (a + other))
        random modulus a idx length
  end.

Definition breakPatterns_func (data : list A) (a b : nat) : list A :=
  let length := b - a in
  if 8 <=? length then
    let random := N.of_nat length in
    let modulus := nextPowerOfTwo length in
    let idx := a + (length / 4) * 2 - 1 in
    breakPatterns_loop 3 0 data random modulus a idx length
  else data.

Inductive sortedHint : Type := unknownHint | increasingHint | decreasingHint.

(** [order2_func], [median_func] and [medianAdjacent_func] thread the
    counter [*swaps]. *)
Definition order2_func (data : list A) (a b : nat) (swaps : nat)
  : nat * nat * nat :=
  if Less data b a then (b, a, S swaps) else (a, b, swaps).

Definition median_func (data : list A) (a b c : nat) (swaps : nat)
  : nat * nat :=
  let '(a, b, swaps) := order2_func data a b swaps in
  let '(b, c, swaps) := order2_func data b c swaps in
  let '(a, b, swaps) := order2_func data a b swaps in
  (b, swaps).

Definition medianAdjacent_func (data : list A) (a : nat) (swaps : nat)
  : nat * nat :=
  median_func data (a - 1) a (a + 1) swaps.

Definition shortestNinther : nat := 50.
Definition maxSwaps : nat := 4 * 3.

Definition choosePivot_func (data : list A) (a b : nat) : nat * sortedHint :=
  let l := b - a in
  let swaps := 0 in
  let i := a + l / 4 * 1 in
  let j := a + l / 4 * 2 in
  let k := a + l / 4 * 3 in
  let '(j, swaps) :=
    if 8 <=? l then
      let '(i, j, k, swaps) :=
        if shortestNinther <=? l then
          let '(i, swaps) := medianAdjacent_func data i swaps in
          let '(j, swaps) := medianAdjacent_func data j swaps in
          let '(k, swaps) := medianAdjacent_func data k swaps in
          (i, j, k, swaps)
        else (i, j, k, swaps) in
      median_func data i j k swaps
    else (j, swaps) in
  if swaps =? 0 then (j, increasingHint)
  else if swaps =? maxSwaps then (j, decreasingHint)
  else (j, unknownHint).

(** The loop of [reverseRange_func], [for i < j]. *)
Fixpoint reverseRange_loop (n : nat) (data : list A) (i j : nat) : list A :=
  match n with
  | O => data
  | S n' =>
      if i <? j then reverseRange_loop n' (Swap data i j) (S i) (j - 1)
      else data
  end.

Definition reverseRange_func (data : list A) (a b : nat) : list A :=
  reverseRange_loop (b - a) data a (b - 1).

Definition maxInsertion : nat := 12.

Definition is_increasingHint (h : sortedHint) : bool :=
  match h with increasingHint => true | _ => false end.

Definition is_decreasingHint (h : sortedHint) : bool :=
  match h with decreasingHint => true | _ => false end.

(** [pdqsort_func(data, a, b, limit)].  Each turn of its loop and each
    recursive call takes one unit of [fuel]; [None] is returned when the
    fuel runs out.  [wasBalanced] and [wasPartitioned] are the two local
    variables of the loop, [true] on entry. *)
Fixpoint pdqsort_loop (fuel : nat) (data : list A) (a b limit : nat)
  (wasBalanced wasPartitioned : bool) : option (list A) :=
  match fuel with
  | O => None
  | S fuel' =>
      let length := b - a in
      if length <=? maxInsertion then Some (insertionSort_func data a b)
      else if limit =? 0 then Some (heapSort_func data a b)
      else
        let '(data, limit) :=
          if negb wasBalanced then (breakPatterns_func data a b, limit - 1)
          else (data, limit) in
        let '(pivot, hint) := choosePivot_func data a b in
        let '(data, pivot, hint) :=
          if is_decreasingHint hint
          then (reverseRange_func data a b, (b - 1) - (pivot - a),
                increasingHint)
          else (data, pivot, hint) in
        let '(data, sorted) :=
          if wasBalanced && wasPartitioned && is_increasingHint hint
          then partialInsertionSort_func data a b
          else (data, false) in
        if sorted then Some data
        else if (0 <? a) && negb (Less data (a - 1) pivot) then
          let '(data, mid) := partitionEqual_func data a b pivot in
          pdqsort_loop fuel' data mid b limit wasBalanced wasPartitioned
        else
          let '(data, mid, alreadyPartitioned) :=
            partition_func data a b pivot in
          let wasPartitioned := alreadyPartitioned in
          let leftLen := mid - a in
          let rightLen := b - mid in
          let balanceThreshold := length / 8 in
          if leftLen <? rightLen then
            let wasBalanced := balanceThreshold <=? leftLen in
            match pdqsort_loop fuel' data a mid limit true true with
            | None => None
            | Some data =>
                pdqsort_loop fuel' data (mid + 1) b limit
                  wasBalanced wasPartitioned
            end
          else
            let wasBalanced := balanceThreshold <=? rightLen in
            match pdqsort_loop fuel' data (mid + 1) b limit true true with
            | None => None
            | Some data =>
                pdqsort_loop fuel' data a mid limit
                  wasBalanced wasPartitioned
            end
  end.

Definition pdqsort_func (fuel : nat) (data : list A) (a b limit : nat)
  : option (list A) :=
  pdqsort_loop fuel data a b limit true true.

(** [sort.Slice(x, less)].  When [less] is a strict weak order, as the
    order of strings is, the fuel [length + 1] is never used up
    ([pdqsort_func_spec]). *)
Definition Slice (x : list A) : list A :=
  let length := length x in
  let limit := bits.Len length in
  match pdqsort_func (S length) x 0 length limit with
  | Some data => data
  | None => x
  end.

End lessSwap.
End sort.

(** ** server.go *)
Section server.
Context {T : strconv.Float64Type} {F : strconv.Float64}.

Record Reading : Type := {
  Timestamp : string;
  Value : strconv.float64
}.

(** The struct [Readings]; its field [Readings] is [Readings'] here.
    [Sensor_id] is a [uint32]. *)
Record Readings : Type := {
  Sensor_id : N;
  Readings' : list Reading
}.

Definition newline : string := String byte_LF EmptyString.

(** [fmt.Sprintf("%s%d", *dataDir, sensorId)] *)
Definition filename (dataDir : string) (sensorId : N) : string :=
  dataDir +:+ pretty sensorId.

(** The text that [fmt.Fprintln(writer, reading.Timestamp, reading.Value)]
    prints before its final newline: the operands separated by one space
    (the codec's [encode]). *)
Definition encode (reading : Reading) : string :=
  Timestamp reading +:+ " " +:+ strconv.FormatFloat (Value reading).

(** [fmt.Fprintln(writer, reading.Timestamp, reading.Value)]: one call of
    [writer.Write] with the line. *)
Definition Fprintln (fs : os.FS) (writer : bufio.Writer) (reading : Reading)
  : os.FS * bufio.Writer * (nat * option error) :=
  bufio.Write fs writer (encode reading +:+ newline).

(** The loop [for _, reading := range readings.Readings] of [write]; the
    results of [Fprintln] are dropped. *)
Fixpoint write_loop (fs : os.FS) (writer : bufio.Writer)
  (readings : list Reading) : os.FS * bufio.Writer :=
  match readings with
  | [] => (fs, writer)
  | reading :: rest =>
      let '(fs, writer, _) := Fprintln fs writer reading in
      write_loop fs writer rest
  end.

(** [write(readings, dataDir)]: the file system after the call and the
    returned [error] ([None] is [nil]).  The result of [writer.Flush()] is
    dropped, as in the source. *)
Definition write (fs : os.FS) (readings : Readings) (dataDir : string)
  : os.FS * option error :=
  let filename := filename dataDir (Sensor_id readings) in
  match os.OpenFile fs filename with
  | inl err => (fs, Some err)
  | inr fs =>
      let writer := bufio.NewWriter filename in
      let '(fs, writer) := write_loop fs writer (Readings' readings) in
      let '(fs, _, _) := bufio.Flush fs writer in
      (fs, None)
  end.

(** The body of the scanning loop of [read] on one line (the codec's
    [decode]): [split[1]] is evaluated first and panics when the line has
    no space. *)
Definition decode (text : string) : outcome Reading :=
  let split := strings.Split text byte_space in
  match split !! 1 with
  | None => Panics (IndexOutOfRange 1 (length split))
  | Some field =>
      let '(value, _) := strconv.ParseFloat field in
      match split !! 0 with
      | None => Panics (IndexOutOfRange 0 (length split))
      | Some timestamp =>
          Returns {| Timestamp := timestamp; Value := value |}
      end
  end.

(** [for scanner.Scan() { ... readings = append(readings, ...) }] over the
    tokens the scanner delivers. *)
Fixpoint scan_loop (tokens : list string) (readings : list Reading)
  : outcome (list Reading) :=
  match tokens with
  | [] => Returns readings
  | text :: rest =>
      match decode text with
      | Panics e => Panics e
      | Returns reading => scan_loop rest (readings ++ [reading])
      end
  end.

(** The closure passed to [sort.Slice], on the elements:
    [readings[i].Timestamp < readings[j].Timestamp], the byte-wise order of
    Go strings. *)
Definition less (ri rj : Reading) : bool :=
  String.ltb (Timestamp ri) (Timestamp rj).

(** [read(sensorId, dataDir)].  The error of the scanner is not looked at.
    The empty slice returned when the log cannot be opened and the nil
    slice returned for a log without lines are both the empty list. *)
Definition read (fs : os.FS) (sensorId : N) (dataDir : string)
  : outcome Readings :=
  let filename := filename dataDir sensorId in
  match os.Open fs filename with
  | inl _ => Returns {| Sensor_id := sensorId; Readings' := [] |}
  | inr file =>
      match scan_loop (bufio.Scanner_tokens file) [] with
      | Panics e => Panics e
      | Returns readings =>
          Returns {| Sensor_id := sensorId;
                     Readings' := sort.Slice less readings |}
      end
  end.

(** *** The worker [readWriteRoutine]

    A message carries the identity of the handler goroutine that sent it
    (its [writer] and [done] channel); the worker answers on that writer
    and then signals [done]. *)
Inductive Message : Type :=
| ReadMessage (sensorId : N) (writer : nat)
| WriteMessage (readings : Readings) (writer : nat).

(** What the worker writes to the [http.ResponseWriter]: the readings
    (marshalled as JSON by the worker), status 201, or status 400 with the
    text [Error Writing]. *)
Inductive Response : Type :=
| Body (readings : Readings)
| StatusCreated
| ErrorWriting.

(** One turn of the loop of [readWriteRoutine], for the message that
    [select] received. *)
Definition serve (dataDir : string) (fs : os.FS) (m : Message)
  : outcome (os.FS * (nat * Response)) :=
  match m with
  | ReadMessage sensorId w =>
      match read fs sensorId dataDir with
      | Panics e => Panics e
      | Returns readings => Returns (fs, (w, Body readings))
      end
  | WriteMessage readings w =>
      match write fs readings dataDir with
      | (fs, Some _) => Returns (fs, (w, ErrorWriting))
      | (fs, None) => Returns (fs, (w, StatusCreated))
      end
  end.

(** The state of the service: the disk, the messages of the handlers
    blocked in a send on [readChannel] or [writeChannel] (both unbuffered),
    and the responses delivered so far. *)
Record Server : Type := {
  disk : os.FS;
  blocked : list Message;
  delivered : list (nat * Response)
}.

(** A step of the service: the [select] of the worker receives any one of
    the pending messages and serves it to completion; nothing else touches
    the disk. *)
Inductive step (dataDir : string) : Server → Server → Prop :=
| step_select (s : Server) (pre post : list Message) (m : Message)
    (fs : os.FS) (r : nat * Response) :
    blocked s = pre ++ m :: post →
    serve dataDir (disk s) m = Returns (fs, r) →
    step dataDir s
      {| disk := fs; blocked := pre ++ post;
         delivered := delivered s ++ [r] |}.

End server.

(** ** package net/http: what the handlers use of a request and of a
    response writer

    [Form] is the parsed form of the request, which [FormValue] consults;
    a [ResponseWriter] holds the header map, the status once it is written
    and the body written so far.  The headers the server adds on its own
    are not part of it. *)
Module http.

Definition StatusOK : nat := 200.
Definition StatusCreated : nat := 201.
Definition StatusBadRequest : nat := 400.

Definition MethodGet : string := "GET".
Definition MethodPost : string := "POST".

Record Request : Type := {
  Method : string;
  Form : gmap string (list string);
  Body : string
}.

(** [req.FormValue(key)]: the first value of [key], the empty string when
    there is none. *)
Definition FormValue (req : Request) (key : string) : string :=
  match Form req !! key with
  | Some (v :: _) => v
  | _ => EmptyString
  end.

Record ResponseWriter : Type := {
  Header : gmap string (list string);
  status : option nat;
  body : string
}.

(** the writer a handler is called with *)
Definition NewResponse : ResponseWriter :=
  {| Header := ∅; status := None; body := EmptyString |}.

Definition Header_Set (w : ResponseWriter) (key value : string)
  : ResponseWriter :=
  {| Header := <[key := [value]]> (Header w);
     status := status w; body := body w |}.

Definition Header_Del (w : ResponseWriter) (key : string) : ResponseWriter :=
  {| Header := delete key (Header w); status := status w; body := body w |}.

(** [w.WriteHeader(code)]: only the first call sets the status. *)
Definition WriteHeader (w : ResponseWriter) (code : nat) : ResponseWriter :=
  match status w with
  | Some _ => w
  | None => {| Header := Header w; status := Some code; body := body w |}
  end.

(** [w.Write(data)]: writes the header with status 200 when none was
    written, then the data. *)
Definition Write (w : ResponseWriter) (data : string) : ResponseWriter :=
  let w := WriteHeader w StatusOK in
  {| Header := Header w; status := status w; body := body w +:+ data |}.

(** [http.Error(w, error, code)]: it drops the length announced for
    other content, sets the type of the text and writes the status and the
    text, with a newline. *)
Definition Error (w : ResponseWriter) (error : string) (code : nat)
  : ResponseWriter :=
  let w := Header_Del w "Content-Length" in
  let w := Header_Set w "Content-Type" "text/plain; charset=utf-8" in
  let w := Header_Set w "X-Content-Type-Options" "nosniff" in
  let w := WriteHeader w code in
  Write w (error +:+ String byte_LF EmptyString).

End http.

(** ** server.go: the handlers *)
Section handlers.
Context {T : strconv.Float64Type}.

(** [encoding/json] is not modelled.  [json_Marshal] gives the bytes that
    [json.Marshal(readings)] returns, [json_Decode] the batch that
    [json.NewDecoder(req.Body).Decode(&readings)] fills in, or nothing when
    it returns an error. *)
Context (json_Marshal : Readings → string).
Context (json_Decode : string → option Readings).

Definition byte_quote : ascii := "034"%char.

(** [handleHello(w, req)] *)
Definition handleHello (w : http.ResponseWriter) (req : http.Request)
  : http.ResponseWriter :=
  let name := http.FormValue req "name" in
  if 0 <? String.length name then
    http.Write w
      ("{" +:+ String byte_quote "message" +:+ String byte_quote ": "
       +:+ String byte_quote "Hello " +:+ name
       +:+ String byte_quote "}")
  else http.Error w "Error: name not provided" http.StatusBadRequest.

(** What a handler of [/readings] does with its request: it answers on its
    writer, or it sends a message to the worker and waits on [done]. *)
Inductive handled : Type :=
| Responded (w : http.ResponseWriter)
| Sent (m : Message).

(** [uint32(sId)] *)
Definition uint32 (n : N) : N := (n mod 2 ^ 32)%N.

(** [getReading(w, req)], in the handler goroutine [h] *)
Definition getReading (h : nat) (w : http.ResponseWriter) (req : http.Request)
  : handled :=
  let sensorId := http.FormValue req "sensor_id" in
  if 0 <? String.length sensorId then
    match strconv.ParseUint sensorId 10 32 with
    | (_, Some _) =>
        Responded (http.Error w "invalid sensor id" http.StatusBadRequest)
    | (sId, None) => Sent (ReadMessage (uint32 sId) h)
    end
  else
    Responded
      (http.Error w "Error: sensor_id not provided" http.StatusBadRequest).

(** [postReading(w, req)], in the handler goroutine [h] *)
Definition postReading (h : nat) (w : http.ResponseWriter) (req : http.Request)
  : handled :=
  match json_Decode (http.Body req) with
  | None =>
      Responded
        (http.Error w "Error: malformed request" http.StatusBadRequest)
  | Some readings => Sent (WriteMessage readings h)
  end.

(** The handler that [main] registers at [/readings]. *)
Definition handleReadings (h : nat) (w : http.ResponseWriter)
  (req : http.Request) : handled :=
  if String.eqb (http.Method req) http.MethodGet then getReading h w req
  else if String.eqb (http.Method req) http.MethodPost then postReading h w req
  else Responded (http.Error w "Undefined route" http.StatusBadRequest).

(** What [readWriteRoutine] does on the writer of the message it served. *)
Definition respond (r : Response) (w : http.ResponseWriter)
  : http.ResponseWriter :=
  match r with
  | Body readings => http.Write w (json_Marshal readings)
  | StatusCreated => http.WriteHeader w http.StatusCreated
  | ErrorWriting => http.Error w "Error Writing" http.StatusBadRequest
  end.

End handlers.

(** ** A reference implementation of the [strconv] interface

    The integral [float64] values, rendered and parsed exactly, with the
    infinities and NaN.  A numeral too large for a [float64] overflows to an
    infinity with [ErrRange], as [ParseFloat] documents.  It agrees with Go
    on integral values of magnitude below [10^6], which [fmt] prints without
    exponent; it serves to run the model on concrete inputs. *)
Module refconv.

(** Magnitudes from [2^1024 - 2^970] on round to infinity. *)
Definition overflow_bound : Z := 2 ^ 1024 - 2 ^ 970.

Definition in_range (z : Z) : bool := (overflow_bound >? Z.abs z)%Z.

Inductive float64 : Type :=
| Finite (z : Z) (Hz : in_range z = true)
| Inf (negative : bool)
| NaN.

Definition zero : float64 := Finite 0 eq_refl.

Definition FormatFloat (v : float64) : string :=
  match v with
  | Finite z _ => NilZero.string_of_int (Z.to_int z)
  | Inf false => "+Inf"
  | Inf true => "-Inf"
  | NaN => "NaN"
  end.

Definition ParseFloat (s : string) : float64 * option strconv.NumError :=
  match NilZero.int_of_string s with
  | Some d =>
      let z := Z.of_int d in
      match decide (in_range z = true) with
      | left Hz => (Finite z Hz, None)
      | right _ => (Inf (z <? 0)%Z, Some strconv.ErrRange)
      end
  | None =>
      if String.eqb s "+Inf" || String.eqb s "Inf" then (Inf false, None)
      else if String.eqb s "-Inf" then (Inf true, None)
      else if String.eqb s "NaN" then (NaN, None)
      else (zero, Some strconv.ErrSyntax)
  end.

(** The float [z], for [z] in range. *)
Definition of_Z (z : Z) : float64 :=
  match decide (in_range z = true) with
  | left Hz => Finite z Hz
  | right _ => Inf (z <? 0)%Z
  end.

#[export] Instance Float64Type : strconv.Float64Type := float64.

#[export] Instance Float64 : strconv.Float64 := {|
  strconv.float64_zero := zero;
  strconv.FormatFloat := FormatFloat;
  strconv.ParseFloat := ParseFloat
|}.

End refconv.

(** * Specification vocabulary

    The notions the properties of [server.go] are stated with, and the
    invariants of their proofs. *)

(** ** Logs and their lines *)

(** A file made of complete lines: each line is followed by a newline. *)
Fixpoint file_lines (lines : list string) : string :=
  match lines with
  | [] => EmptyString
  | ln :: rest => ln +:+ String byte_LF (file_lines rest)
  end.

(** A line that the scanner delivers as it stands: no newline in it, no
    carriage return at its end, shorter than the largest token. *)
Definition line_ok (ln : string) : Prop :=
  contains_byte byte_LF ln = false ∧
  last_byte ln ≠ Some byte_CR ∧
  String.length ln < bufio.MaxScanTokenSize.

(** the contents of a log, empty when the file does not exist *)
Definition log_contents (fs : os.FS) (name : string) : string :=
  match os.files fs !! name with
  | Some f => os.contents f
  | None => EmptyString
  end.

(** [fs] after [p] has been appended to the file [name], whose inode was
    [f] *)
Definition appended (fs : os.FS) (name : string) (f : os.inode) (p : string)
  : os.FS :=
  {| os.files := <[name := {| os.contents := os.contents f +:+ p;
                              os.readable := os.readable f;
                              os.writable := os.writable f |}]> (os.files fs);
     os.may_create := os.may_create fs;
     os.free := os.free fs - String.length p |}.

(** The state of a writer on the file [name] of a device with room:
    [logical] is the file followed by the buffered bytes; [slack] is the
    room left once the buffer is flushed; [rd] and [wr] are the permissions
    of the file; [fs0] gives the other files. *)
Definition writer_inv (fs0 : os.FS) (name : string) (rd wr : bool)
  (fs : os.FS) (b : bufio.Writer) (logical : string) (slack : nat) : Prop :=
  bufio.wr b = name ∧ bufio.err b = None ∧
  String.length (bufio.buf b) ≤ bufio.defaultBufSize ∧
  os.free fs = slack + String.length (bufio.buf b) ∧
  os.may_create fs = os.may_create fs0 ∧
  (∀ other, other ≠ name → os.files fs !! other = os.files fs0 !! other) ∧
  ∃ f, os.files fs !! name = Some f ∧ os.readable f = rd ∧ os.writable f = wr ∧
       os.contents f +:+ bufio.buf b = logical.

(** the condition of the loop of [Writer.Write] *)
Definition Write_running (b : bufio.Writer) (p : string) : bool :=
  (bufio.Available b <? String.length p)
  && match bufio.err b with None => true | Some _ => false end.

Section vocabulary.
Context {T : strconv.Float64Type} {F : strconv.Float64}.

(** The readings a batch may hold for the log to give them back: a
    timestamp without space and without newline, and an encoded line
    shorter than the largest token of the scanner. *)
Definition reading_ok (r : Reading) : Prop :=
  contains_byte byte_space (Timestamp r) = false ∧
  contains_byte byte_LF (Timestamp r) = false ∧
  String.length (encode r) < bufio.MaxScanTokenSize.

(** the lines [write] appends for the readings of a batch *)
Definition lines_of (readings : list Reading) : string :=
  file_lines (map encode readings).

(** A well-formed line: a timestamp without space or newline, one space,
    and the rendering of a float. *)
Definition well_formed_line (line : string) : Prop :=
  ∃ (ts : string) (v : strconv.float64),
    contains_byte byte_space ts = false ∧
    contains_byte byte_LF ts = false ∧
    line = ts +:+ " " +:+ strconv.FormatFloat v.


(** the infinities: the values that [fmt] prints as [+Inf] and [-Inf] *)
Definition infinite (v : strconv.float64) : Prop :=
  strconv.FormatFloat v = "+Inf" ∨ strconv.FormatFloat v = "-Inf".

(** [r1] may stand before [r2] in ascending order of timestamps *)
Definition timestamp_le (r1 r2 : Reading) : Prop :=
  String.leb (Timestamp r1) (Timestamp r2) = true.

(** ascending by timestamp *)
Definition ascending (readings : list Reading) : Prop :=
  StronglySorted timestamp_le readings.

(** the readings of [readings] with timestamp [ts], in their order *)
Definition with_timestamp (ts : string) (readings : list Reading)
  : list Reading :=
  filter (λ r, Timestamp r = ts) readings.

(** the calls [write(batch, dataDir)] one after the other: the final file
    system and the errors returned *)
Fixpoint writes (fs : os.FS) (batches : list Readings) (dataDir : string)
  : os.FS * list (option error) :=
  match batches with
  | [] => (fs, [])
  | batch :: rest =>
      let '(fs, e) := write fs batch dataDir in
      let '(fs, es) := writes fs rest dataDir in
      (fs, e :: es)
  end.



(** a write request of one reading for [sensorId] *)
Definition single_write (sensorId : N) (r : Reading) (w : nat) : Message :=
  WriteMessage {| Sensor_id := sensorId; Readings' := [r] |} w.



End vocabulary.

(** ** Appends, whatever the device does *)

(** The file [name], opened as the inode [f0] in the file system [fs0],
    after the bytes [flushed] have reached it: it holds its contents at the
    opening followed by [flushed], with its permissions; the device has
    taken that many bytes; the other files are as they were. *)
Definition file_inv (fs0 : os.FS) (name : string) (f0 : os.inode)
  (fs : os.FS) (flushed : string) : Prop :=
  os.may_create fs = os.may_create fs0 ∧
  (∀ other, other ≠ name → os.files fs !! other = os.files fs0 !! other) ∧
  os.free fs0 = os.free fs + String.length flushed ∧
  ∃ f, os.files fs !! name = Some f ∧
       os.readable f = os.readable f0 ∧ os.writable f = os.writable f0 ∧
       os.contents f = os.contents f0 +:+ flushed.

(** The state of an append once the bytes [stream] have been handed to
    the writer: a prefix of the stream has reached the file, and as long as
    no error has occurred the rest of it is in the buffer. *)
Definition append_inv (fs0 : os.FS) (name : string) (f0 : os.inode)
  (fs : os.FS) (b : bufio.Writer) (stream : string) : Prop :=
  bufio.wr b = name ∧
  ∃ flushed rest,
    file_inv fs0 name f0 fs flushed ∧
    stream = flushed +:+ rest ∧
    (bufio.err b = None → rest = bufio.buf b).

(** ** Decimal numerals *)

Definition is_digit (c : ascii) : bool :=
  (48 <=? N_of_ascii c)%N && (N_of_ascii c <=? 57)%N.

Fixpoint all_digits (s : string) : bool :=
  match s with
  | EmptyString => true
  | String c s' => is_digit c && all_digits s'
  end.

(** the number that the decimal digits [s] denote when they follow the
    digits of [n] *)
Fixpoint decimal_from (n : N) (s : string) : N :=
  match s with
  | EmptyString => n
  | String c s' => decimal_from (n * 10 + (N_of_ascii c - 48))%N s'
  end.

Definition decimal (s : string) : N := decimal_from 0 s.

(** ** Lines that end in a carriage return and a newline *)

Definition crlf_lines (lines : list string) : string :=
  file_lines (map (λ ln, ln +:+ String byte_CR EmptyString) lines).

(** ** One request at a time *)
Section requests.
Context {T : strconv.Float64Type} {F : strconv.Float64}.
Context (json_Marshal : Readings → string).
Context (json_Decode : string → option Readings).

(** A request to [/readings] while no other is in flight: the handler
    answers by itself, or its message is the one the worker receives and
    serves, and the worker answers on the writer of the handler. *)
Definition request (dataDir : string) (fs : os.FS) (req : http.Request)
  : outcome (os.FS * http.ResponseWriter) :=
  match handleReadings json_Decode 0 http.NewResponse req with
  | Responded w => Returns (fs, w)
  | Sent m =>
      match serve dataDir fs m with
      | Panics e => Panics e
      | Returns (fs', (_, r)) =>
          Returns (fs', respond json_Marshal r http.NewResponse)
      end
  end.

End requests.

(** the handler a message comes from *)
Definition writer_of {T : strconv.Float64Type} (m : Message) : nat :=
  match m with
  | ReadMessage _ w => w
  | WriteMessage _ w => w
  end.

(** ** Invariants of the sort *)
Section sort_invariants.
Context {A : Type} `{!Inhabited A} (less : A → A → bool).
Implicit Types (l : list A) (a b i j k p c r : nat).

(** [l'] comes from [l] by exchanges of elements of [l[a:b]] *)
Inductive swaps_in a b : list A → list A → Prop :=
| swaps_refl l : swaps_in a b l l
| swaps_step l i j l' :
    a ≤ i < b → a ≤ j < b →
    swaps_in a b (sort.Swap l i j) l' → swaps_in a b l l'.

(** [l[a:b]] is sorted: no element is less than an earlier one *)
Definition sorted_in a b l : Prop :=
  ∀ p q, a ≤ p → p < q → q < b → less (l !!! q) (l !!! p) = false.

(** [u] may stand before [v] in a sorted slice: [v] is not less than [u] *)
Definition not_after (u v : A) : Prop := less v u = false.

(** insertion: [l[a:i+1]] is sorted but for the element at [j], which is
    not above those after it *)
Definition shift_inv a i j l : Prop :=
  (∀ p q, a ≤ p → p < q → q ≤ i → p ≠ j → q ≠ j →
     less (l !!! q) (l !!! p) = false) ∧
  (∀ q, j < q → q ≤ i → less (l !!! q) (l !!! j) = false).

(** partition with two pointers: [below] holds on the left of [i], [above]
    on the right of [j] *)
Definition part_inv (below above : A → bool) l a b i j : Prop :=
  a < i ∧ j < b ∧ b ≤ length l ∧ i ≤ S j ∧
  (∀ k, a < k → k < i → below (l !!! k) = true) ∧
  (∀ k, j < k → k < b → above (l !!! k) = true).

Definition part_post (below above : A → bool) l a b i j : Prop :=
  a < i ∧ j < b ∧ i = S j ∧
  (∀ k, a < k → k < i → below (l !!! k) = true) ∧
  (∀ k, j < k → k < b → above (l !!! k) = true).

(** nothing in [l[a:b]] is less than [l[a-1]] *)
Definition lower_bound a b l : Prop :=
  0 < a → ∀ k, a ≤ k → k < b → less (l !!! k) (l !!! (a - 1)) = false.

(** the heap at offset [first]: [c] is a child of [p]; node [p] is not less
    than node [c]; every node from [lo] on is not less than its children
    below [hi] *)
Definition child_of p c : Prop := c = 2 * p + 1 ∨ c = 2 * p + 2.

Definition dom first l p c : Prop :=
  less (l !!! (first + p)) (l !!! (first + c)) = false.

Definition heap_from first lo hi l : Prop :=
  ∀ p c, lo ≤ p → child_of p c → c < hi → dom first l p c.

(** sifting down from [r]: every node but [r] is not less than its
    children, and the parent of [r] is not less than the children of [r] *)
Definition sift_inv first lo hi r l : Prop :=
  (∀ p c, lo ≤ p → p ≠ r → child_of p c → c < hi → dom first l p c) ∧
  (∀ g c, lo ≤ g → child_of g r → child_of r c → c < hi → dom first l g c).

(** popping: [l[first : first+n]] is a heap, above it the slice is sorted
    and not below the heap *)
Definition pop_inv first n hi l : Prop :=
  heap_from first 0 n l ∧
  sorted_in (first + n) (first + hi) l ∧
  (∀ p q, p < n → n ≤ q → q < hi →
     less (l !!! (first + q)) (l !!! (first + p)) = false).

End sort_invariants.

(** ** Concrete inputs, with the reference implementation of [strconv] *)
Module example.
Import refconv.

(** the reading [{ts, z}] for an integral value *)
Definition R (ts : string) (z : Z) : Reading :=
  {| Timestamp := ts; Value := of_Z z |}.

(** a fresh store with room for [n] bytes *)
Definition fresh (n : nat) : os.FS :=
  {| os.files := ∅; os.may_create := true; os.free := n |}.

(** a store holding one file *)
Definition store (name contents : string) (readable writable : bool) (n : nat)
  : os.FS :=
  {| os.files := {[ name := {| os.contents := contents;
                               os.readable := readable;
                               os.writable := writable |} ]};
     os.may_create := true; os.free := n |}.

Definition batch (sensorId : N) (readings : list Reading) : Readings :=
  {| Sensor_id := sensorId; Readings' := readings |}.

(** the numeral of [10^309]: too large for a [float64] *)
Definition numeral_1e309 : string := String "1" (repeat_byte "0" 309).

(** twelve readings at timestamp [b], then one at [a], and what [read]
    returns for them *)
Definition thirteen : list Reading :=
  map (λ i, R "b" (Z.of_nat i)) (seq 0 12) ++ [R "a" 12].

Definition thirteen_read : list Reading :=
  [R "a" 12; R "b" 6; R "b" 2; R "b" 3; R "b" 4; R "b" 5; R "b" 0;
   R "b" 7; R "b" 8; R "b" 9; R "b" 10; R "b" 11; R "b" 1].

(** the scenario of the specification: two writes out of order *)
Definition scenario : list Readings :=
  [batch 1 [R "2024-01-02" 5]; batch 1 [R "2024-01-01" 3]].


Definition two_writers : list Reading :=
  [R "2024-01-02" 5; R "2024-01-01" 3].

(** the state after the worker has served the second writer, then the
    first *)
Definition served_2_1 : Server :=
  {| disk := fst (write (fst (write (fresh 100) (batch 1 [R "2024-01-01" 3]) "/d/"))
                    (batch 1 [R "2024-01-02" 5]) "/d/");
     blocked := [];
     delivered := [(2, StatusCreated); (1, StatusCreated)] |}.

End example.

(** * Properties

    Everything below is proved of the definitions above. *)

(** ** Byte strings *)

Lemma append_cons (c : ascii) (s t : string) :
  String c s +:+ t = String c (s +:+ t).
Proof. reflexivity. Qed.

Lemma append_nil_l (t : string) : "" +:+ t = t.
Proof. reflexivity. Qed.

Lemma append_nil_r (s : string) : s +:+ "" = s.
Proof.
  induction s as [|c s IH]; [reflexivity|].
  rewrite !append_cons, IH. reflexivity.
Qed.

Lemma append_assoc (s1 s2 s3 : string) : (s1 +:+ s2) +:+ s3 = s1 +:+ (s2 +:+ s3).
Proof.
  induction s1 as [|c s1 IH]; [reflexivity|].
  rewrite !append_cons. cbn [String.length]. rewrite IH. reflexivity.
Qed.

Lemma length_append (s1 s2 : string) :
  String.length (s1 +:+ s2) = String.length s1 + String.length s2.
Proof.
  induction s1 as [|c s1 IH]; [reflexivity|].
  rewrite !append_cons. cbn [String.length]. rewrite IH. reflexivity.
Qed.

Lemma contains_byte_append (c : ascii) (s1 s2 : string) :
  contains_byte c (s1 +:+ s2) = contains_byte c s1 || contains_byte c s2.
Proof.
  induction s1 as [|x s1 IH]; [reflexivity|].
  rewrite append_cons. cbn [contains_byte]. rewrite IH, orb_assoc. reflexivity.
Qed.

Lemma last_byte_append_cons (s1 s2 : string) (c : ascii) :
  last_byte (s1 +:+ String c s2) = last_byte (String c s2).
Proof.
  induction s1 as [|x s1 IH]; [reflexivity|].
  rewrite append_cons, <- IH. cbn [last_byte].
  destruct (s1 +:+ String c s2) eqn:E; [|reflexivity].
  destruct s1; discriminate.
Qed.

Lemma last_byte_contains (s : string) (c : ascii) :
  last_byte s = Some c → contains_byte c s = true.
Proof.
  induction s as [|x s IH]; [discriminate|].
  cbn [last_byte contains_byte]. destruct s as [|y s].
  - intros [= ->]. rewrite Ascii.eqb_refl. reflexivity.
  - intros H. rewrite (IH H). apply orb_true_r.
Qed.

Lemma take_drop_bytes (n : nat) (s : string) :
  take_bytes n s +:+ drop_bytes n s = s.
Proof.
  revert s. induction n as [|n IH]; intros [|c s]; try reflexivity.
  cbn [take_bytes drop_bytes String.length Nat.min];
    rewrite ?append_cons, IH; reflexivity.
Qed.

Lemma take_bytes_all (n : nat) (s : string) :
  String.length s ≤ n → take_bytes n s = s.
Proof.
  revert s. induction n as [|n IH]; intros [|c s] Hn; try reflexivity.
  - cbn [String.length] in Hn. lia.
  - cbn [String.length take_bytes] in *. rewrite IH by lia. reflexivity.
Qed.

Lemma drop_bytes_all (n : nat) (s : string) :
  String.length s ≤ n → drop_bytes n s = "".
Proof.
  revert s. induction n as [|n IH]; intros [|c s] Hn; try reflexivity.
  - cbn [String.length] in Hn. lia.
  - cbn [String.length drop_bytes] in *. apply IH. lia.
Qed.

Lemma length_take_bytes (n : nat) (s : string) :
  String.length (take_bytes n s) = Nat.min n (String.length s).
Proof.
  revert s. induction n as [|n IH]; intros [|c s]; try reflexivity.
  cbn [take_bytes drop_bytes String.length Nat.min];
    rewrite ?append_cons, IH; reflexivity.
Qed.

Lemma length_drop_bytes (n : nat) (s : string) :
  String.length (drop_bytes n s) = String.length s - n.
Proof.
  revert s. induction n as [|n IH]; intros [|c s]; try reflexivity.
  cbn [drop_bytes String.length Nat.sub]. apply IH.
Qed.

(** ** The order of Go strings *)

Lemma ltb_leb (s1 s2 : string) : String.ltb s1 s2 = negb (String.leb s2 s1).
Proof.
  unfold String.ltb, String.leb. rewrite String.compare_antisym.
  destruct (String.compare s2 s1); reflexivity.
Qed.

Lemma ltb_irrefl (s : string) : String.ltb s s = false.
Proof.
  rewrite ltb_leb. apply negb_false_iff.
  apply Is_true_true. apply (reflexivity (R := String.le)).
Qed.

Lemma ltb_trans (s1 s2 s3 : string) :
  String.ltb s1 s2 = true → String.ltb s2 s3 = true → String.ltb s1 s3 = true.
Proof.
  rewrite !ltb_leb, !negb_true_iff. intros H12 H23.
  destruct (String.leb s3 s1) eqn:H31; [|reflexivity].
  destruct (total String.le s1 s2) as [H|H].
  - assert (String.le s3 s2) as H32.
    { etrans; [apply Is_true_true, H31|exact H]. }
    apply Is_true_true in H32. congruence.
  - apply Is_true_true in H. congruence.
Qed.

Lemma ltb_ntrans (s1 s2 s3 : string) :
  String.ltb s2 s1 = false → String.ltb s3 s2 = false → String.ltb s3 s1 = false.
Proof.
  rewrite !ltb_leb, !negb_false_iff. intros H12 H23.
  apply Is_true_true. etrans; apply Is_true_true; eassumption.
Qed.

(** ** strings.Split *)

Lemma Split_nonempty (s : string) (sep : ascii) : strings.Split s sep ≠ [].
Proof.
  induction s as [|c s IH]; [discriminate|]. cbn [strings.Split].
  destruct (Ascii.eqb c sep); [discriminate|].
  destruct (strings.Split s sep); discriminate.
Qed.

Lemma Split_no_sep (s : string) (sep : ascii) :
  contains_byte sep s = false → strings.Split s sep = [s].
Proof.
  induction s as [|c s IH]; [reflexivity|].
  cbn [contains_byte strings.Split]. intros H.
  apply orb_false_iff in H as [Hc Hs]. rewrite Hc, (IH Hs). reflexivity.
Qed.

Lemma Split_append (s1 s2 : string) (sep : ascii) :
  contains_byte sep s1 = false →
  strings.Split (s1 +:+ String sep s2) sep = s1 :: strings.Split s2 sep.
Proof.
  induction s1 as [|c s1 IH]; intros H.
  - rewrite append_nil_l. cbn [strings.Split]. rewrite Ascii.eqb_refl. reflexivity.
  - cbn [contains_byte] in H. apply orb_false_iff in H as [Hc Hs].
    rewrite append_cons. cbn [strings.Split]. rewrite Hc, (IH Hs). reflexivity.
Qed.

(** a line without separator has one field only *)
Lemma Split_length_1 (s : string) (sep : ascii) :
  contains_byte sep s = false → strings.Split s sep !! 1 = None.
Proof. intros H. rewrite Split_no_sep by exact H. reflexivity. Qed.

(** ** sort.Slice: the exchanges, the order, the permutation *)

Section sort_swaps.
Context {A : Type} `{!Inhabited A}.
Implicit Types (l data : list A) (a b i j k : nat).

Lemma Swap_length l i j : length (sort.Swap l i j) = length l.
Proof.
  unfold sort.Swap. destruct (l !! i), (l !! j); trivial.
  rewrite !length_insert. reflexivity.
Qed.

Lemma Swap_lookup_total l i j k :
  i < length l → j < length l →
  sort.Swap l i j !!! k =
    if decide (k = j) then l !!! i
    else if decide (k = i) then l !!! j else l !!! k.
Proof.
  intros Hi Hj. unfold sort.Swap.
  rewrite (list_lookup_lookup_total_lt l i Hi), (list_lookup_lookup_total_lt l j Hj).
  destruct (decide (k = j)) as [->|Hkj].
  - rewrite list_lookup_total_insert_eq; [reflexivity|]. rewrite length_insert. lia.
  - rewrite list_lookup_total_insert_ne by congruence.
    destruct (decide (k = i)) as [->|Hki].
    + rewrite list_lookup_total_insert_eq; [reflexivity|lia].
    + rewrite list_lookup_total_insert_ne by congruence. reflexivity.
Qed.

Lemma Swap_lookup_r l i j :
  i < length l → j < length l → sort.Swap l i j !!! j = l !!! i.
Proof.
  intros Hi Hj. rewrite Swap_lookup_total by assumption.
  rewrite decide_True by reflexivity. reflexivity.
Qed.

Lemma Swap_lookup_l l i j :
  i < length l → j < length l → sort.Swap l i j !!! i = l !!! j.
Proof.
  intros Hi Hj. rewrite Swap_lookup_total by assumption.
  destruct (decide (i = j)) as [->|]; [reflexivity|].
  rewrite decide_True by reflexivity. reflexivity.
Qed.

Lemma Swap_lookup_ne l i j k :
  i < length l → j < length l → k ≠ i → k ≠ j → sort.Swap l i j !!! k = l !!! k.
Proof.
  intros Hi Hj Hki Hkj. rewrite Swap_lookup_total by assumption.
  rewrite !decide_False by assumption. reflexivity.
Qed.

Lemma Swap_out_of_range l i j :
  length l ≤ i ∨ length l ≤ j → sort.Swap l i j = l.
Proof.
  intros Hij. unfold sort.Swap.
  destruct (l !! i) eqn:Ei; [|reflexivity].
  destruct (l !! j) eqn:Ej; [|reflexivity].
  apply lookup_lt_Some in Ei, Ej. lia.
Qed.

Lemma Swap_Permutation l i j : sort.Swap l i j ≡ₚ l.
Proof.
  destruct (decide (i < length l ∧ j < length l)) as [[Hi Hj]|Hn];
    [|rewrite Swap_out_of_range by lia; reflexivity].
  apply Permutation_inj. split; [apply Swap_length|].
  exists (λ k, if decide (k = j) then i else if decide (k = i) then j else k).
  split.
  - intros x y. repeat case_decide; intros; subst; congruence.
  - intros k. destruct (decide (k < length l)) as [Hk|Hk].
    + rewrite !list_lookup_lookup_total_lt.
      * f_equal. rewrite Swap_lookup_total by assumption.
        repeat case_decide; subst; reflexivity.
      * repeat case_decide; lia.
      * rewrite Swap_length. lia.
    + rewrite !lookup_ge_None_2; trivial.
      * repeat case_decide; lia.
      * rewrite Swap_length. lia.
Qed.

Lemma swaps_trans a b l1 l2 l3 :
  swaps_in a b l1 l2 → swaps_in a b l2 l3 → swaps_in a b l1 l3.
Proof.
  induction 1 as [|l i j l' Hi Hj _ IH]; [trivial|]. intros H3.
  eapply swaps_step; [exact Hi|exact Hj|]. apply IH, H3.
Qed.

Lemma swaps_one a b l i j :
  a ≤ i < b → a ≤ j < b → swaps_in a b l (sort.Swap l i j).
Proof.
  intros Hi Hj. eapply swaps_step; [exact Hi|exact Hj|apply swaps_refl].
Qed.

Lemma swaps_mono a b a' b' l l' :
  a' ≤ a → b ≤ b' → swaps_in a b l l' → swaps_in a' b' l l'.
Proof.
  intros Ha Hb. induction 1; [apply swaps_refl|].
  eapply swaps_step; [| |eassumption]; lia.
Qed.

Lemma swaps_length a b l l' : swaps_in a b l l' → length l' = length l.
Proof. induction 1; [reflexivity|]. rewrite IHswaps_in. apply Swap_length. Qed.

Lemma swaps_Permutation a b l l' : swaps_in a b l l' → l' ≡ₚ l.
Proof.
  induction 1; [reflexivity|]. rewrite IHswaps_in. apply Swap_Permutation.
Qed.

Lemma swaps_outside a b l l' k :
  swaps_in a b l l' → k < a ∨ b ≤ k → l' !!! k = l !!! k.
Proof.
  induction 1 as [|l i j l' Hi Hj _ IH]; [reflexivity|]. intros Hk.
  rewrite IH by assumption.
  destruct (decide (i < length l ∧ j < length l)) as [[? ?]|Hn];
    [|rewrite Swap_out_of_range by lia; reflexivity].
  rewrite Swap_lookup_total by assumption.
  repeat case_decide; try lia. reflexivity.
Qed.

Lemma swaps_inside a b l l' (P : A → Prop) :
  swaps_in a b l l' → b ≤ length l →
  (∀ k, a ≤ k < b → P (l !!! k)) → ∀ k, a ≤ k < b → P (l' !!! k).
Proof.
  induction 1 as [|l i j l' Hi Hj _ IH]; [auto|]. intros Hb HP.
  apply IH; [rewrite Swap_length; assumption|].
  intros k Hk. rewrite Swap_lookup_total by lia.
  repeat case_decide; apply HP; lia.
Qed.

End sort_swaps.

Section scans.
Implicit Types (c : nat → bool) (i j k n : nat).

Lemma scan_up_spec n c i j :
  i ≤ S j → S j - i ≤ n →
  let i' := sort.scan_up n c i j in
  i ≤ i' ∧ i' ≤ S j ∧ (∀ k, i ≤ k → k < i' → c k = true) ∧
  (i' ≤ j → c i' = false).
Proof.
  revert i. induction n as [|n IH]; intros i Hi Hn; cbn zeta.
  - simpl. repeat split; intros; lia.
  - cbn [sort.scan_up]. destruct (i <=? j) eqn:Hij; cbn [andb].
    + apply Nat.leb_le in Hij. destruct (c i) eqn:Hc.
      * destruct (IH (S i)) as (H1 & H2 & H3 & H4); [lia..|].
        split; [lia|split; [lia|split; [|exact H4]]].
        intros k Hk1 Hk2. destruct (decide (k = i)) as [->|]; [exact Hc|].
        apply H3; lia.
      * repeat split; intros; try lia; exact Hc.
    + apply Nat.leb_gt in Hij. repeat split; intros; lia.
Qed.

Lemma scan_down_spec n c i j :
  0 < i → i ≤ S j → S j - i ≤ n →
  let j' := sort.scan_down n c i j in
  j' ≤ j ∧ i ≤ S j' ∧ (∀ k, j' < k → k ≤ j → c k = true) ∧
  (i ≤ j' → c j' = false).
Proof.
  intros H0. revert j. induction n as [|n IH]; intros j Hi Hn; cbn zeta.
  - simpl. repeat split; intros; lia.
  - cbn [sort.scan_down]. destruct (i <=? j) eqn:Hij; cbn [andb].
    + apply Nat.leb_le in Hij. destruct (c j) eqn:Hc.
      * destruct (IH (j - 1)) as (H1 & H2 & H3 & H4); [lia..|].
        split; [lia|split; [lia|split; [|intros; apply H4; lia]]].
        intros k Hk1 Hk2. destruct (decide (k = j)) as [->|]; [exact Hc|].
        apply H3; lia.
      * repeat split; intros; try lia; exact Hc.
    + apply Nat.leb_gt in Hij. repeat split; intros; lia.
Qed.

End scans.

Section sort_correct.
Context {A : Type} `{!Inhabited A} (less : A → A → bool).
Hypothesis less_irrefl : ∀ x, less x x = false.
Hypothesis less_trans :
  ∀ x y z, less x y = true → less y z = true → less x z = true.
Hypothesis less_ntrans :
  ∀ x y z, less y x = false → less z y = false → less z x = false.
Implicit Types (l data : list A) (a b i j k : nat).
Lemma less_asym x y : less x y = true → less y x = false.
Proof.
  intros Hxy. destruct (less y x) eqn:Hyx; [|reflexivity].
  rewrite <- (less_irrefl x). symmetry. eapply less_trans; eassumption.
Qed.

(* x < y, not (z < y)  ==> x < z  *)
Lemma less_le_trans x y z : less x y = true → less z y = false → less x z = true.
Proof.
  intros Hxy Hzy. destruct (less x z) eqn:Hxz; [reflexivity|].
  rewrite (less_ntrans y z x) in Hxy; [discriminate|assumption..].
Qed.

Lemma le_less_trans x y z : less y x = false → less y z = true → less x z = true.
Proof.
  intros Hyx Hyz. destruct (less x z) eqn:Hxz; [reflexivity|].
  rewrite (less_ntrans z x y) in Hyz; [discriminate|assumption..].
Qed.

Lemma Less_total l i j :
  i < length l → j < length l →
  sort.Less less l i j = less (l !!! i) (l !!! j).
Proof.
  intros Hi Hj. unfold sort.Less.
  rewrite (list_lookup_lookup_total_lt l i Hi), (list_lookup_lookup_total_lt l j Hj).
  reflexivity.
Qed.

Lemma sorted_in_adjacent a b l :
  (∀ q, a < q → q < b → less (l !!! q) (l !!! (q - 1)) = false) →
  sorted_in less a b l.
Proof.
  intros Hadj p q Hp Hpq Hq. induction q as [|q IH]; [lia|].
  destruct (decide (p = q)) as [->|Hne].
  - specialize (Hadj (S q)). replace (S q - 1) with q in Hadj by lia.
    apply Hadj; lia.
  - eapply less_ntrans; [apply IH; lia|].
    specialize (Hadj (S q)). replace (S q - 1) with q in Hadj by lia.
    apply Hadj; lia.
Qed.

Lemma sorted_in_swaps_outside a b a' b' l l' :
  swaps_in a' b' l l' → (b ≤ a' ∨ b' ≤ a) →
  sorted_in less a b l → sorted_in less a b l'.
Proof.
  intros Hsw Hdisj Hs p q Hp Hpq Hq.
  rewrite !(swaps_outside _ _ _ _ _ Hsw) by lia. apply Hs; lia.
Qed.

Lemma insertion_shift_spec a i j l :
  a ≤ j → j ≤ i → i < length l → shift_inv less a i j l →
  swaps_in a (S i) l (sort.insertion_shift less a j l) ∧
  sorted_in less a (S i) (sort.insertion_shift less a j l).
Proof.
  revert l. induction j as [|j IH]; intros l Ha Hji Hi [H1 H2].
  - simpl. split; [apply swaps_refl|].
    intros p q Hp Hpq Hq. destruct (decide (p = 0)) as [->|Hp0].
    + apply H2; lia.
    + apply H1; lia.
  - cbn [sort.insertion_shift].
    rewrite Less_total by lia.
    destruct (a <? S j) eqn:Haj; cbn [andb].
    + apply Nat.ltb_lt in Haj.
      destruct (less (l !!! S j) (l !!! j)) eqn:Hlt.
      * assert (Hinv : shift_inv less a i j (sort.Swap l (S j) j)).
        { split.
          - intros p q Hp Hpq Hq Hpj Hqj.
            rewrite !Swap_lookup_total by lia.
            repeat case_decide; subst; try lia.
            + apply H1; lia.
            + apply H1; lia.
            + apply H1; lia.
          - intros q Hjq Hq. rewrite !Swap_lookup_total by lia.
            repeat case_decide; subst; try lia.
            + apply less_asym, Hlt.
            + apply H2; lia. }
        destruct (IH (sort.Swap l (S j) j)) as [IHs IHo];
          [lia|lia|rewrite Swap_length; lia|exact Hinv|].
        split; [|exact IHo].
        eapply swaps_step; [| |exact IHs]; lia.
      * split; [apply swaps_refl|].
        intros p q Hp Hpq Hq.
        destruct (decide (q = S j)) as [->|Hqj].
        -- destruct (decide (p = j)) as [->|Hpj]; [exact Hlt|].
           eapply less_ntrans; [|exact Hlt]. apply H1; lia.
        -- destruct (decide (p = S j)) as [->|Hpj].
           ++ apply H2; lia.
           ++ apply H1; lia.
    + apply Nat.ltb_ge in Haj. assert (a = S j) as -> by lia.
      split; [apply swaps_refl|].
      intros p q Hp Hpq Hq.
      destruct (decide (p = S j)) as [->|Hpj].
      * apply H2; lia.
      * apply H1; lia.
Qed.

Lemma insertion_loop_spec n a i l :
  a < i → i + n ≤ length l → sorted_in less a i l →
  swaps_in a (i + n) l (sort.insertion_loop less n a i l) ∧
  sorted_in less a (i + n) (sort.insertion_loop less n a i l).
Proof.
  revert i l. induction n as [|n IH]; intros i l Hai Hlen Hs.
  - simpl. rewrite Nat.add_0_r. split; [apply swaps_refl|exact Hs].
  - cbn [sort.insertion_loop].
    destruct (insertion_shift_spec a i i l) as [Hsw Hso]; [lia..| |].
    { split; [intros; apply Hs; lia|intros; lia]. }
    destruct (IH (S i) (sort.insertion_shift less a i l)) as [Hsw' Hso'];
      [lia|rewrite (swaps_length _ _ _ _ Hsw); lia|exact Hso|].
    replace (i + S n) with (S i + n) by lia.
    split; [|exact Hso'].
    eapply swaps_trans; [|exact Hsw']. eapply swaps_mono; [| |exact Hsw]; lia.
Qed.

Lemma insertionSort_func_spec l a b :
  b ≤ length l →
  swaps_in a b l (sort.insertionSort_func less l a b) ∧
  sorted_in less a b (sort.insertionSort_func less l a b).
Proof.
  intros Hb. unfold sort.insertionSort_func.
  destruct (decide (a + 1 < b)) as [Hab|Hab].
  - destruct (insertion_loop_spec (b - (a + 1)) a (a + 1) l) as [H1 H2];
      [lia|lia|intros p q; lia|].
    replace (a + 1 + (b - (a + 1))) with b in * by lia. split; assumption.
  - replace (b - (a + 1)) with 0 by lia. simpl.
    split; [apply swaps_refl|intros p q; lia].
Qed.

Lemma part_inv_swap below above l a b i j :
  (∀ x, below x = negb (above x)) →
  part_inv below above l a b i j → i ≤ j →
  above (l !!! i) = true → below (l !!! j) = true →
  part_inv below above (sort.Swap l i j) a b (S i) (j - 1).
Proof.
  intros Hneg (Hai & Hjb & Hb & Hij & HL & HR) Hle Hi Hj.
  assert (i ≠ j).
  { intros ->. rewrite Hneg, Hi in Hj. discriminate. }
  repeat split; try lia.
  - rewrite Swap_length. exact Hb.
  - intros k Hk1 Hk2. rewrite Swap_lookup_total by lia.
    repeat case_decide; subst; try lia; auto. apply HL; lia.
  - intros k Hk1 Hk2. rewrite Swap_lookup_total by lia.
    repeat case_decide; subst; try lia; auto. apply HR; lia.
Qed.

(** One round of scanning, for conditions that agree with [below]/[above]
    on the elements. *)
Lemma part_scan below above (cu cd : nat → bool) l a b i j n1 n2 :
  part_inv below above l a b i j →
  (∀ k, a < k → k < b → cu k = below (l !!! k)) →
  (∀ k, a < k → k < b → cd k = above (l !!! k)) →
  (∀ x, below x = negb (above x)) →
  S j - i ≤ n1 →
  let i' := sort.scan_up n1 cu i j in
  S j - i' ≤ n2 →
  let j' := sort.scan_down n2 cd i' j in
  part_inv below above l a b i' j' ∧ i ≤ i' ∧ j' ≤ j ∧
  (i' ≤ j' → above (l !!! i') = true ∧ below (l !!! j') = true).
Proof.
  intros (Hai & Hjb & Hb & Hij & HL & HR) Hcu Hcd Hneg Hn1 i' Hn2 j'.
  destruct (scan_up_spec n1 cu i j) as (U1 & U2 & U3 & U4); [lia..|].
  fold i' in U1, U2, U3, U4.
  destruct (scan_down_spec n2 cd i' j) as (D1 & D2 & D3 & D4); [lia..|].
  fold j' in D1, D2, D3, D4.
  split; [|split; [lia|split; [lia|]]].
  - repeat split; try lia.
    + intros k Hk1 Hk2. destruct (decide (k < i)); [apply HL; lia|].
      rewrite <- Hcu by lia. apply U3; lia.
    + intros k Hk1 Hk2. destruct (decide (j < k)); [apply HR; lia|].
      rewrite <- Hcd by lia. apply D3; lia.
  - intros Hle. split.
    + specialize (U4 ltac:(lia)). rewrite Hcu in U4 by lia.
      rewrite Hneg in U4. destruct (above (l !!! i')); [reflexivity|discriminate].
    + specialize (D4 Hle). rewrite Hcd in D4 by lia.
      rewrite Hneg. rewrite D4. reflexivity.
Qed.

Lemma partition_loop_spec fuel l a b i j :
  let p := l !!! a in
  part_inv (λ x, less x p) (λ x, negb (less x p)) l a b i j →
  S j - i < fuel →
  ∃ l' j', sort.partition_loop less fuel l a i j = (l', j') ∧
    swaps_in (S a) b l l' ∧
    part_post (λ x, less x p) (λ x, negb (less x p)) l' a b (S j') j'.
Proof.
  cbn zeta. revert l i j. induction fuel as [|fuel IH]; intros l i j Hinv Hfuel; [lia|].
  cbn [sort.partition_loop].
  set (p := l !!! a) in *.
  pose proof Hinv as (Hai & Hjb & Hb & Hij & HL & HR).
  destruct (part_scan (λ x, less x p) (λ x, negb (less x p))
              (λ i, sort.Less less l i a) (λ j, negb (sort.Less less l j a))
              l a b i j (S j - i)
              (S j - sort.scan_up (S j - i) (λ i, sort.Less less l i a) i j))
    as (Hinv' & Hi' & Hj' & Hsw); try assumption; try lia.
  { intros k ? ?. rewrite Less_total by lia. reflexivity. }
  { intros k ? ?. rewrite Less_total by lia. reflexivity. }
  { intros x. rewrite negb_involutive. reflexivity. }
  set (i' := sort.scan_up (S j - i) (λ i, sort.Less less l i a) i j) in *.
  set (j' := sort.scan_down (S j - i') (λ j, negb (sort.Less less l j a)) i' j) in *.
  pose proof Hinv' as (Hai' & Hjb' & _ & Hij' & HL' & HR').
  destruct (j' <? i') eqn:Hlt.
  - apply Nat.ltb_lt in Hlt. exists l, j'. split; [reflexivity|].
    split; [apply swaps_refl|].
    assert (i' = S j') as Heq by lia. rewrite Heq in *.
    repeat split; try lia; assumption.
  - apply Nat.ltb_ge in Hlt. destruct (Hsw Hlt) as [Habove Hbelow].
    assert (i' ≠ j').
    { intros Heq. rewrite Heq in Habove. cbv beta in *.
      rewrite Hbelow in Habove. discriminate. }
    assert (Hpa : sort.Swap l i' j' !!! a = p).
    { rewrite Swap_lookup_total by lia. repeat case_decide; try lia. reflexivity. }
    destruct (IH (sort.Swap l i' j') (S i') (j' - 1)) as (l' & jj & Heq & Hsw' & Hpost).
    + rewrite Hpa. apply part_inv_swap; try assumption.
      intros x. rewrite negb_involutive. reflexivity.
    + lia.
    + exists l', jj. split; [exact Heq|]. rewrite Hpa in Hpost. split; [|exact Hpost].
      eapply swaps_step; [| |exact Hsw']; lia.
Qed.

Lemma partition_func_spec l a b pivot :
  a ≤ pivot → pivot < b → b ≤ length l →
  ∃ l' mid ap, sort.partition_func less l a b pivot = (l', mid, ap) ∧
    swaps_in a b l l' ∧ a ≤ mid ∧ mid < b ∧
    (∀ k, a ≤ k → k < mid → less (l' !!! k) (l' !!! mid) = true) ∧
    (∀ k, mid < k → k < b → less (l' !!! k) (l' !!! mid) = false).
Proof.
  intros Hap Hpb Hb. unfold sort.partition_func.
  set (l1 := sort.Swap l a pivot).
  assert (Hlen1 : length l1 = length l) by apply Swap_length.
  set (p := l1 !!! a).
  assert (Hinv : part_inv (λ x, less x p) (λ x, negb (less x p)) l1 a b (a + 1) (b - 1)).
  { repeat split; try lia; intros; lia. }
  destruct (part_scan (λ x, less x p) (λ x, negb (less x p))
              (λ i, sort.Less less l1 i a) (λ j, negb (sort.Less less l1 j a))
              l1 a b (a + 1) (b - 1) (S (b - 1) - (a + 1))
              (S (b - 1) - sort.scan_up (S (b - 1) - (a + 1)) (λ i, sort.Less less l1 i a) (a + 1) (b - 1)))
    as (Hinv' & Hi' & Hj' & Hsw); try assumption; try lia.
  { intros k ? ?. rewrite Less_total by lia. reflexivity. }
  { intros k ? ?. rewrite Less_total by lia. reflexivity. }
  { intros x. rewrite negb_involutive. reflexivity. }
  set (i' := sort.scan_up (S (b - 1) - (a + 1)) (λ i, sort.Less less l1 i a) (a + 1) (b - 1)) in *.
  set (j' := sort.scan_down (S (b - 1) - i') (λ j, negb (sort.Less less l1 j a)) i' (b - 1)) in *.
  pose proof Hinv' as (Hai' & Hjb' & _ & Hij' & HL' & HR').
  assert (Hfinal : ∀ l2 j2,
    swaps_in (S a) b l1 l2 →
    part_post (λ x, less x p) (λ x, negb (less x p)) l2 a b (S j2) j2 →
    swaps_in a b l (sort.Swap l2 j2 a) ∧ a ≤ j2 ∧ j2 < b ∧
    (∀ k, a ≤ k → k < j2 →
       less (sort.Swap l2 j2 a !!! k) (sort.Swap l2 j2 a !!! j2) = true) ∧
    (∀ k, j2 < k → k < b →
       less (sort.Swap l2 j2 a !!! k) (sort.Swap l2 j2 a !!! j2) = false)).
  { intros l2 j2 Hsw2 (P1 & P2 & _ & PL & PR).
    assert (Hlen2 : length l2 = length l).
    { rewrite (swaps_length _ _ _ _ Hsw2). exact Hlen1. }
    assert (Hp2 : l2 !!! a = p).
    { unfold p. apply (swaps_outside _ _ _ _ _ Hsw2). lia. }
    split.
    { eapply swaps_step with (i := a) (j := pivot); [lia|lia|].
      eapply swaps_trans; [eapply swaps_mono; [| |exact Hsw2]; lia|].
      apply swaps_one; lia. }
    split; [lia|]. split; [lia|]. split.
    - intros k Hk1 Hk2. rewrite !Swap_lookup_total by lia.
      repeat case_decide; subst; try lia.
      + rewrite Hp2. apply PL; lia.
      + rewrite Hp2. apply PL; lia.
    - intros k Hk1 Hk2. rewrite !Swap_lookup_total by lia.
      repeat case_decide; subst; try lia.
      + rewrite Hp2. specialize (PR k ltac:(lia) ltac:(lia)).
        apply negb_true_iff in PR. exact PR.
      + rewrite Hp2. specialize (PR k ltac:(lia) ltac:(lia)).
        apply negb_true_iff in PR. exact PR. }
  destruct (j' <? i') eqn:Hlt.
  - apply Nat.ltb_lt in Hlt. exists (sort.Swap l1 j' a), j', true.
    split; [reflexivity|]. apply Hfinal; [apply swaps_refl|].
    assert (i' = S j') as Heq by lia. rewrite Heq in *.
    repeat split; try lia; assumption.
  - apply Nat.ltb_ge in Hlt. destruct (Hsw Hlt) as [Habove Hbelow].
    assert (i' ≠ j').
    { intros Heq. rewrite Heq in Habove. cbv beta in *.
      rewrite Hbelow in Habove. discriminate. }
    assert (Hpa : sort.Swap l1 i' j' !!! a = p).
    { rewrite Swap_lookup_total by lia. repeat case_decide; try lia. reflexivity. }
    destruct (partition_loop_spec (S j' - i') (sort.Swap l1 i' j') a b (S i') (j' - 1))
      as (l2 & j2 & Heq & Hsw2 & Hpost).
    + rewrite Hpa. apply part_inv_swap; try assumption.
      intros x. rewrite negb_involutive. reflexivity.
    + lia.
    + rewrite Heq. exists (sort.Swap l2 j2 a), j2, false.
      split; [reflexivity|]. rewrite Hpa in Hpost. apply Hfinal; [|exact Hpost].
      eapply swaps_step; [| |exact Hsw2]; lia.
Qed.

Lemma partitionEqual_loop_spec fuel l a b i j :
  let p := l !!! a in
  part_inv (λ x, negb (less p x)) (λ x, less p x) l a b i j →
  S j - i < fuel →
  ∃ l' i', sort.partitionEqual_loop less fuel l a i j = (l', i') ∧
    swaps_in (S a) b l l' ∧ a < i' ∧ i' ≤ b ∧
    (∀ k, a < k → k < i' → less p (l' !!! k) = false) ∧
    (∀ k, i' ≤ k → k < b → less p (l' !!! k) = true).
Proof.
  cbn zeta. revert l i j. induction fuel as [|fuel IH]; intros l i j Hinv Hfuel; [lia|].
  cbn [sort.partitionEqual_loop].
  set (p := l !!! a) in *.
  pose proof Hinv as (Hai & Hjb & Hb & Hij & HL & HR).
  destruct (part_scan (λ x, negb (less p x)) (λ x, less p x)
              (λ i, negb (sort.Less less l a i)) (λ j, sort.Less less l a j)
              l a b i j (S j - i)
              (S j - sort.scan_up (S j - i) (λ i, negb (sort.Less less l a i)) i j))
    as (Hinv' & Hi' & Hj' & Hsw); try assumption; try lia.
  { intros k ? ?. rewrite Less_total by lia. reflexivity. }
  { intros k ? ?. rewrite Less_total by lia. reflexivity. }
  { intros x. reflexivity. }
  set (i' := sort.scan_up (S j - i) (λ i, negb (sort.Less less l a i)) i j) in *.
  set (j' := sort.scan_down (S j - i') (λ j, sort.Less less l a j) i' j) in *.
  pose proof Hinv' as (Hai' & Hjb' & _ & Hij' & HL' & HR').
  destruct (j' <? i') eqn:Hlt.
  - apply Nat.ltb_lt in Hlt. exists l, i'. split; [reflexivity|].
    split; [apply swaps_refl|].
    split; [lia|]. split; [lia|]. split.
    + intros k ? ?. apply negb_true_iff. apply HL'; lia.
    + intros k ? ?. apply HR'; lia.
  - apply Nat.ltb_ge in Hlt. destruct (Hsw Hlt) as [Habove Hbelow].
    assert (i' ≠ j').
    { intros Heq. rewrite Heq in Habove. cbv beta in *.
      rewrite Habove in Hbelow. discriminate. }
    assert (Hpa : sort.Swap l i' j' !!! a = p).
    { rewrite Swap_lookup_total by lia. repeat case_decide; try lia. reflexivity. }
    destruct (IH (sort.Swap l i' j') (S i') (j' - 1))
      as (l' & ii & Heq & Hsw' & Hpost).
    + rewrite Hpa. apply part_inv_swap; try assumption. intros x. reflexivity.
    + lia.
    + exists l', ii. split; [exact Heq|]. rewrite Hpa in Hpost.
      split; [|exact Hpost].
      eapply swaps_step; [| |exact Hsw']; lia.
Qed.

Lemma partitionEqual_func_spec l a b pivot :
  a ≤ pivot → pivot < b → b ≤ length l →
  ∃ l' mid, sort.partitionEqual_func less l a b pivot = (l', mid) ∧
    swaps_in a b l l' ∧ a < mid ∧ mid ≤ b ∧
    l' !!! a = l !!! pivot ∧
    (∀ k, a ≤ k → k < mid → less (l !!! pivot) (l' !!! k) = false) ∧
    (∀ k, mid ≤ k → k < b → less (l !!! pivot) (l' !!! k) = true).
Proof.
  intros Hap Hpb Hb. unfold sort.partitionEqual_func.
  set (l1 := sort.Swap l a pivot).
  assert (Hlen1 : length l1 = length l) by apply Swap_length.
  assert (Hp1 : l1 !!! a = l !!! pivot).
  { unfold l1. rewrite Swap_lookup_total by lia.
    repeat case_decide; subst; try lia; reflexivity. }
  destruct (partitionEqual_loop_spec (b - a) l1 a b (a + 1) (b - 1))
    as (l' & mid & Heq & Hsw & H1 & H2 & HL & HR).
  { repeat split; try lia; intros; lia. }
  { lia. }
  rewrite Hp1 in HL, HR.
  exists l', mid. split; [exact Heq|].
  assert (Hpa : l' !!! a = l !!! pivot).
  { rewrite <- Hp1. apply (swaps_outside _ _ _ _ _ Hsw). lia. }
  split.
  { eapply swaps_step with (i := a) (j := pivot); [lia|lia|].
    eapply swaps_mono; [| |exact Hsw]; lia. }
  split; [lia|]. split; [lia|]. split; [exact Hpa|]. split.
  - intros k Hk1 Hk2. destruct (decide (k = a)) as [->|].
    + rewrite Hpa. apply less_irrefl.
    + apply HL; lia.
  - exact HR.
Qed.

Lemma lower_bound_swaps a b l l' :
  b ≤ length l → swaps_in a b l l' → lower_bound less a b l → lower_bound less a b l'.
Proof.
  intros Hb Hsw HLB Ha k Hk1 Hk2.
  rewrite (swaps_outside _ _ _ _ (a - 1) Hsw) by lia.
  apply (swaps_inside a b l l' (λ x, less x (l !!! (a - 1)) = false) Hsw Hb);
    [|lia].
  intros k' [? ?]. apply HLB; lia.
Qed.

Lemma reverseRange_loop_swaps n l a b i j :
  a ≤ i → j < b → swaps_in a b l (sort.reverseRange_loop n l i j).
Proof.
  revert l i j. induction n as [|n IH]; intros l i j Hi Hj; [apply swaps_refl|].
  cbn [sort.reverseRange_loop]. destruct (i <? j) eqn:Hij; [|apply swaps_refl].
  apply Nat.ltb_lt in Hij.
  eapply swaps_step with (i := i) (j := j); [lia|lia|]. apply IH; lia.
Qed.

Lemma reverseRange_func_swaps l a b :
  a < b → swaps_in a b l (sort.reverseRange_func l a b).
Proof. intros Hab. apply reverseRange_loop_swaps; lia. Qed.

Lemma shift_right_swaps n j l a b :
  a < j → j + n ≤ b → swaps_in a b l (sort.shift_right less n j l).
Proof.
  revert j l. induction n as [|n IH]; intros j l Hj Hb; [apply swaps_refl|].
  cbn [sort.shift_right].
  destruct (negb (sort.Less less l j (j - 1))); [apply swaps_refl|].
  eapply swaps_step with (i := j) (j := j - 1); [lia|lia|]. apply IH; lia.
Qed.

Lemma shift_left_insertion_shift a b j l :
  a ≤ j → j < b → b ≤ length l → lower_bound less a b l →
  sort.shift_left less j l = sort.insertion_shift less a j l.
Proof.
  revert l. induction j as [|j IH]; intros l Ha Hj Hb HLB; [reflexivity|].
  cbn [sort.shift_left sort.insertion_shift].
  destruct (a <? S j) eqn:Haj; cbn [andb].
  - apply Nat.ltb_lt in Haj.
    destruct (sort.Less less l (S j) j); cbn [negb]; [|reflexivity].
    apply IH; [lia|lia|rewrite Swap_length; lia|].
    eapply lower_bound_swaps; [exact Hb| |exact HLB]. apply swaps_one; lia.
  - apply Nat.ltb_ge in Haj. assert (a = S j) as -> by lia.
    rewrite Less_total by lia.
    specialize (HLB ltac:(lia) (S j) ltac:(lia) ltac:(lia)).
    replace (S j - 1) with j in HLB by lia. rewrite HLB. reflexivity.
Qed.

Lemma partialInsertion_loop_spec steps l a b i :
  a < i → i ≤ b → b ≤ length l → lower_bound less a b l → sorted_in less a i l →
  ∃ l' r, sort.partialInsertion_loop less steps l a b i = (l', r) ∧
    swaps_in a b l l' ∧ (r = true → sorted_in less a b l').
Proof.
  revert l i. induction steps as [|steps IH]; intros l i Hai Hib Hb HLB Hs.
  { exists l, false. split; [reflexivity|]. split; [apply swaps_refl|discriminate]. }
  cbn [sort.partialInsertion_loop].
  destruct (scan_up_spec (b - i) (λ i, negb (sort.Less less l i (i - 1))) i (b - 1))
    as (U1 & U2 & U3 & _); [lia|lia|].
  set (i' := sort.scan_up (b - i) (λ i, negb (sort.Less less l i (i - 1))) i (b - 1)) in *.
  assert (Hs' : sorted_in less a i' l).
  { apply sorted_in_adjacent; try assumption. intros q Hq1 Hq2.
    destruct (decide (q < i)) as [Hqi|Hqi]; [apply Hs; lia|].
    specialize (U3 q ltac:(lia) ltac:(lia)). cbv beta in U3.
    rewrite Less_total in U3 by lia. apply negb_true_iff in U3. exact U3. }
  destruct (i' =? b) eqn:Heq.
  { apply Nat.eqb_eq in Heq. exists l, true. split; [reflexivity|].
    split; [apply swaps_refl|]. intros _. rewrite <- Heq. exact Hs'. }
  apply Nat.eqb_neq in Heq.
  destruct (b - a <? sort.shortestShifting).
  { exists l, false. split; [reflexivity|]. split; [apply swaps_refl|discriminate]. }
  set (l1 := sort.Swap l i' (i' - 1)).
  assert (Hsw1 : swaps_in a b l l1) by (apply swaps_one; lia).
  assert (Hlen1 : length l1 = length l) by apply Swap_length.
  set (l2 := if 2 <=? i' - a then sort.shift_left less (i' - 1) l1 else l1).
  assert (H2 : swaps_in a i' l1 l2 ∧ sorted_in less a i' l2).
  { unfold l2. destruct (2 <=? i' - a) eqn:H2a.
    - apply Nat.leb_le in H2a.
      rewrite (shift_left_insertion_shift a b); [|lia|lia|lia|].
      2:{ eapply lower_bound_swaps; [exact Hb|exact Hsw1|exact HLB]. }
      replace i' with (S (i' - 1)) at 1 3 by lia.
      apply insertion_shift_spec; try assumption; try lia.
      split; [|intros; lia].
      intros p q Hp Hpq Hq Hp' Hq'. unfold l1.
      rewrite !Swap_lookup_total by lia.
      repeat case_decide; try lia. apply Hs'; lia.
    - apply Nat.leb_gt in H2a. split; [apply swaps_refl|].
      intros p q; lia. }
  destruct H2 as [Hsw2 Hs2].
  assert (Hlen2 : length l2 = length l).
  { rewrite (swaps_length _ _ _ _ Hsw2). exact Hlen1. }
  set (l3 := if 2 <=? b - i' then sort.shift_right less (b - (i' + 1)) (i' + 1) l2 else l2).
  assert (Hsw3 : swaps_in i' b l2 l3).
  { unfold l3. destruct (2 <=? b - i') eqn:H2b; [|apply swaps_refl].
    apply Nat.leb_le in H2b. apply shift_right_swaps; lia. }
  assert (Hsw : swaps_in a b l l3).
  { eapply swaps_trans; [exact Hsw1|]. eapply swaps_trans.
    - eapply swaps_mono; [| |exact Hsw2]; lia.
    - eapply swaps_mono; [| |exact Hsw3]; lia. }
  destruct (IH l3 i') as (l' & r & Heq' & Hsw' & Hr); try lia.
  - rewrite (swaps_length _ _ _ _ Hsw). exact Hb.
  - eapply lower_bound_swaps; [exact Hb|exact Hsw|exact HLB].
  - eapply sorted_in_swaps_outside; [exact Hsw3|lia|exact Hs2].
  - exists l', r. split; [exact Heq'|]. split; [|exact Hr].
    eapply swaps_trans; [exact Hsw|exact Hsw'].
Qed.

Lemma partialInsertionSort_func_spec l a b :
  a < b → b ≤ length l → lower_bound less a b l →
  ∃ l' r, sort.partialInsertionSort_func less l a b = (l', r) ∧
    swaps_in a b l l' ∧ (r = true → sorted_in less a b l').
Proof.
  intros Hab Hb HLB. apply partialInsertion_loop_spec; try assumption; try lia.
  intros p q; lia.
Qed.

(** breakPatterns *)
Lemma nextPowerOfTwo_bound n :
  0 < n → (2 ^ N.of_nat (bits.Len n) ≤ 2 * N.of_nat n)%N.
Proof.
  intros Hn. unfold bits.Len.
  destruct n as [|n]; [lia|].
  rewrite Nat2N.inj_succ, N.pow_succ_r'.
  apply N.mul_le_mono_l.
  pose proof (Nat.log2_spec (S n) ltac:(lia)) as [Hlo _].
  replace 2%N with (N.of_nat 2) by reflexivity.
  rewrite <- Nat2N.inj_pow. lia.
Qed.

Lemma breakPatterns_loop_swaps n i l random kk a b idx len :
  0 < len → a + len = b → (2 ^ kk ≤ 2 * N.of_nat len)%N →
  a ≤ idx - 1 + i → idx - 1 + i + n ≤ b →
  swaps_in a b l (sort.breakPatterns_loop n i l random (N.shiftl 1 kk) a idx len).
Proof.
  intros Hlen Hb Hmod. revert i l random.
  induction n as [|n IH]; intros i l random Hi1 Hi2; [apply swaps_refl|].
  cbn [sort.breakPatterns_loop].
  set (r := sort.xorshift_Next random).
  set (o := N.to_nat (N.land r (N.shiftl 1 kk - 1))).
  assert (Ho : o < 2 * len).
  { unfold o. rewrite N.shiftl_1_l, N.sub_1_r, <- N.ones_equiv, N.land_ones.
    assert (r mod 2 ^ kk < 2 ^ kk)%N; [|lia].
    apply N.mod_lt, N.pow_nonzero. lia. }
  eapply swaps_step; [| |apply IH; lia].
  - lia.
  - destruct (len <=? o) eqn:Hlo.
    + apply Nat.leb_le in Hlo. lia.
    + apply Nat.leb_gt in Hlo. lia.
Qed.

Lemma breakPatterns_func_swaps l a b :
  a ≤ b → swaps_in a b l (sort.breakPatterns_func l a b).
Proof.
  intros Hab. unfold sort.breakPatterns_func.
  destruct (8 <=? b - a) eqn:H8; [|apply swaps_refl].
  apply Nat.leb_le in H8. unfold sort.nextPowerOfTwo.
  pose proof (Nat.div_mod_eq (b - a) 4) as Hdm.
  pose proof (Nat.mod_upper_bound (b - a) 4 ltac:(lia)) as Hm.
  apply breakPatterns_loop_swaps with (b := b).
  - lia.
  - lia.
  - apply nextPowerOfTwo_bound. lia.
  - lia.
  - lia.
Qed.

(** choosePivot *)
Lemma order2_func_range l x y s :
  let '(x', y', _) := sort.order2_func less l x y s in
  (x' = x ∧ y' = y) ∨ (x' = y ∧ y' = x).
Proof. unfold sort.order2_func. destruct (sort.Less less l y x); auto. Qed.

Lemma median_func_range l x y z s :
  let '(m, _) := sort.median_func less l x y z s in m = x ∨ m = y ∨ m = z.
Proof.
  unfold sort.median_func.
  pose proof (order2_func_range l x y s) as H1.
  destruct (sort.order2_func less l x y s) as [[x1 y1] s1].
  pose proof (order2_func_range l y1 z s1) as H2.
  destruct (sort.order2_func less l y1 z s1) as [[y2 z2] s2].
  pose proof (order2_func_range l x1 y2 s2) as H3.
  destruct (sort.order2_func less l x1 y2 s2) as [[x3 y3] s3].
  lia.
Qed.

Lemma choosePivot_func_range l a b :
  a < b →
  let '(pivot, _) := sort.choosePivot_func less l a b in a ≤ pivot ∧ pivot < b.
Proof.
  intros Hab. unfold sort.choosePivot_func.
  pose proof (Nat.div_mod_eq (b - a) 4) as Hdm.
  pose proof (Nat.mod_upper_bound (b - a) 4 ltac:(lia)) as Hm.
  set (q := (b - a) / 4) in *.
  assert (Hout : ∀ (js : nat * nat),
    a ≤ fst js ∧ fst js < b →
    let '(pivot, _) :=
      (let '(j, swaps) := js in
       if swaps =? 0 then (j, sort.increasingHint)
       else if swaps =? sort.maxSwaps then (j, sort.decreasingHint)
       else (j, sort.unknownHint)) in a ≤ pivot ∧ pivot < b).
  { intros [j s] Hj. simpl in Hj.
    destruct (s =? 0); [exact Hj|]. destruct (s =? sort.maxSwaps); exact Hj. }
  apply Hout.
  destruct (8 <=? b - a) eqn:H8; [|simpl; lia].
  apply Nat.leb_le in H8.
  destruct (sort.shortestNinther <=? b - a) eqn:H50.
  - apply Nat.leb_le in H50. unfold sort.shortestNinther in H50.
    unfold sort.medianAdjacent_func.
    pose proof (median_func_range l (a + q * 1 - 1) (a + q * 1) (a + q * 1 + 1) 0) as M1.
    destruct (sort.median_func less l (a + q * 1 - 1) (a + q * 1) (a + q * 1 + 1) 0) as [i1 s1].
    pose proof (median_func_range l (a + q * 2 - 1) (a + q * 2) (a + q * 2 + 1) s1) as M2.
    destruct (sort.median_func less l (a + q * 2 - 1) (a + q * 2) (a + q * 2 + 1) s1) as [j1 s2].
    pose proof (median_func_range l (a + q * 3 - 1) (a + q * 3) (a + q * 3 + 1) s2) as M3.
    destruct (sort.median_func less l (a + q * 3 - 1) (a + q * 3) (a + q * 3 + 1) s2) as [k1 s3].
    pose proof (median_func_range l i1 j1 k1 s3) as M4.
    destruct (sort.median_func less l i1 j1 k1 s3) as [m s4].
    simpl. lia.
  - pose proof (median_func_range l (a + q * 1) (a + q * 2) (a + q * 3) 0) as M4.
    destruct (sort.median_func less l (a + q * 1) (a + q * 2) (a + q * 3) 0) as [m s4].
    simpl. lia.
Qed.

Lemma siftDown_loop_spec fuel l r hi first lo :
  first + hi ≤ length l → lo ≤ r → hi ≤ r + fuel →
  sift_inv less first lo hi r l →
  swaps_in first (first + hi) l (sort.siftDown_loop less fuel l r hi first) ∧
  heap_from less first lo hi (sort.siftDown_loop less fuel l r hi first).
Proof.
  revert l r. induction fuel as [|fuel IH]; intros l r Hlen Hlo Hfuel [I1 I2].
  { simpl. split; [apply swaps_refl|].
    intros p c Hp Hc Hchi. apply I1; try assumption. unfold child_of in Hc. lia. }
  cbn [sort.siftDown_loop].
  destruct (hi <=? 2 * r + 1) eqn:Hhi.
  { apply Nat.leb_le in Hhi. split; [apply swaps_refl|].
    intros p c Hp Hc Hchi. apply I1; try assumption. unfold child_of in Hc. lia. }
  apply Nat.leb_gt in Hhi.
  set (c1 := 2 * r + 1) in *.
  set (cs := if (c1 + 1 <? hi) && sort.Less less l (first + c1) (first + c1 + 1)
             then c1 + 1 else c1).
  assert (Hcs : child_of r cs ∧ cs < hi ∧
            ∀ c, child_of r c → c < hi → less (l !!! (first + cs)) (l !!! (first + c)) = false).
  { unfold cs. destruct (c1 + 1 <? hi) eqn:H2; cbn [andb].
    - apply Nat.ltb_lt in H2. rewrite Less_total by lia.
      destruct (less (l !!! (first + c1)) (l !!! (first + c1 + 1))) eqn:Hl.
      + split; [right; lia|]. split; [lia|].
        intros c [->| ->] Hc.
        * fold c1. replace (first + (c1 + 1)) with (first + c1 + 1) by lia.
          apply less_asym; assumption.
        * replace (2 * r + 2) with (c1 + 1) by lia. apply less_irrefl.
      + split; [left; reflexivity|]. split; [lia|].
        intros c [->| ->] Hc.
        * fold c1. apply less_irrefl.
        * replace (first + (2 * r + 2)) with (first + c1 + 1) by lia. exact Hl.
    - apply Nat.ltb_ge in H2. split; [left; reflexivity|]. split; [lia|].
      intros c [->| ->] Hc; [apply less_irrefl|lia]. }
  destruct Hcs as (Hch & Hcshi & Hmax).
  rewrite Less_total by lia.
  destruct (less (l !!! (first + r)) (l !!! (first + cs))) eqn:Hlt; cbn [negb].
  - (* swap and continue *)
    assert (Hr_cs : r < cs) by (unfold child_of in Hch; lia).
    destruct (IH (sort.Swap l (first + r) (first + cs)) cs) as [Hsw Hheap].
    + rewrite Swap_length. exact Hlen.
    + lia.
    + lia.
    + split.
      * intros p c Hp Hpcs Hc Hchi. unfold dom.
        destruct (decide (p = r)) as [->|Hpr].
        -- rewrite Swap_lookup_l by lia.
           destruct (decide (c = cs)) as [->|Hccs].
           ++ rewrite Swap_lookup_r by lia. apply less_asym; assumption.
           ++ rewrite Swap_lookup_ne by (unfold child_of in *; lia).
              apply Hmax; assumption.
        -- rewrite (Swap_lookup_ne _ _ _ (first + p)) by lia.
           destruct (decide (c = r)) as [->|Hcr].
           ++ rewrite Swap_lookup_l by lia. apply (I2 p cs); assumption.
           ++ rewrite Swap_lookup_ne by (unfold child_of in *; lia).
              apply I1; assumption.
      * intros g c Hg Hgcs Hc Hchi. unfold dom.
        assert (g = r) as -> by (unfold child_of in *; lia).
        rewrite Swap_lookup_l by lia.
        rewrite Swap_lookup_ne by (unfold child_of in *; lia).
        apply (I1 cs c); try assumption; lia.
    + split; [|exact Hheap].
      eapply swaps_step with (i := first + r) (j := first + cs); [lia|lia|exact Hsw].
  - split; [apply swaps_refl|].
    intros p c Hp Hc Hchi.
    destruct (decide (p = r)) as [->|Hpr]; [|apply I1; assumption].
    unfold dom. eapply less_ntrans; [apply Hmax; eassumption|exact Hlt].
Qed.

Lemma siftDown_func_spec l lo hi first :
  first + hi ≤ length l →
  heap_from less first (S lo) hi l →
  swaps_in first (first + hi) l (sort.siftDown_func less l lo hi first) ∧
  heap_from less first lo hi (sort.siftDown_func less l lo hi first).
Proof.
  intros Hlen Hheap. apply siftDown_loop_spec; try lia.
  split.
  - intros p c Hp Hne Hc Hchi. apply Hheap; try assumption. lia.
  - intros g c Hg Hgr Hc Hchi. unfold child_of in Hgr. lia.
Qed.

Lemma heapify_loop_spec n l hi first :
  first + hi ≤ length l → heap_from less first n hi l →
  swaps_in first (first + hi) l (sort.heapify_loop less n l hi first) ∧
  heap_from less first 0 hi (sort.heapify_loop less n l hi first).
Proof.
  revert l. induction n as [|n IH]; intros l Hlen Hheap.
  { simpl. split; [apply swaps_refl|exact Hheap]. }
  cbn [sort.heapify_loop].
  destruct (siftDown_func_spec l n hi first Hlen Hheap) as [Hsw1 Hh1].
  destruct (IH (sort.siftDown_func less l n hi first)) as [Hsw2 Hh2].
  - rewrite (swaps_length _ _ _ _ Hsw1). exact Hlen.
  - exact Hh1.
  - split; [|exact Hh2]. eapply swaps_trans; eassumption.
Qed.

Lemma heap_root_max first hi l :
  heap_from less first 0 hi l →
  ∀ c, c < hi → less (l !!! (first + 0)) (l !!! (first + c)) = false.
Proof.
  intros Hheap c. induction (lt_wf c) as [c _ IH]. intros Hc.
  destruct (decide (c = 0)) as [->|Hc0]; [apply less_irrefl|].
  pose proof (Nat.div_mod_eq (c - 1) 2) as Hdm.
  pose proof (Nat.mod_upper_bound (c - 1) 2 ltac:(lia)) as Hm.
  set (p := (c - 1) / 2) in *.
  assert (Hch : child_of p c) by (unfold child_of; lia).
  eapply less_ntrans; [apply (Hheap p c); [lia|exact Hch|exact Hc]|].
  apply IH; unfold child_of in Hch; lia.
Qed.

Lemma heappop_loop_spec n l hi first :
  n ≤ hi → first + hi ≤ length l → pop_inv less first n hi l →
  swaps_in first (first + hi) l (sort.heappop_loop less n l 0 first) ∧
  sorted_in less first (first + hi) (sort.heappop_loop less n l 0 first).
Proof.
  revert l. induction n as [|n IH]; intros l Hn Hlen (Hheap & Hsorted & Habove).
  { simpl. split; [apply swaps_refl|].
    replace (first + 0) with first in Hsorted by lia. exact Hsorted. }
  cbn [sort.heappop_loop].
  set (l1 := sort.Swap l first (first + n)).
  assert (Hlen1 : length l1 = length l) by apply Swap_length.
  pose proof (heap_root_max first (S n) l Hheap) as Hmax.
  replace (first + 0) with first in Hmax by lia.
  assert (Hl1 : ∀ k, l1 !!! (first + k) =
            if decide (k = n) then l !!! first
            else if decide (k = 0) then l !!! (first + n) else l !!! (first + k)).
  { intros k. unfold l1. rewrite Swap_lookup_total by lia.
    repeat case_decide; try lia; try reflexivity; f_equal; lia. }
  assert (Hh1 : heap_from less first 1 n l1).
  { intros p c Hp Hc Hchi. unfold dom. rewrite !Hl1.
    unfold child_of in Hc. repeat case_decide; try lia.
    apply Hheap; [lia|exact Hc|lia]. }
  destruct (siftDown_func_spec l1 0 n first ltac:(lia) Hh1) as [Hsw2 Hh2].
  set (l2 := sort.siftDown_func less l1 0 n first) in *.
  assert (Hsw1 : swaps_in first (first + hi) l l1).
  { destruct (decide (n = 0)) as [->|]; [|apply swaps_one; lia].
    apply swaps_one; lia. }
  assert (Hsw : swaps_in first (first + hi) l l2).
  { eapply swaps_trans; [exact Hsw1|]. eapply swaps_mono; [| |exact Hsw2]; lia. }
  destruct (IH l2) as [Hsw3 Hs3].
  - lia.
  - rewrite (swaps_length _ _ _ _ Hsw). exact Hlen.
  - split; [exact Hh2|]. split.
    + intros p q Hp Hpq Hq.
      rewrite !(swaps_outside _ _ _ _ _ Hsw2) by lia.
      assert (∃ p', p = first + p') as [p' ->] by (exists (p - first); lia).
      assert (∃ q', q = first + q') as [q' ->] by (exists (q - first); lia).
      rewrite !Hl1. repeat case_decide; try lia.
      * pose proof (Habove 0 q' ltac:(lia) ltac:(lia) ltac:(lia)) as Hx.
        rewrite Nat.add_0_r in Hx. exact Hx.
      * apply Hsorted; lia.
    + intros p q Hp Hq1 Hq2.
      rewrite (swaps_outside _ _ _ _ (first + q) Hsw2) by lia.
      assert (HP : ∀ k, first ≤ k < first + n →
                (λ x, less (l1 !!! (first + q)) x = false) (l2 !!! k)).
      { apply (swaps_inside first (first + n) l1 l2
                 (λ x, less (l1 !!! (first + q)) x = false) Hsw2); [lia|].
        intros k Hk. cbv beta.
        assert (∃ k', k = first + k') as [k' ->] by (exists (k - first); lia).
        rewrite !Hl1. repeat case_decide; try lia;
          try apply less_irrefl; try (apply Hmax; lia); try (apply Habove; lia).
        all: pose proof (Habove 0 q ltac:(lia) ltac:(lia) ltac:(lia)) as Hx;
          rewrite Nat.add_0_r in Hx; exact Hx. }
      apply HP. lia.
  - split; [|exact Hs3]. eapply swaps_trans; eassumption.
Qed.

Lemma heapSort_func_spec l a b :
  a ≤ b → b ≤ length l →
  swaps_in a b l (sort.heapSort_func less l a b) ∧
  sorted_in less a b (sort.heapSort_func less l a b).
Proof.
  intros Hab Hb. unfold sort.heapSort_func.
  set (hi := b - a).
  assert (Hhi : a + hi = b) by lia.
  destruct (heapify_loop_spec (S ((hi - 1) / 2)) l hi a) as [Hsw1 Hh1]; [lia| |].
  { intros p c Hp Hc Hchi. unfold child_of in Hc.
    pose proof (Nat.div_mod_eq (hi - 1) 2) as Hdm.
    pose proof (Nat.mod_upper_bound (hi - 1) 2 ltac:(lia)) as Hm. lia. }
  set (l1 := sort.heapify_loop less (S ((hi - 1) / 2)) l hi a) in *.
  destruct (heappop_loop_spec hi l1 hi a) as [Hsw2 Hs2]; [lia| |..].
  - rewrite (swaps_length _ _ _ _ Hsw1). lia.
  - split; [exact Hh1|]. split; [intros p q; lia|intros p q; lia].
  - rewrite Hhi in *. split; [|exact Hs2]. eapply swaps_trans; eassumption.
Qed.

Lemma sorted_in_join a mid b l :
  sorted_in less a mid l → sorted_in less (mid + 1) b l →
  (∀ k, a ≤ k → k < mid → less (l !!! k) (l !!! mid) = true) →
  (∀ k, mid < k → k < b → less (l !!! k) (l !!! mid) = false) →
  sorted_in less a b l.
Proof.
  intros HL HR Hlo Hhi p q Hp Hpq Hq.
  destruct (decide (q < mid)) as [Hqm|Hqm]; [apply HL; lia|].
  destruct (decide (mid < p)) as [Hmp|Hmp]; [apply HR; lia|].
  destruct (decide (q = mid)) as [->|Hqe].
  { apply less_asym. apply Hlo; lia. }
  destruct (decide (p = mid)) as [->|Hpe]; [apply Hhi; lia|].
  (* p < mid < q *)
  destruct (less (l !!! q) (l !!! p)) eqn:E; [|reflexivity].
  rewrite <- (Hhi q) by lia. symmetry.
  eapply less_trans; [exact E|]. apply Hlo; lia.
Qed.

Lemma sorted_in_join_equal a mid b l x :
  sorted_in less mid b l →
  (∀ k, a ≤ k → k < mid → less x (l !!! k) = false) →
  (∀ k, a ≤ k → k < mid → less (l !!! k) x = false) →
  (∀ k, mid ≤ k → k < b → less x (l !!! k) = true) →
  sorted_in less a b l.
Proof.
  intros HR H1 H2 H3 p q Hp Hpq Hq.
  destruct (decide (mid ≤ p)) as [Hmp|Hmp]; [apply HR; lia|].
  destruct (decide (q < mid)) as [Hqm|Hqm].
  - eapply less_ntrans; [apply (H1 p); lia|apply (H2 q); lia].
  - destruct (less (l !!! q) (l !!! p)) eqn:E; [|reflexivity].
    rewrite <- (H1 p) by lia. symmetry.
    eapply less_trans; [|exact E]. apply H3; lia.
Qed.

Lemma pdqsort_loop_spec fuel l a b limit wb wp :
  a ≤ b → b ≤ length l → b - a < fuel → lower_bound less a b l →
  ∃ l', sort.pdqsort_loop less fuel l a b limit wb wp = Some l' ∧
        swaps_in a b l l' ∧ sorted_in less a b l'.
Proof.
  revert l a b limit wb wp.
  induction fuel as [|fuel IH]; intros l a b limit wb wp Hab Hb Hfuel HLB; [lia|].
  cbn [sort.pdqsort_loop].
  destruct (b - a <=? sort.maxInsertion) eqn:Hins.
  { eexists. split; [reflexivity|]. apply insertionSort_func_spec; assumption. }
  apply Nat.leb_gt in Hins. unfold sort.maxInsertion in Hins.
  destruct (limit =? 0) eqn:Hlim.
  { eexists. split; [reflexivity|]. apply heapSort_func_spec; assumption. }
  (* breakPatterns *)
  set (st1 := if negb wb then (sort.breakPatterns_func l a b, limit - 1)
              else (l, limit)).
  assert (Hst1 : swaps_in a b l (fst st1)).
  { unfold st1. destruct (negb wb); [apply breakPatterns_func_swaps; lia|apply swaps_refl]. }
  destruct st1 as [l1 limit1]. cbn [fst] in Hst1.
  assert (Hlen1 : length l1 = length l) by apply (swaps_length _ _ _ _ Hst1).
  (* choosePivot *)
  pose proof (choosePivot_func_range l1 a b ltac:(lia)) as Hpiv.
  destruct (sort.choosePivot_func less l1 a b) as [pivot hint].
  (* reverseRange *)
  set (st2 := if sort.is_decreasingHint hint
              then (sort.reverseRange_func l1 a b, b - 1 - (pivot - a), sort.increasingHint)
              else (l1, pivot, hint)).
  assert (Hst2 : swaps_in a b l1 (fst (fst st2)) ∧
                 a ≤ snd (fst st2) ∧ snd (fst st2) < b).
  { unfold st2. destruct (sort.is_decreasingHint hint); cbn [fst snd].
    - split; [apply reverseRange_func_swaps; lia|lia].
    - split; [apply swaps_refl|lia]. }
  destruct st2 as [[l2 pivot2] hint2]. cbn [fst snd] in Hst2.
  destruct Hst2 as (Hsw2 & Hp2a & Hp2b).
  assert (Hsw12 : swaps_in a b l l2) by (eapply swaps_trans; eassumption).
  assert (Hlen2 : length l2 = length l) by apply (swaps_length _ _ _ _ Hsw12).
  (* partialInsertionSort *)
  set (st3 := if wb && wp && sort.is_increasingHint hint2
              then sort.partialInsertionSort_func less l2 a b
              else (l2, false)).
  assert (Hst3 : swaps_in a b l2 (fst st3) ∧
                 (snd st3 = true → sorted_in less a b (fst st3))).
  { unfold st3. destruct (wb && wp && sort.is_increasingHint hint2).
    - destruct (partialInsertionSort_func_spec l2 a b)
        as (l3 & r & -> & Hsw3 & Hr); [lia|lia| |split; assumption].
      eapply lower_bound_swaps; [exact Hb|exact Hsw12|exact HLB].
    - split; [apply swaps_refl|discriminate]. }
  destruct st3 as [l3 sorted]. cbn [fst snd] in Hst3.
  destruct Hst3 as (Hsw3 & Hsorted).
  assert (Hsw13 : swaps_in a b l l3) by (eapply swaps_trans; eassumption).
  assert (Hlen3 : length l3 = length l) by apply (swaps_length _ _ _ _ Hsw13).
  assert (HLB3 : lower_bound less a b l3).
  { eapply lower_bound_swaps; [exact Hb|exact Hsw13|exact HLB]. }
  destruct sorted.
  { exists l3. split; [reflexivity|]. split; [exact Hsw13|apply Hsorted; reflexivity]. }
  clear Hsorted.
  destruct ((0 <? a) && negb (sort.Less less l3 (a - 1) pivot2)) eqn:Heq.
  - (* partitionEqual *)
    apply andb_true_iff in Heq as [Ha0 Hnl]. apply Nat.ltb_lt in Ha0.
    rewrite Less_total in Hnl by lia. apply negb_true_iff in Hnl.
    set (x := l3 !!! pivot2) in *.
    destruct (partitionEqual_func_spec l3 a b pivot2)
      as (l4 & mid & -> & Hsw4 & Hm1 & Hm2 & Hpa & HL & HR); [lia..|].
    fold x in Hpa, HL, HR.
    assert (Hlen4 : length l4 = length l).
    { rewrite (swaps_length _ _ _ _ Hsw4). exact Hlen3. }
    assert (Hge : ∀ k, a ≤ k → k < b → less (l4 !!! k) x = false).
    { intros k Hk1 Hk2.
      apply (swaps_inside a b l3 l4 (λ y, less y x = false) Hsw4); [lia| |lia].
      intros k' [Hk1' Hk2']. cbv beta.
      eapply less_ntrans; [exact Hnl|]. apply HLB3; lia. }
    destruct (IH l4 mid b limit1 wb wp) as (l5 & Heq5 & Hsw5 & Hs5); [lia|lia|lia| |].
    { intros _ k Hk1 Hk2.
      destruct (less (l4 !!! k) (l4 !!! (mid - 1))) eqn:E; [|reflexivity].
      rewrite <- (HL (mid - 1)) by lia. symmetry.
      eapply less_trans; [|exact E]. apply HR; lia. }
    exists l5. split; [exact Heq5|]. split.
    { eapply swaps_trans; [exact Hsw13|]. eapply swaps_trans; [exact Hsw4|].
      eapply swaps_mono; [| |exact Hsw5]; lia. }
    apply (sorted_in_join_equal a mid b l5 x).
    + exact Hs5.
    + intros k Hk1 Hk2. rewrite (swaps_outside _ _ _ _ k Hsw5) by lia. apply HL; lia.
    + intros k Hk1 Hk2. rewrite (swaps_outside _ _ _ _ k Hsw5) by lia. apply Hge; lia.
    + intros k Hk1 Hk2.
      apply (swaps_inside mid b l4 l5 (λ y, less x y = true) Hsw5); [lia| |lia].
      intros k' [Hk1' Hk2']. apply HR; lia.
  - (* partition *)
    clear Heq.
    destruct (partition_func_spec l3 a b pivot2)
      as (l4 & mid & ap & -> & Hsw4 & Hm1 & Hm2 & HL & HR); [lia..|].
    assert (Hlen4 : length l4 = length l).
    { rewrite (swaps_length _ _ _ _ Hsw4). exact Hlen3. }
    assert (HLB4 : lower_bound less a b l4).
    { eapply lower_bound_swaps; [|exact Hsw4|exact HLB3]. lia. }
    set (x := l4 !!! mid) in *.
    assert (Hfin : ∀ l6, swaps_in a b l4 l6 → l6 !!! mid = x →
              sorted_in less a mid l6 → sorted_in less (mid + 1) b l6 →
              (∀ k, a ≤ k → k < mid → less (l6 !!! k) x = true) →
              (∀ k, mid < k → k < b → less (l6 !!! k) x = false) →
              swaps_in a b l l6 ∧ sorted_in less a b l6).
    { intros l6 Hsw6 Hx6 Hs1 Hs2 H1 H2. split.
      - eapply swaps_trans; [exact Hsw13|]. eapply swaps_trans; eassumption.
      - apply (sorted_in_join a mid b); try assumption; rewrite Hx6; assumption. }
    destruct (mid - a <? b - mid).
    + destruct (IH l4 a mid limit1 true true) as (l5 & -> & Hsw5 & Hs5); [lia|lia|lia| |].
      { intros Ha0 k Hk1 Hk2. apply HLB4; lia. }
      assert (Hlen5 : length l5 = length l).
      { rewrite (swaps_length _ _ _ _ Hsw5). exact Hlen4. }
      destruct (IH l5 (mid + 1) b limit1 ((b - a)/8 <=? mid - a) ap)
        as (l6 & Heq6 & Hsw6 & Hs6); [lia|lia|lia| |].
      { intros _ k Hk1 Hk2. replace (mid + 1 - 1) with mid by lia.
        rewrite !(swaps_outside _ _ _ _ _ Hsw5) by lia. apply HR; lia. }
      exists l6. split; [exact Heq6|]. apply Hfin.
      * eapply swaps_trans; [eapply swaps_mono; [| |exact Hsw5]; lia|].
        eapply swaps_mono; [| |exact Hsw6]; lia.
      * rewrite (swaps_outside _ _ _ _ _ Hsw6) by lia.
        rewrite (swaps_outside _ _ _ _ _ Hsw5) by lia. reflexivity.
      * eapply sorted_in_swaps_outside; [exact Hsw6|lia|exact Hs5].
      * exact Hs6.
      * intros k Hk1 Hk2. rewrite (swaps_outside _ _ _ _ _ Hsw6) by lia.
        apply (swaps_inside a mid l4 l5 (λ y, less y x = true) Hsw5); [lia| |lia].
        intros k' [? ?]. apply HL; lia.
      * intros k Hk1 Hk2.
        apply (swaps_inside (mid + 1) b l5 l6 (λ y, less y x = false) Hsw6); [lia| |lia].
        intros k' [? ?]. rewrite (swaps_outside _ _ _ _ _ Hsw5) by lia. apply HR; lia.
    + destruct (IH l4 (mid + 1) b limit1 true true) as (l5 & -> & Hsw5 & Hs5); [lia|lia|lia| |].
      { intros _ k Hk1 Hk2. replace (mid + 1 - 1) with mid by lia. apply HR; lia. }
      assert (Hlen5 : length l5 = length l).
      { rewrite (swaps_length _ _ _ _ Hsw5). exact Hlen4. }
      destruct (IH l5 a mid limit1 ((b - a)/8 <=? b - mid) ap)
        as (l6 & Heq6 & Hsw6 & Hs6); [lia|lia|lia| |].
      { intros Ha0 k Hk1 Hk2.
        rewrite !(swaps_outside _ _ _ _ _ Hsw5) by lia. apply HLB4; lia. }
      exists l6. split; [exact Heq6|]. apply Hfin.
      * eapply swaps_trans; [eapply swaps_mono; [| |exact Hsw5]; lia|].
        eapply swaps_mono; [| |exact Hsw6]; lia.
      * rewrite (swaps_outside _ _ _ _ _ Hsw6) by lia.
        rewrite (swaps_outside _ _ _ _ _ Hsw5) by lia. reflexivity.
      * exact Hs6.
      * eapply sorted_in_swaps_outside; [exact Hsw6|lia|exact Hs5].
      * intros k Hk1 Hk2.
        apply (swaps_inside a mid l5 l6 (λ y, less y x = true) Hsw6); [lia| |lia].
        intros k' [? ?]. rewrite (swaps_outside _ _ _ _ _ Hsw5) by lia. apply HL; lia.
      * intros k Hk1 Hk2. rewrite (swaps_outside _ _ _ _ _ Hsw6) by lia.
        apply (swaps_inside (mid + 1) b l4 l5 (λ y, less y x = false) Hsw5); [lia| |lia].
        intros k' [? ?]. apply HR; lia.
Qed.

End sort_correct.

Section sort_Slice.
Context {A : Type} (less : A → A → bool).
Hypothesis less_irrefl : ∀ x, less x x = false.
Hypothesis less_trans :
  ∀ x y z, less x y = true → less y z = true → less x z = true.
Hypothesis less_ntrans :
  ∀ x y z, less y x = false → less z y = false → less z x = false.

Lemma sorted_in_StronglySorted `{!Inhabited A} (l : list A) :
  sorted_in less 0 (length l) l → StronglySorted (not_after less) l.
Proof.
  induction l as [|x l IH]; intros Hs; constructor; unfold sorted_in in *.
  - apply IH. intros p q Hp Hpq Hq.
    apply (Hs (S p) (S q)); simpl; lia.
  - apply (Forall_lookup_total_2 (not_after less x) l). intros i Hi.
    apply (Hs 0 (S i)); simpl; lia.
Qed.

Lemma pdqsort_func_spec (x : list A) (limit : nat) :
  ∃ data, sort.pdqsort_func less (S (length x)) x 0 (length x) limit = Some data ∧
          data ≡ₚ x ∧ StronglySorted (not_after less) data.
Proof.
  destruct x as [|x0 x'] eqn:Ex.
  { exists []. split; [reflexivity|]. split; [reflexivity|constructor]. }
  rewrite <- Ex. clear Ex x'.
  pose (populate x0 : Inhabited A) as HA.
  destruct (pdqsort_loop_spec less less_irrefl less_trans less_ntrans
              (S (length x)) x 0 (length x) limit true true)
    as (data & Heq & Hsw & Hs); [lia|lia|lia|intros ?; lia|].
  exists data. split; [exact Heq|]. split.
  - eapply swaps_Permutation. exact Hsw.
  - apply sorted_in_StronglySorted.
    rewrite (swaps_length _ _ _ _ Hsw). exact Hs.
Qed.

Lemma Slice_Permutation (x : list A) : sort.Slice less x ≡ₚ x.
Proof.
  unfold sort.Slice.
  destruct (pdqsort_func_spec x (bits.Len (length x))) as (data & -> & Hp & _).
  exact Hp.
Qed.

Lemma Slice_StronglySorted (x : list A) :
  StronglySorted (not_after less) (sort.Slice less x).
Proof.
  unfold sort.Slice.
  destruct (pdqsort_func_spec x (bits.Len (length x))) as (data & -> & _ & Hs).
  exact Hs.
Qed.

End sort_Slice.

(** ** The reference implementation of [strconv] meets the contract *)

Lemma to_int_not_nil (z : Z) : Z.to_int z ≠ Pos Nil ∧ Z.to_int z ≠ Neg Nil.
Proof.
  destruct z as [|p|p]; simpl; split; try discriminate;
    intros [= Hp]; revert Hp; apply DecimalPos.Unsigned.to_uint_nonnil.
Qed.

Lemma refconv_ParseFloat_FormatFloat (v : refconv.float64) :
  refconv.ParseFloat (refconv.FormatFloat v) = (v, None).
Proof.
  destruct v as [z Hz|[]|]; try reflexivity.
  unfold refconv.ParseFloat, refconv.FormatFloat.
  destruct (to_int_not_nil z) as [Hp Hn].
  rewrite NilZero.isi by assumption.
  cbv zeta. rewrite DecimalZ.of_to.
  destruct (decide (refconv.in_range z = true)) as [Hz'|Hz']; [|contradiction].
  f_equal. f_equal. apply proof_irrel.
Qed.

Lemma contains_byte_String (c x : ascii) (s : string) :
  contains_byte c (String x s) = true ↔ x = c ∨ contains_byte c s = true.
Proof.
  cbn [contains_byte]. rewrite orb_true_iff, Ascii.eqb_eq. reflexivity.
Qed.

Ltac float_bytes Hc :=
  repeat (apply contains_byte_String in Hc as [<-|Hc]; [reflexivity|]);
  try discriminate Hc.

Lemma string_of_uint_bytes (d : uint) (c : ascii) :
  contains_byte c (NilEmpty.string_of_uint d) = true →
  strconv.float_byte c = true.
Proof.
  induction d; cbn [NilEmpty.string_of_uint]; intros Hc;
    try discriminate Hc;
    (apply contains_byte_String in Hc as [<-|Hc]; [reflexivity|auto]).
Qed.

Lemma refconv_FormatFloat_bytes (v : refconv.float64) (c : ascii) :
  contains_byte c (refconv.FormatFloat v) = true → strconv.float_byte c = true.
Proof.
  destruct v as [z Hz|[]|]; cbn [refconv.FormatFloat]; intros Hc;
    [|float_bytes Hc..].
  unfold NilZero.string_of_int, NilZero.string_of_uint in Hc.
  destruct (Z.to_int z) as [d|d].
  - destruct d; try (eapply string_of_uint_bytes; eassumption).
    float_bytes Hc.
  - apply contains_byte_String in Hc as [<-|Hc]; [reflexivity|].
    destruct d; try (eapply string_of_uint_bytes; eassumption).
    float_bytes Hc.
Qed.

Lemma refconv_ParseFloat_ErrSyntax (s : string) (v : refconv.float64) :
  refconv.ParseFloat s = (v, Some strconv.ErrSyntax) → v = refconv.zero.
Proof.
  unfold refconv.ParseFloat.
  destruct (NilZero.int_of_string s) as [d|].
  - cbv zeta. destruct (decide _); intros [= <-] || intros [=].
  - repeat (match goal with |- context [if ?b then _ else _] => destruct b end);
      intros [=]; congruence.
Qed.

#[export] Instance refconv_Float64Laws : strconv.Float64Laws refconv.Float64.
Proof.
  split.
  - exact refconv_ParseFloat_FormatFloat.
  - exact refconv_FormatFloat_bytes.
  - exact refconv_ParseFloat_ErrSyntax.
Qed.

#[export] Instance refconv_Float64RangeLaws :
  strconv.Float64RangeLaws refconv.Float64.
Proof.
  split; [|reflexivity].
  intros s v. change (refconv.ParseFloat s = (v, Some strconv.ErrRange) →
    refconv.FormatFloat v = "+Inf" ∨ refconv.FormatFloat v = "-Inf").
  unfold refconv.ParseFloat.
  destruct (NilZero.int_of_string s) as [d|].
  - cbv zeta. destruct (decide _); [discriminate|]. intros [= <-].
    destruct (Z.of_int d <? 0)%Z; [right|left]; reflexivity.
  - repeat (match goal with |- context [if ?b then _ else _] => destruct b end);
      discriminate.
Qed.

(** ** bufio.Scanner *)

Lemma dropCR_id (s : string) : last_byte s ≠ Some byte_CR → bufio.dropCR s = s.
Proof.
  unfold bufio.dropCR. destruct (last_byte s) as [c|]; [|reflexivity].
  intros Hc. destruct (Ascii.eqb c byte_CR) eqn:E; [|reflexivity].
  apply Ascii.eqb_eq in E. congruence.
Qed.

Lemma scan_from_line (tok ln rest : string) :
  contains_byte byte_LF ln = false →
  String.length (tok +:+ ln) < bufio.MaxScanTokenSize →
  bufio.scan_from tok (ln +:+ String byte_LF rest) =
    (bufio.dropCR (tok +:+ ln) :: fst (bufio.scan_from "" rest),
     snd (bufio.scan_from "" rest)).
Proof.
  revert tok. induction ln as [|c ln IH]; intros tok Hlf Hlen.
  - rewrite append_nil_l, append_nil_r. cbn [bufio.scan_from].
    rewrite Ascii.eqb_refl. destruct (bufio.scan_from "" rest); reflexivity.
  - cbn [contains_byte] in Hlf. apply orb_false_iff in Hlf as [Hc Hlf].
    rewrite append_cons. cbn [bufio.scan_from]. rewrite Hc.
    rewrite length_append in Hlen. cbn [String.length] in Hlen.
    destruct (bufio.MaxScanTokenSize <=? S (String.length tok)) eqn:E.
    { apply Nat.leb_le in E. lia. }
    rewrite IH; [|exact Hlf|].
    + rewrite append_assoc. reflexivity.
    + rewrite append_assoc, length_append, append_cons, append_nil_l.
      cbn [String.length]. lia.
Qed.

Lemma scan_from_file_lines (lines : list string) :
  Forall line_ok lines →
  bufio.scan_from "" (file_lines lines) = (lines, false).
Proof.
  induction 1 as [|ln lines (Hlf & Hcr & Hlen) _ IH]; [reflexivity|].
  cbn [file_lines]. rewrite scan_from_line; [|exact Hlf|rewrite append_nil_l; exact Hlen].
  rewrite IH, append_nil_l, dropCR_id by exact Hcr. reflexivity.
Qed.

Section codec.
Context {T : strconv.Float64Type} {F : strconv.Float64}
  {Laws : strconv.Float64Laws F}.

Lemma FormatFloat_no_byte (v : strconv.float64) (c : ascii) :
  strconv.float_byte c = false →
  contains_byte c (strconv.FormatFloat v) = false.
Proof.
  intros Hc. destruct (contains_byte c (strconv.FormatFloat v)) eqn:E; [|reflexivity].
  rewrite (strconv.FormatFloat_bytes v c E) in Hc. discriminate.
Qed.

Lemma encode_unfold (r : Reading) :
  encode r = Timestamp r +:+ String byte_space (strconv.FormatFloat (Value r)).
Proof. reflexivity. Qed.

Lemma decode_encode (r : Reading) :
  contains_byte byte_space (Timestamp r) = false →
  decode (encode r) = Returns r.
Proof.
  intros Hsp. unfold decode. rewrite encode_unfold, Split_append by exact Hsp.
  rewrite Split_no_sep by (apply FormatFloat_no_byte; reflexivity).
  cbn [lookup list_lookup]. rewrite strconv.ParseFloat_FormatFloat.
  destruct r; reflexivity.
Qed.

Lemma reading_ok_intro (r : Reading) :
  contains_byte byte_space (Timestamp r) = false →
  contains_byte byte_LF (Timestamp r) = false →
  (String.length (encode r) <? bufio.MaxScanTokenSize) = true →
  reading_ok r.
Proof.
  intros H1 H2 H3. split; [exact H1|split; [exact H2|apply Nat.ltb_lt, H3]].
Qed.

Lemma encode_line_ok (r : Reading) : reading_ok r → line_ok (encode r).
Proof.
  intros (Hsp & Hlf & Hlen). split; [|split; [|exact Hlen]].
  - rewrite encode_unfold, contains_byte_append, Hlf. cbn [contains_byte orb].
    rewrite FormatFloat_no_byte by reflexivity. reflexivity.
  - rewrite encode_unfold, last_byte_append_cons. intros Hl.
    apply last_byte_contains in Hl. cbn [contains_byte] in Hl.
    rewrite FormatFloat_no_byte in Hl by reflexivity. discriminate.
Qed.

Lemma scan_loop_encode (readings acc : list Reading) :
  Forall reading_ok readings →
  scan_loop (map encode readings) acc = Returns (acc ++ readings).
Proof.
  intros H. revert acc. induction H as [|r rs (Hsp & _) _ IH]; intros acc.
  - cbn. rewrite app_nil_r. reflexivity.
  - cbn [map scan_loop]. rewrite decode_encode by exact Hsp.
    rewrite IH, <- app_assoc. reflexivity.
Qed.

Lemma Scanner_tokens_lines_of (readings : list Reading) :
  Forall reading_ok readings →
  bufio.Scanner_tokens (lines_of readings) = map encode readings.
Proof.
  intros H. unfold bufio.Scanner_tokens, lines_of.
  rewrite scan_from_file_lines; [reflexivity|].
  apply Forall_fmap. eapply Forall_impl; [exact H|]. apply encode_line_ok.
Qed.

End codec.

(** ** os and bufio.Writer on a device with room *)

Lemma File_Write_fits (fs : os.FS) (name : string) (f : os.inode) (p : string) :
  os.files fs !! name = Some f → String.length p ≤ os.free fs →
  os.File_Write fs name p = (appended fs name f p, (String.length p, None)).
Proof.
  intros Hf Hp. unfold os.File_Write, appended. rewrite Hf.
  rewrite Nat.min_l by exact Hp. rewrite take_bytes_all by lia.
  apply Nat.leb_le in Hp. rewrite Hp. reflexivity.
Qed.

Lemma Writer_eta (b : bufio.Writer) :
  {| bufio.wr := bufio.wr b; bufio.buf := bufio.buf b; bufio.err := bufio.err b |} = b.
Proof. destruct b; reflexivity. Qed.

Lemma length_zero_iff (s : string) : String.length s = 0 ↔ s = "".
Proof. destruct s; cbn; split; intros; (reflexivity || discriminate || lia). Qed.

Lemma Write_loop_exit (fuel : nat) (fs : os.FS) (b : bufio.Writer) (p : string) (nn : nat) :
  String.length p ≤ bufio.Available b →
  bufio.Write_loop fuel fs b p nn = (fs, b, p, nn).
Proof.
  intros Hp. destruct fuel; [reflexivity|]. cbn [bufio.Write_loop].
  apply Nat.ltb_ge in Hp. rewrite Hp. reflexivity.
Qed.

Lemma Write_loop_direct (fuel : nat) (fs : os.FS) (b : bufio.Writer) (p : string)
  (nn : nat) (f : os.inode) :
  bufio.err b = None → bufio.buf b = "" →
  bufio.Available b < String.length p →
  os.files fs !! bufio.wr b = Some f → String.length p ≤ os.free fs →
  bufio.Write_loop (S fuel) fs b p nn =
    bufio.Write_loop fuel (appended fs (bufio.wr b) f p) b "" (nn + String.length p).
Proof.
  intros He Hb Hav Hf Hp. cbn [bufio.Write_loop].
  apply Nat.ltb_lt in Hav. rewrite Hav, He. cbn [andb].
  unfold bufio.Buffered. rewrite Hb. cbn [String.length Nat.eqb].
  rewrite (File_Write_fits fs _ f p Hf Hp).
  rewrite drop_bytes_all by lia.
  rewrite <- Hb, <- He, Writer_eta. reflexivity.
Qed.

Lemma Flush_fits (fs : os.FS) (b : bufio.Writer) (f : os.inode) :
  bufio.err b = None → bufio.buf b ≠ "" →
  os.files fs !! bufio.wr b = Some f →
  String.length (bufio.buf b) ≤ os.free fs →
  bufio.Flush fs b =
    (appended fs (bufio.wr b) f (bufio.buf b),
     {| bufio.wr := bufio.wr b; bufio.buf := ""; bufio.err := None |}, None).
Proof.
  intros He Hb Hf Hp. unfold bufio.Flush. rewrite He.
  unfold bufio.Buffered.
  destruct (String.length (bufio.buf b) =? 0) eqn:E.
  { apply Nat.eqb_eq, length_zero_iff in E. contradiction. }
  rewrite (File_Write_fits fs _ f _ Hf Hp). rewrite Nat.ltb_irrefl. reflexivity.
Qed.

Lemma Flush_empty (fs : os.FS) (b : bufio.Writer) :
  bufio.err b = None → bufio.buf b = "" → bufio.Flush fs b = (fs, b, None).
Proof.
  intros He Hb. unfold bufio.Flush, bufio.Buffered. rewrite He, Hb. reflexivity.
Qed.

Lemma Write_loop_flush (fuel : nat) (fs : os.FS) (b : bufio.Writer) (p : string)
  (nn : nat) (f : os.inode) :
  bufio.err b = None → bufio.buf b ≠ "" →
  bufio.Available b < String.length p →
  os.files fs !! bufio.wr b = Some f →
  String.length (bufio.buf b) + bufio.Available b ≤ os.free fs →
  bufio.Write_loop (S fuel) fs b p nn =
    bufio.Write_loop fuel
      (appended fs (bufio.wr b) f (bufio.buf b +:+ take_bytes (bufio.Available b) p))
      {| bufio.wr := bufio.wr b; bufio.buf := ""; bufio.err := None |}
      (drop_bytes (bufio.Available b) p) (nn + bufio.Available b).
Proof.
  intros He Hb Hav Hf Hp. cbn [bufio.Write_loop].
  pose proof Hav as Hav'. apply Nat.ltb_lt in Hav'. rewrite Hav', He. cbn [andb].
  unfold bufio.Buffered at 1.
  destruct (String.length (bufio.buf b) =? 0) eqn:E.
  { apply Nat.eqb_eq, length_zero_iff in E. contradiction. }
  rewrite Nat.min_l by lia.
  rewrite (Flush_fits fs _ f); cbn [bufio.wr bufio.buf bufio.err];
    try assumption; try reflexivity.
  - intros Hx. apply length_zero_iff in Hx. rewrite length_append in Hx.
    apply Nat.eqb_neq in E. lia.
  - rewrite length_append, length_take_bytes. lia.
Qed.

Lemma writer_inv_appended fs0 name rd wr fs (b' : bufio.Writer) (f : os.inode)
  (p : string) logical' slack' :
  bufio.wr b' = name → bufio.err b' = None →
  os.may_create fs = os.may_create fs0 →
  (∀ other, other ≠ name → os.files fs !! other = os.files fs0 !! other) →
  os.readable f = rd → os.writable f = wr →
  String.length (bufio.buf b') ≤ bufio.defaultBufSize →
  os.free fs - String.length p = slack' + String.length (bufio.buf b') →
  (os.contents f +:+ p) +:+ bufio.buf b' = logical' →
  writer_inv fs0 name rd wr (appended fs name f p) b' logical' slack'.
Proof.
  intros Hwr He Hmc Hoth Hrd Hwrt Hbuf Hfree Hlog.
  unfold writer_inv, appended; cbn.
  repeat split; try assumption.
  - intros other Hne. rewrite lookup_insert_ne by congruence. apply Hoth, Hne.
  - eexists. rewrite lookup_insert_eq. split; [reflexivity|]. cbn. auto.
Qed.

Lemma Write_fits fs0 name rd wr fs b logical slack (p : string) :
  writer_inv fs0 name rd wr fs b logical slack →
  String.length p ≤ slack →
  ∃ fs' b', bufio.Write fs b p = (fs', b', (String.length p, None)) ∧
            writer_inv fs0 name rd wr fs' b' (logical +:+ p) (slack - String.length p).
Proof.
  intros (Hwr & He & Hbuf & Hfree & Hmc & Hoth & f & Hf & Hrd & Hwrt & Hlog) Hp.
  unfold bufio.Write.
  destruct (decide (String.length p ≤ bufio.Available b)) as [Hfit|Hfit].
  { (* the line fits in the buffer *)
    rewrite Write_loop_exit by exact Hfit. rewrite He.
    rewrite Nat.min_r by exact Hfit. rewrite take_bytes_all by lia.
    eexists _, _. split; [reflexivity|].
    unfold bufio.Available, bufio.Buffered in Hfit.
    unfold writer_inv; cbn.
    repeat split; try assumption.
    - rewrite length_append. lia.
    - rewrite length_append. lia.
    - exists f. repeat split; try assumption.
      rewrite <- Hlog, append_assoc. reflexivity. }
  assert (Hav : bufio.Available b < String.length p) by lia.
  assert (Hdef : bufio.defaultBufSize = 4096) by reflexivity.
  destruct (decide (bufio.buf b = "")) as [Hb|Hb].
  { (* empty buffer: written through *)
    rewrite <- Hwr in Hf.
    rewrite Hb in Hfree. cbn [String.length] in Hfree.
    rewrite (Write_loop_direct _ fs b p 0 f He Hb Hav Hf) by lia.
    rewrite Write_loop_exit by (cbn [String.length]; lia). rewrite He.
    cbn [String.length]. rewrite Nat.min_r by lia. cbn [take_bytes].
    rewrite Hb, append_nil_r, Nat.add_0_l, Nat.add_0_r, Hwr.
    eexists _, _. split; [reflexivity|].
    apply writer_inv_appended; try assumption; try reflexivity.
    - cbn. lia.
    - cbn [String.length bufio.buf]. lia.
    - cbn [bufio.buf]. rewrite append_nil_r, <- Hlog, Hb, append_nil_r. reflexivity. }
  (* fill the buffer and flush it *)
  rewrite <- Hwr in Hf.
  unfold bufio.Available, bufio.Buffered in Hav.
  rewrite (Write_loop_flush _ fs b p 0 f He Hb) by
    (try assumption; unfold bufio.Available, bufio.Buffered; lia).
  set (n := bufio.Available b).
  assert (Hn : n = bufio.defaultBufSize - String.length (bufio.buf b)) by reflexivity.
  set (b1 := {| bufio.wr := bufio.wr b; bufio.buf := ""; bufio.err := None |}).
  set (fs1 := appended fs (bufio.wr b) f (bufio.buf b +:+ take_bytes n p)).
  assert (Hlen1 : String.length (bufio.buf b +:+ take_bytes n p) = bufio.defaultBufSize).
  { rewrite length_append, length_take_bytes. lia. }
  assert (Hp1 : String.length (drop_bytes n p) = String.length p - n).
  { apply length_drop_bytes. }
  destruct (decide (String.length (drop_bytes n p) ≤ bufio.defaultBufSize)) as [Hfit2|Hfit2].
  - rewrite Write_loop_exit by exact Hfit2. cbn [bufio.err b1].
    unfold bufio.Available, bufio.Buffered. cbn [bufio.buf b1 String.length].
    rewrite Nat.sub_0_r, Nat.min_r by exact Hfit2.
    rewrite take_bytes_all by lia. rewrite append_nil_l.
    replace (0 + n + String.length (drop_bytes n p)) with (String.length p) by lia.
    eexists _, _. split; [reflexivity|].
    unfold fs1. rewrite Hwr. apply writer_inv_appended; try assumption; try reflexivity.
    + cbn [bufio.buf]. rewrite Hlen1. lia.
    + cbn [bufio.buf]. rewrite <- Hlog, !append_assoc. f_equal. f_equal. apply take_drop_bytes.
  - set (f1 := {| os.contents := os.contents f +:+ (bufio.buf b +:+ take_bytes n p);
                  os.readable := os.readable f;
                  os.writable := os.writable f |}).
    assert (Hf1 : os.files fs1 !! bufio.wr b1 = Some f1).
    { unfold fs1, appended; cbn. apply lookup_insert_eq. }
    rewrite (Write_loop_direct _ fs1 b1 _ _ f1 eq_refl eq_refl); [| |exact Hf1|].
    2:{ unfold bufio.Available, bufio.Buffered. cbn [bufio.buf b1 String.length]. lia. }
    2:{ unfold fs1, appended. cbn [os.free]. rewrite Hlen1. lia. }
    rewrite Write_loop_exit by (cbn [String.length]; lia).
    cbn [bufio.err b1 String.length]. rewrite Nat.min_r by lia. cbn [take_bytes].
    cbn [bufio.buf bufio.wr b1]. rewrite append_nil_l.
    replace (0 + n + String.length (drop_bytes n p) + 0) with (String.length p) by lia.
    eexists _, _. split; [reflexivity|].
    rewrite Hwr.
    assert (Hw : writer_inv fs0 name rd wr fs1 b1
                   (os.contents f +:+ (bufio.buf b +:+ take_bytes n p))
                   (os.free fs - bufio.defaultBufSize)).
    { unfold fs1, b1. rewrite Hwr. apply writer_inv_appended; try assumption; try reflexivity.
      - cbn. lia.
      - rewrite Hlen1. cbn [String.length bufio.buf]. lia.
      - cbn [bufio.buf]. rewrite append_nil_r. reflexivity. }
    destruct Hw as (_ & _ & _ & _ & Hmc1 & Hoth1 & _).
    apply writer_inv_appended; try assumption; try reflexivity.
    + cbn. lia.
    + unfold fs1, appended; cbn [os.free String.length bufio.buf]. rewrite Hlen1. lia.
    + unfold f1. cbn [os.contents bufio.buf].
      rewrite append_nil_r, <- Hlog, !append_assoc.
      f_equal. f_equal. apply take_drop_bytes.
Qed.

(** ** The loop of [Writer.Write] ends within two turns *)

Lemma Write_loop_settled (fuel : nat) fs b p nn :
  Write_running b p = false →
  bufio.Write_loop fuel fs b p nn = (fs, b, p, nn).
Proof.
  intros H. destruct fuel; [reflexivity|]. cbn [bufio.Write_loop].
  unfold Write_running in H. rewrite H. reflexivity.
Qed.

Lemma File_Write_complete fs name p fs' n :
  os.File_Write fs name p = (fs', (n, None)) → n = String.length p.
Proof.
  unfold os.File_Write. destruct (os.files fs !! name); [|discriminate].
  destruct (String.length p <=? os.free fs) eqn:E; [|discriminate].
  apply Nat.leb_le in E. intros [= _ <-]. lia.
Qed.

Lemma Write_loop_direct_settles (f1 f2 : nat) fs b p nn :
  bufio.Buffered b = 0 → Write_running b p = true →
  bufio.Write_loop (S f1) fs b p nn = bufio.Write_loop (S f2) fs b p nn.
Proof.
  intros Hb Hns. cbn [bufio.Write_loop].
  unfold Write_running in Hns. rewrite Hns, Hb. cbn [Nat.eqb].
  destruct (os.File_Write fs (bufio.wr b) p) as [fs' [n e]] eqn:E.
  rewrite !Write_loop_settled; [reflexivity| |].
  all: unfold Write_running; cbn [bufio.err];
    destruct e; [apply andb_false_r|];
    apply File_Write_complete in E; subst n;
    rewrite length_drop_bytes, Nat.sub_diag; reflexivity.
Qed.

Lemma Flush_post fs b :
  bufio.err (snd (fst (bufio.Flush fs b))) = None →
  bufio.Buffered (snd (fst (bufio.Flush fs b))) = 0.
Proof.
  unfold bufio.Flush. destruct (bufio.err b) eqn:He; [cbn; congruence|].
  destruct (bufio.Buffered b =? 0) eqn:Hb.
  { cbn. intros _. apply Nat.eqb_eq, Hb. }
  destruct (os.File_Write fs (bufio.wr b) (bufio.buf b)) as [fs' [n e]].
  destruct e as [e|]; [cbn; discriminate|].
  destruct (n <? bufio.Buffered b); cbn; [discriminate|reflexivity].
Qed.

Lemma Write_loop_S (fuel : nat) fs b p nn :
  bufio.Write_loop (S fuel) fs b p nn =
    if (bufio.Available b <? String.length p)
       && match bufio.err b with None => true | Some _ => false end
    then
      if bufio.Buffered b =? 0 then
        let '(fs', (n, e)) := os.File_Write fs (bufio.wr b) p in
        bufio.Write_loop fuel fs'
          {| bufio.wr := bufio.wr b; bufio.buf := bufio.buf b; bufio.err := e |}
          (drop_bytes n p) (nn + n)
      else
        let n := Nat.min (bufio.Available b) (String.length p) in
        let b1 := {| bufio.wr := bufio.wr b;
                     bufio.buf := bufio.buf b +:+ take_bytes n p;
                     bufio.err := bufio.err b |} in
        let '(fs', b2, _) := bufio.Flush fs b1 in
        bufio.Write_loop fuel fs' b2 (drop_bytes n p) (nn + n)
    else (fs, b, p, nn).
Proof. reflexivity. Qed.

Lemma Write_loop_fuel (fuel : nat) fs b p nn :
  bufio.Write_loop (3 + fuel) fs b p nn = bufio.Write_loop 3 fs b p nn.
Proof.
  destruct (Write_running b p) eqn:Hs;
    [|rewrite !Write_loop_settled by exact Hs; reflexivity].
  destruct (decide (bufio.Buffered b = 0)) as [Hb|Hb].
  { apply Write_loop_direct_settles; assumption. }
  change (3 + fuel) with (S (S (S fuel))).
  rewrite (Write_loop_S (S (S fuel))), (Write_loop_S 2). cbv zeta.
  unfold Write_running in Hs. rewrite Hs.
  apply Nat.eqb_neq in Hb. rewrite Hb.
  set (b1 := {| bufio.wr := bufio.wr b;
                bufio.buf := bufio.buf b +:+
                  take_bytes (Nat.min (bufio.Available b) (String.length p)) p;
                bufio.err := bufio.err b |}).
  pose proof (Flush_post fs b1) as Hpost.
  destruct (bufio.Flush fs b1) as [[fs' b2] e]. cbn [fst snd] in Hpost.
  set (p' := drop_bytes (Nat.min (bufio.Available b) (String.length p)) p).
  destruct (Write_running b2 p') eqn:Hs2;
    [|rewrite !(Write_loop_settled _ fs' b2 p') by exact Hs2; reflexivity].
  apply (Write_loop_direct_settles (S fuel) 1); [|exact Hs2].
  apply Hpost. unfold Write_running in Hs2.
  destruct (bufio.err b2); [|reflexivity].
  rewrite andb_false_r in Hs2. discriminate.
Qed.

Section write_read.
Context {T : strconv.Float64Type} {F : strconv.Float64}
  {Laws : strconv.Float64Laws F}.

Lemma lines_of_cons (r : Reading) (rs : list Reading) :
  lines_of (r :: rs) = (encode r +:+ newline) +:+ lines_of rs.
Proof. unfold lines_of. cbn [map file_lines]. unfold newline. rewrite append_assoc. reflexivity. Qed.


Lemma write_loop_fits fs0 name rd wr fs b logical slack (readings : list Reading) :
  writer_inv fs0 name rd wr fs b logical slack →
  String.length (lines_of readings) ≤ slack →
  ∃ fs' b', write_loop fs b readings = (fs', b') ∧
    writer_inv fs0 name rd wr fs' b' (logical +:+ lines_of readings)
      (slack - String.length (lines_of readings)).
Proof.
  revert fs b logical slack.
  induction readings as [|r rs IH]; intros fs b logical slack Hinv Hlen.
  - exists fs, b. split; [reflexivity|].
    unfold lines_of; cbn [map file_lines String.length].
    rewrite append_nil_r, Nat.sub_0_r. exact Hinv.
  - rewrite lines_of_cons, length_append in Hlen.
    cbn [write_loop]. unfold Fprintln.
    destruct (Write_fits fs0 name rd wr fs b logical slack (encode r +:+ newline) Hinv)
      as (fs1 & b1 & -> & Hinv1); [lia|].
    destruct (IH fs1 b1 _ _ Hinv1) as (fs2 & b2 & Heq & Hinv2); [lia|].
    exists fs2, b2. split; [exact Heq|].
    rewrite lines_of_cons, length_append, <- append_assoc.
    replace (slack - (String.length (encode r +:+ newline) + String.length (lines_of rs)))
      with (slack - String.length (encode r +:+ newline) - String.length (lines_of rs)) by lia.
    exact Hinv2.
Qed.

Lemma Flush_writer_inv fs0 name rd wr fs b logical slack :
  writer_inv fs0 name rd wr fs b logical slack →
  ∃ fs' b', bufio.Flush fs b = (fs', b', None) ∧
    os.free fs' = slack ∧ os.may_create fs' = os.may_create fs0 ∧
    (∀ other, other ≠ name → os.files fs' !! other = os.files fs0 !! other) ∧
    os.files fs' !! name =
      Some {| os.contents := logical; os.readable := rd; os.writable := wr |}.
Proof.
  intros (Hwr & He & Hbuf & Hfree & Hmc & Hoth & f & Hf & Hrd & Hwrt & Hlog).
  destruct (decide (bufio.buf b = "")) as [Hb|Hb].
  - rewrite Flush_empty by assumption. exists fs, b. split; [reflexivity|].
    rewrite Hb in *. cbn [String.length] in Hfree. rewrite append_nil_r in Hlog.
    repeat split; try assumption; try lia.
    rewrite Hf. destruct f; cbn in *; subst; reflexivity.
  - rewrite <- Hwr in Hf. rewrite (Flush_fits fs b f He Hb Hf) by lia.
    eexists _, _. split; [reflexivity|]. unfold appended; cbn. rewrite Hwr.
    repeat split; try assumption; try lia.
    + intros other Hne. rewrite lookup_insert_ne by congruence. apply Hoth, Hne.
    + rewrite lookup_insert_eq. subst. reflexivity.
Qed.

Lemma write_fits (fs : os.FS) (readings : Readings) (dataDir : string) (fs1 : os.FS) :
  let name := filename dataDir (Sensor_id readings) in
  os.OpenFile fs name = inr fs1 →
  String.length (lines_of (Readings' readings)) ≤ os.free fs →
  ∃ fs' f', write fs readings dataDir = (fs', None) ∧
    os.files fs' !! name = Some f' ∧
    os.contents f' = log_contents fs name +:+ lines_of (Readings' readings) ∧
    os.readable f' = match os.files fs !! name with
                     | Some f => os.readable f | None => true end ∧
    os.writable f' = true ∧
    os.free fs' = os.free fs - String.length (lines_of (Readings' readings)) ∧
    os.may_create fs' = os.may_create fs ∧
    (∀ other, other ≠ name → os.files fs' !! other = os.files fs !! other).
Proof.
  intros name Hopen Hlen. unfold write. fold name. rewrite Hopen.
  set (rd := match os.files fs !! name with Some f => os.readable f | None => true end).
  assert (Hinv : writer_inv fs name rd true fs1 (bufio.NewWriter name)
                   (log_contents fs name) (os.free fs)).
  { unfold os.OpenFile in Hopen. unfold log_contents, rd.
    destruct (os.files fs !! name) as [f|] eqn:Hf.
    - destruct (os.writable f) eqn:Hw; [|discriminate]. injection Hopen as <-.
      unfold writer_inv; cbn. repeat split; try lia.
      exists f. rewrite append_nil_r. auto.
    - destruct (os.may_create fs) eqn:Hmc; [|discriminate]. injection Hopen as <-.
      unfold writer_inv; cbn. rewrite Hmc. repeat split; try lia.
      + intros other Hne. rewrite lookup_insert_ne by congruence. reflexivity.
      + eexists. rewrite lookup_insert_eq. split; [reflexivity|]. cbn. auto. }
  destruct (write_loop_fits _ _ _ _ _ _ _ _ (Readings' readings) Hinv Hlen)
    as (fs2 & b2 & -> & Hinv2).
  destruct (Flush_writer_inv _ _ _ _ _ _ _ _ Hinv2)
    as (fs3 & b3 & -> & Hfree & Hmc & Hoth & Hfile).
  eexists _, _. split; [reflexivity|]. split; [exact Hfile|]. cbn.
  repeat split; assumption.
Qed.

(** what [write] reports depends on the opening of the file only *)
Lemma write_error (fs : os.FS) (readings : Readings) (dataDir : string) :
  snd (write fs readings dataDir) =
    match os.OpenFile fs (filename dataDir (Sensor_id readings)) with
    | inl e => Some e
    | inr _ => None
    end.
Proof.
  unfold write. destruct (os.OpenFile fs _) as [e|fs1]; [reflexivity|].
  destruct (write_loop fs1 _ _) as [fs2 b2].
  destruct (bufio.Flush fs2 b2) as [[fs3 b3] e]. reflexivity.
Qed.


End write_read.

Lemma StronglySorted_weaken {A : Type} (R1 R2 : A → A → Prop) (l : list A) :
  (∀ x y, R1 x y → R2 x y) → StronglySorted R1 l → StronglySorted R2 l.
Proof.
  intros HR. induction 1 as [|x l _ IH Hx]; constructor; [exact IH|].
  eapply Forall_impl; [exact Hx|]. apply HR.
Qed.

Section claims.
Context {T : strconv.Float64Type} {F : strconv.Float64}
  {Laws : strconv.Float64Laws F}.

(** ** The order of readings *)

Lemma less_irrefl (r : Reading) : less r r = false.
Proof. apply ltb_irrefl. Qed.

Lemma less_trans (r1 r2 r3 : Reading) :
  less r1 r2 = true → less r2 r3 = true → less r1 r3 = true.
Proof. apply ltb_trans. Qed.

Lemma less_ntrans (r1 r2 r3 : Reading) :
  less r2 r1 = false → less r3 r2 = false → less r3 r1 = false.
Proof. apply ltb_ntrans. Qed.

Lemma Slice_less_ascending (readings : list Reading) :
  ascending (sort.Slice less readings).
Proof.
  pose proof (Slice_StronglySorted less less_irrefl less_trans less_ntrans readings) as H.
  unfold ascending. eapply StronglySorted_weaken; [|exact H].
  intros r1 r2. unfold not_after, timestamp_le, less.
  rewrite ltb_leb. apply negb_false_iff.
Qed.

Lemma Slice_less_Permutation (readings : list Reading) :
  sort.Slice less readings ≡ₚ readings.
Proof. apply Slice_Permutation; [apply less_irrefl|apply less_trans|apply less_ntrans]. Qed.

(** ** The state of one log *)




(** ** C4, C10: reading a log that cannot be opened *)

(** C4. A sensor that was never written has no log file: [read] returns
    the batch of that sensor with no readings, and the worker answers the
    read with that batch; no error is involved. *)
Theorem read_absent_sensor (fs : os.FS) (sensorId : N) (dataDir : string)
  (w : nat) :
  os.files fs !! filename dataDir sensorId = None →
  read fs sensorId dataDir =
    Returns {| Sensor_id := sensorId; Readings' := [] |} ∧
  serve dataDir fs (ReadMessage sensorId w) =
    Returns (fs, (w, Body {| Sensor_id := sensorId; Readings' := [] |})).
Proof.
  intros Hf. assert (Hr : read fs sensorId dataDir =
    Returns {| Sensor_id := sensorId; Readings' := [] |}).
  { unfold read, os.Open. rewrite Hf. reflexivity. }
  split; [exact Hr|]. unfold serve. rewrite Hr. reflexivity.
Qed.

(** C10. Whatever the reason [os.Open] fails for, [read] returns the
    batch of the sensor with no readings, the worker answers with it, and
    the answer is the one given for a sensor without log file. *)
Theorem read_open_error (fs : os.FS) (sensorId : N) (dataDir : string)
  (w : nat) (e : error) :
  os.Open fs (filename dataDir sensorId) = inl e →
  read fs sensorId dataDir =
    Returns {| Sensor_id := sensorId; Readings' := [] |} ∧
  serve dataDir fs (ReadMessage sensorId w) =
    Returns (fs, (w, Body {| Sensor_id := sensorId; Readings' := [] |})) ∧
  ∀ fs0, os.files fs0 !! filename dataDir sensorId = None →
         read fs sensorId dataDir = read fs0 sensorId dataDir.
Proof.
  intros He. assert (Hr : read fs sensorId dataDir =
    Returns {| Sensor_id := sensorId; Readings' := [] |}).
  { unfold read. rewrite He. reflexivity. }
  split; [exact Hr|]. split.
  - unfold serve. rewrite Hr. reflexivity.
  - intros fs0 H0. rewrite Hr. unfold read, os.Open. rewrite H0. reflexivity.
Qed.

(** ** C3: append *)

(** C3, as amended. When the log file can be opened for appending and
    the device has room for the lines, [write] succeeds and leaves in the file its prior
    contents followed by one encoded line per reading, in the order
    given; the other files are untouched. *)
Theorem write_appends (fs fs1 : os.FS) (readings : Readings)
  (dataDir : string) :
  os.OpenFile fs (filename dataDir (Sensor_id readings)) = inr fs1 →
  String.length (lines_of (Readings' readings)) ≤ os.free fs →
  ∃ fs' f',
    write fs readings dataDir = (fs', None) ∧
    os.files fs' !! filename dataDir (Sensor_id readings) = Some f' ∧
    os.contents f' =
      log_contents fs (filename dataDir (Sensor_id readings))
      +:+ lines_of (Readings' readings) ∧
    ∀ other, other ≠ filename dataDir (Sensor_id readings) →
             os.files fs' !! other = os.files fs !! other.
Proof.
  intros Hopen Hlen.
  destruct (write_fits fs readings dataDir fs1 Hopen Hlen)
    as (fs' & f' & Hw & Hf' & Hc & _ & _ & _ & _ & Hoth).
  exists fs', f'. auto.
Qed.

(** ** C5: the codec *)

(** C5. Decoding a well-formed line and encoding the result gives the
    line back; encoding a reading whose timestamp has no space and no
    newline and decoding the line gives the reading back. *)
Theorem codec_round_trip (line : string) (r : Reading) :
  well_formed_line line →
  contains_byte byte_space (Timestamp r) = false →
  contains_byte byte_LF (Timestamp r) = false →
  (∃ r', decode line = Returns r' ∧ encode r' = line) ∧
  decode (encode r) = Returns r.
Proof.
  intros (ts & v & Hsp & _ & ->) Hr _. split.
  - exists {| Timestamp := ts; Value := v |}. split; [|reflexivity].
    apply (decode_encode {| Timestamp := ts; Value := v |}). exact Hsp.
  - apply decode_encode, Hr.
Qed.

(** ** C8: a value field that does not parse *)

Section out_of_range.
Context {RangeLaws : strconv.Float64RangeLaws F}.

(** C8, as amended. A line with a value field that [ParseFloat] rejects
    decodes to its timestamp and the value returned with the error, and
    the scan goes on with the next line: the value is zero when the field
    is not the syntax of a float, and an infinity, which is not zero, when
    it is a numeral out of range. *)
Theorem decode_value_error (line ts field : string) (more : list string)
  (e : strconv.NumError) (rest : list string) (acc : list Reading) :
  strings.Split line byte_space = ts :: field :: more →
  snd (strconv.ParseFloat field) = Some e →
  ∃ value,
    decode line = Returns {| Timestamp := ts; Value := value |} ∧
    scan_loop (line :: rest) acc =
      scan_loop rest (acc ++ [{| Timestamp := ts; Value := value |}]) ∧
    match e with
    | strconv.ErrSyntax => value = strconv.float64_zero
    | strconv.ErrRange => infinite value ∧ value ≠ strconv.float64_zero
    end.
Proof.
  intros Hsplit He.
  destruct (strconv.ParseFloat field) as [v e'] eqn:Hp. cbn [snd] in He.
  subst e'. exists v.
  assert (Hd : decode line = Returns {| Timestamp := ts; Value := v |}).
  { unfold decode. rewrite Hsplit. cbn [lookup list_lookup].
    rewrite Hp. reflexivity. }
  split; [exact Hd|]. split; [cbn [scan_loop]; rewrite Hd; reflexivity|].
  destruct e.
  - apply (strconv.ParseFloat_ErrSyntax field v Hp).
  - pose proof (strconv.ParseFloat_ErrRange field v Hp) as Hinf.
    split; [exact Hinf|]. intros ->.
    rewrite strconv.FormatFloat_zero in Hinf.
    destruct Hinf as [Hinf|Hinf]; discriminate Hinf.
Qed.

End out_of_range.

(** ** C6: the order of the readings returned *)

(** C6, as amended. [read] returns the decoded readings in ascending
    order of timestamp: a permutation of them, sorted.  Nothing is said of
    the order of readings with equal timestamps: [sort.Slice] is not
    stable. *)
Theorem read_sorts_by_timestamp (fs : os.FS) (sensorId : N)
  (dataDir file : string) (readings : list Reading) :
  os.Open fs (filename dataDir sensorId) = inr file →
  scan_loop (bufio.Scanner_tokens file) [] = Returns readings →
  ∃ out,
    read fs sensorId dataDir =
      Returns {| Sensor_id := sensorId; Readings' := out |} ∧
    out ≡ₚ readings ∧ ascending out.
Proof.
  intros Hopen Hscan. exists (sort.Slice less readings).
  split; [unfold read; rewrite Hopen, Hscan; reflexivity|].
  split; [apply Slice_less_Permutation|apply Slice_less_ascending].
Qed.

(** ** C2: writes, then a read *)



(** ** C1: concurrent writes *)


Lemma length_lines_of_Permutation (rs1 rs2 : list Reading) :
  rs1 ≡ₚ rs2 → String.length (lines_of rs1) = String.length (lines_of rs2).
Proof.
  induction 1 as [|r rs1 rs2 _ IH|r1 r2 rs|rs1 rs2 rs3 _ IH1 _ IH2].
  - reflexivity.
  - rewrite !lines_of_cons, !length_append, IH. reflexivity.
  - rewrite !lines_of_cons, !length_append. lia.
  - congruence.
Qed.

Lemma step_serve dataDir (s s' : Server) (pre post : list Message)
  (m : Message) (fs : os.FS) (r : nat * Response) :
  blocked s = pre ++ m :: post →
  serve dataDir (disk s) m = Returns (fs, r) →
  s' = {| disk := fs; blocked := pre ++ post;
          delivered := delivered s ++ [r] |} →
  step dataDir s s'.
Proof. intros Hb Hs ->. apply (step_select dataDir s pre post m fs r Hb Hs). Qed.




End claims.

(** ** Appends, whatever the device does *)

Lemma file_inv_File_Write fs0 name f0 fs flushed (p : string) :
  file_inv fs0 name f0 fs flushed →
  ∃ fs' n e,
    os.File_Write fs name p = (fs', (n, e)) ∧
    n ≤ String.length p ∧ (e = None → n = String.length p) ∧
    file_inv fs0 name f0 fs' (flushed +:+ take_bytes n p).
Proof.
  intros (Hmc & Hoth & Hfree & f & Hf & Hrd & Hwr & Hc).
  unfold os.File_Write. rewrite Hf. eexists _, _, _. split; [reflexivity|].
  split; [lia|]. split.
  - destruct (String.length p <=? os.free fs) eqn:E; [|discriminate].
    apply Nat.leb_le in E. intros _. lia.
  - split; [exact Hmc|]. split; [|split].
    + intros other Hne. cbn [os.files]. rewrite lookup_insert_ne by congruence.
      apply Hoth, Hne.
    + cbn [os.free]. rewrite length_append, length_take_bytes. lia.
    + eexists. cbn [os.files]. rewrite lookup_insert_eq.
      split; [reflexivity|]. cbn [os.readable os.writable os.contents].
      rewrite Hc, append_assoc. auto.
Qed.

Lemma append_inv_Flush fs0 name f0 fs b stream :
  append_inv fs0 name f0 fs b stream →
  append_inv fs0 name f0 (fst (fst (bufio.Flush fs b)))
    (snd (fst (bufio.Flush fs b))) stream.
Proof.
  intros (Hwr & flushed & rest & Hfile & Hs & Hbuf). unfold bufio.Flush.
  destruct (bufio.err b) as [e0|] eqn:He.
  { cbn [fst snd]. split; [exact Hwr|]. exists flushed, rest.
    split; [exact Hfile|]. split; [exact Hs|]. rewrite He. discriminate. }
  destruct (bufio.Buffered b =? 0) eqn:Hb.
  { cbn [fst snd]. split; [exact Hwr|]. exists flushed, rest.
    split; [exact Hfile|]. split; [exact Hs|]. intros _. apply Hbuf. reflexivity. }
  specialize (Hbuf eq_refl). subst rest.
  destruct (file_inv_File_Write _ _ _ _ _ (bufio.buf b) Hfile)
    as (fs' & n & e & HW & Hn & Hall & Hfile').
  rewrite Hwr, HW.
  assert (Hsplit : stream =
    (flushed +:+ take_bytes n (bufio.buf b)) +:+ drop_bytes n (bufio.buf b)).
  { rewrite append_assoc, take_drop_bytes. exact Hs. }
  destruct e as [e|].
  - cbn [fst snd]. split; [reflexivity|]. eexists _, _.
    split; [exact Hfile'|]. split; [exact Hsplit|]. discriminate.
  - specialize (Hall eq_refl). unfold bufio.Buffered.
    rewrite Hall, Nat.ltb_irrefl. cbn [fst snd]. split; [reflexivity|].
    eexists _, _. split; [exact Hfile'|]. split; [exact Hsplit|].
    intros _. cbn [bufio.buf]. apply drop_bytes_all. lia.
Qed.

Lemma append_inv_Write_loop (fuel : nat) fs0 name f0 fs b (p : string)
  (nn : nat) (consumed : string) :
  append_inv fs0 name f0 fs b consumed →
  ∃ fs' b' p' nn' taken,
    bufio.Write_loop fuel fs b p nn = (fs', b', p', nn') ∧
    p = taken +:+ p' ∧
    append_inv fs0 name f0 fs' b' (consumed +:+ taken).
Proof.
  revert fs b p nn consumed.
  induction fuel as [|fuel IH]; intros fs b p nn consumed Hinv.
  { exists fs, b, p, nn, "". cbn [bufio.Write_loop].
    rewrite append_nil_l, append_nil_r. auto. }
  rewrite Write_loop_S.
  destruct ((bufio.Available b <? String.length p)
            && match bufio.err b with None => true | Some _ => false end)
    eqn:Hrun.
  2:{ exists fs, b, p, nn, "". rewrite append_nil_l, append_nil_r. auto. }
  apply andb_true_iff in Hrun as [_ Herr].
  assert (He : bufio.err b = None).
  { destruct (bufio.err b); [discriminate|reflexivity]. }
  destruct Hinv as (Hwr & flushed & rest & Hfile & Hs & Hbuf).
  specialize (Hbuf He). subst rest.
  destruct (bufio.Buffered b =? 0) eqn:Hb.
  - (* the buffer is empty: [p] goes to the file *)
    apply Nat.eqb_eq in Hb. unfold bufio.Buffered in Hb.
    assert (Hempty : bufio.buf b = "").
    { destruct (bufio.buf b); [reflexivity|discriminate]. }
    rewrite Hempty, append_nil_r in Hs. subst consumed.
    destruct (file_inv_File_Write _ _ _ _ _ p Hfile)
      as (fs' & n & e & HW & Hn & Hall & Hfile').
    rewrite Hwr, HW.
    destruct (IH fs' {| bufio.wr := name; bufio.buf := bufio.buf b;
                        bufio.err := e |} (drop_bytes n p) (nn + n)
                (flushed +:+ take_bytes n p))
      as (fs2 & b2 & p2 & nn2 & taken & HL & Hp & Hinv2).
    { split; [reflexivity|]. exists (flushed +:+ take_bytes n p), "".
      rewrite append_nil_r. split; [exact Hfile'|]. split; [reflexivity|].
      intros _. cbn [bufio.buf]. symmetry. exact Hempty. }
    exists fs2, b2, p2, nn2, (take_bytes n p +:+ taken).
    split; [exact HL|]. split.
    + rewrite append_assoc, <- Hp, take_drop_bytes. reflexivity.
    + rewrite <- append_assoc. exact Hinv2.
  - (* the buffer is filled up and flushed *)
    set (n := Nat.min (bufio.Available b) (String.length p)).
    cbv zeta.
    set (b1 := {| bufio.wr := bufio.wr b;
                  bufio.buf := bufio.buf b +:+ take_bytes n p;
                  bufio.err := bufio.err b |}).
    assert (Hinv1 : append_inv fs0 name f0 fs b1 (consumed +:+ take_bytes n p)).
    { split; [exact Hwr|]. exists flushed, (bufio.buf b +:+ take_bytes n p).
      split; [exact Hfile|]. split; [|reflexivity].
      rewrite Hs, append_assoc. reflexivity. }
    apply append_inv_Flush in Hinv1.
    destruct (bufio.Flush fs b1) as [[fs' b2] e]. cbn [fst snd] in Hinv1.
    destruct (IH fs' b2 (drop_bytes n p) (nn + n) _ Hinv1)
      as (fs2 & b3 & p2 & nn2 & taken & HL & Hp & Hinv2).
    exists fs2, b3, p2, nn2, (take_bytes n p +:+ taken).
    split; [exact HL|]. split.
    + rewrite append_assoc, <- Hp, take_drop_bytes. reflexivity.
    + rewrite <- append_assoc. exact Hinv2.
Qed.

(** The loop of [Writer.Write] has ended when its fuel is used up: after
    a flush the buffer is empty or the writer has failed, and after a
    direct write the bytes are all written or the writer has failed. *)
Lemma Write_loop_direct_ends (fuel : nat) fs b p nn :
  bufio.Buffered b = 0 → Write_running b p = true →
  ∃ fs' b' p' nn',
    bufio.Write_loop (S fuel) fs b p nn = (fs', b', p', nn') ∧
    Write_running b' p' = false.
Proof.
  intros Hb Hrun. rewrite Write_loop_S. unfold Write_running in Hrun.
  rewrite Hrun, Hb. cbn [Nat.eqb].
  destruct (os.File_Write fs (bufio.wr b) p) as [fs' [n e]] eqn:E.
  assert (Hs : Write_running {| bufio.wr := bufio.wr b; bufio.buf := bufio.buf b;
                                bufio.err := e |} (drop_bytes n p) = false).
  { unfold Write_running. cbn [bufio.err].
    destruct e; [apply andb_false_r|].
    apply File_Write_complete in E. subst n.
    rewrite length_drop_bytes, Nat.sub_diag. reflexivity. }
  rewrite Write_loop_settled by exact Hs. eauto 10.
Qed.

Lemma Write_loop_ends fs b p nn :
  ∃ fs' b' p' nn',
    bufio.Write_loop 3 fs b p nn = (fs', b', p', nn') ∧
    Write_running b' p' = false.
Proof.
  destruct (Write_running b p) eqn:Hrun.
  2:{ rewrite Write_loop_settled by exact Hrun. eauto 10. }
  destruct (bufio.Buffered b =? 0) eqn:Hb.
  { apply Nat.eqb_eq in Hb. apply Write_loop_direct_ends; assumption. }
  rewrite Write_loop_S. unfold Write_running in Hrun. rewrite Hrun, Hb.
  cbv zeta.
  set (b1 := {| bufio.wr := bufio.wr b;
                bufio.buf := bufio.buf b +:+
                  take_bytes (Nat.min (bufio.Available b) (String.length p)) p;
                bufio.err := bufio.err b |}).
  pose proof (Flush_post fs b1) as Hpost.
  destruct (bufio.Flush fs b1) as [[fs' b2] e]. cbn [fst snd] in Hpost.
  set (p' := drop_bytes (Nat.min (bufio.Available b) (String.length p)) p).
  destruct (Write_running b2 p') eqn:Hrun2.
  2:{ rewrite Write_loop_settled by exact Hrun2. eauto 10. }
  apply Write_loop_direct_ends; [|exact Hrun2].
  apply Hpost. unfold Write_running in Hrun2.
  destruct (bufio.err b2); [|reflexivity].
  rewrite andb_false_r in Hrun2. discriminate.
Qed.

Lemma append_inv_Write fs0 name f0 fs b stream (p : string) :
  append_inv fs0 name f0 fs b stream →
  append_inv fs0 name f0 (fst (fst (bufio.Write fs b p)))
    (snd (fst (bufio.Write fs b p))) (stream +:+ p).
Proof.
  intros Hinv. unfold bufio.Write.
  destruct (Write_loop_ends fs b p 0) as (fs' & b' & p' & nn' & HL & Hend).
  destruct (append_inv_Write_loop 3 _ _ _ _ _ p 0 _ Hinv)
    as (fs2 & b2 & p2 & nn2 & taken & HL2 & Hp & Hinv2).
  rewrite HL in HL2. injection HL2 as <- <- <- <-. rewrite HL.
  destruct Hinv2 as (Hwr & flushed & rest & Hfile & Hs & Hbuf).
  destruct (bufio.err b') as [e|] eqn:He; cbn [fst snd].
  - split; [exact Hwr|]. exists flushed, (rest +:+ p').
    split; [exact Hfile|]. split; [|rewrite He; discriminate].
    rewrite Hp, <- append_assoc, Hs, append_assoc. reflexivity.
  - split; [exact Hwr|]. specialize (Hbuf eq_refl). subst rest.
    exists flushed, (bufio.buf b' +:+ p'). split; [exact Hfile|]. split.
    + rewrite Hp, <- append_assoc, Hs, append_assoc. reflexivity.
    + intros _. cbn [bufio.buf]. unfold Write_running in Hend.
      rewrite He, andb_true_r in Hend. apply Nat.ltb_ge in Hend.
      rewrite Nat.min_r by exact Hend. rewrite take_bytes_all by lia.
      reflexivity.
Qed.

Section write_always.
Context {T : strconv.Float64Type} {F : strconv.Float64}.

Lemma append_inv_write_loop fs0 name f0 fs b stream (readings : list Reading) :
  append_inv fs0 name f0 fs b stream →
  append_inv fs0 name f0 (fst (write_loop fs b readings))
    (snd (write_loop fs b readings)) (stream +:+ lines_of readings).
Proof.
  revert fs b stream. induction readings as [|r rs IH]; intros fs b stream Hinv.
  { cbn [write_loop fst snd]. unfold lines_of. cbn [map file_lines].
    rewrite append_nil_r. exact Hinv. }
  cbn [write_loop]. unfold Fprintln.
  apply (append_inv_Write _ _ _ _ _ _ (encode r +:+ newline)) in Hinv.
  destruct (bufio.Write fs b (encode r +:+ newline)) as [[fs1 b1] res].
  cbn [fst snd] in Hinv. apply (IH fs1 b1) in Hinv.
  rewrite lines_of_cons, <- append_assoc. exact Hinv.
Qed.

End write_always.

Lemma append_inj_r (s t1 t2 : string) : s +:+ t1 = s +:+ t2 → t1 = t2.
Proof.
  induction s as [|c s IH]; [rewrite !append_nil_l; trivial|].
  rewrite !append_cons. intros [= H]. apply IH, H.
Qed.

Lemma length_zero_empty (s : string) : String.length s = 0 → s = "".
Proof. destruct s; [reflexivity|discriminate]. Qed.

Lemma OpenFile_opened (fs fs1 : os.FS) (name : string) :
  os.OpenFile fs name = inr fs1 →
  os.free fs1 = os.free fs ∧ os.may_create fs1 = os.may_create fs ∧
  (∀ other, other ≠ name → os.files fs1 !! other = os.files fs !! other) ∧
  ∃ f0, os.files fs1 !! name = Some f0 ∧
        os.contents f0 = log_contents fs name.
Proof.
  unfold os.OpenFile, log_contents.
  destruct (os.files fs !! name) as [f|] eqn:Hf.
  - destruct (os.writable f); [|discriminate]. intros [= <-].
    repeat split; try reflexivity. exists f. auto.
  - destruct (os.may_create fs); [|discriminate]. intros [= <-].
    cbn [os.free os.may_create os.files]. repeat split; try reflexivity.
    + intros other Hne. apply lookup_insert_ne. congruence.
    + eexists. rewrite lookup_insert_eq. split; reflexivity.
Qed.

Section write_always_claims.
Context {T : strconv.Float64Type} {F : strconv.Float64}.

Lemma write_append_inv (fs fs1 : os.FS) (readings : Readings)
  (dataDir : string) (f0 : os.inode) :
  os.OpenFile fs (filename dataDir (Sensor_id readings)) = inr fs1 →
  os.files fs1 !! filename dataDir (Sensor_id readings) = Some f0 →
  ∃ b, append_inv fs1 (filename dataDir (Sensor_id readings)) f0
         (fst (write fs readings dataDir)) b (lines_of (Readings' readings)).
Proof.
  intros Hopen Hf0. unfold write. rewrite Hopen.
  set (name := filename dataDir (Sensor_id readings)) in *.
  assert (H0 : append_inv fs1 name f0 fs1 (bufio.NewWriter name) "").
  { split; [reflexivity|]. exists "", "". split; [|split; reflexivity].
    split; [reflexivity|]. split; [reflexivity|]. split; [cbn; lia|].
    exists f0. rewrite append_nil_r. auto. }
  apply (append_inv_write_loop _ _ _ _ _ _ (Readings' readings)) in H0.
  rewrite append_nil_l in H0.
  destruct (write_loop fs1 (bufio.NewWriter name) (Readings' readings))
    as [fs2 b2]. cbn [fst snd] in H0.
  apply append_inv_Flush in H0.
  destruct (bufio.Flush fs2 b2) as [[fs3 b3] e]. cbn [fst snd] in *.
  exists b3. exact H0.
Qed.

Lemma write_other_files (fs : os.FS) (readings : Readings)
  (dataDir other : string) :
  other ≠ filename dataDir (Sensor_id readings) →
  os.files (fst (write fs readings dataDir)) !! other = os.files fs !! other.
Proof.
  intros Hne.
  destruct (os.OpenFile fs (filename dataDir (Sensor_id readings)))
    as [e|fs1] eqn:Hopen.
  { unfold write. rewrite Hopen. reflexivity. }
  destruct (OpenFile_opened _ _ _ Hopen) as (_ & _ & Hoth & f0 & Hf0 & _).
  destruct (write_append_inv _ _ _ _ _ Hopen Hf0)
    as (b & _ & flushed & rest & (_ & Hoth' & _) & _).
  rewrite Hoth', Hoth by exact Hne. reflexivity.
Qed.

(** X1. Whatever the batch and whatever room the device has, a [write]
    that has opened the log only appends to it: afterwards the log holds
    its prior contents followed by a prefix of the encoded lines, the
    device has taken exactly the bytes appended, and the lines are all
    there exactly when the device had room for them. *)
Theorem write_append_only (fs fs1 : os.FS) (readings : Readings)
  (dataDir : string) :
  os.OpenFile fs (filename dataDir (Sensor_id readings)) = inr fs1 →
  ∃ f' written rest,
    os.files (fst (write fs readings dataDir))
      !! filename dataDir (Sensor_id readings) = Some f' ∧
    lines_of (Readings' readings) = written +:+ rest ∧
    os.contents f' =
      log_contents fs (filename dataDir (Sensor_id readings)) +:+ written ∧
    os.free fs =
      os.free (fst (write fs readings dataDir)) + String.length written ∧
    (rest = "" ↔ String.length (lines_of (Readings' readings)) ≤ os.free fs).
Proof.
  intros Hopen.
  destruct (OpenFile_opened _ _ _ Hopen) as (Hfree & _ & _ & f0 & Hf0 & Hc0).
  destruct (write_append_inv _ _ _ _ _ Hopen Hf0)
    as (b & _ & written & rest & (_ & _ & Hfree' & f' & Hf' & _ & _ & Hc') & Hs & _).
  exists f', written, rest. rewrite Hc0 in Hc'. rewrite Hfree in Hfree'.
  split; [exact Hf'|]. split; [exact Hs|]. split; [exact Hc'|].
  split; [exact Hfree'|]. split.
  - intros ->. rewrite Hs, append_nil_r. lia.
  - intros Hroom.
    destruct (write_fits fs readings dataDir fs1 Hopen Hroom)
      as (fs2 & f2 & Hw & Hf2 & Hc2 & _).
    rewrite Hw in Hf'. cbn [fst] in Hf'. rewrite Hf2 in Hf'.
    injection Hf' as ->. rewrite Hc2 in Hc'. apply append_inj_r in Hc'.
    apply length_zero_empty.
    apply (f_equal String.length) in Hs. rewrite Hc', length_append in Hs. lia.
Qed.


Lemma filename_inj (dataDir : string) (a b : N) :
  filename dataDir a = filename dataDir b → a = b.
Proof.
  unfold filename. intros H. apply append_inj_r in H.
  apply (inj pretty) in H. exact H.
Qed.

(** X4. The logs of the sensors are apart: whatever a [write] for one
    sensor does, with or without error, a [read] of another sensor returns
    what it returned before. *)
Theorem write_other_sensor (fs : os.FS) (readings : Readings)
  (dataDir : string) (sensorId : N) :
  sensorId ≠ Sensor_id readings →
  read (fst (write fs readings dataDir)) sensorId dataDir =
    read fs sensorId dataDir.
Proof.
  intros Hne. unfold read, os.Open.
  rewrite write_other_files; [reflexivity|].
  intros H. apply filename_inj in H. contradiction.
Qed.

(** X2. A [write] of a batch without readings that can open the log
    returns no error and writes no byte: a log that exists keeps its
    contents, and a log that does not exist is created empty, so that it
    is then read as a log without readings. *)
Theorem write_empty_batch (fs fs1 : os.FS) (sensorId : N) (dataDir : string) :
  os.OpenFile fs (filename dataDir sensorId) = inr fs1 →
  write fs {| Sensor_id := sensorId; Readings' := [] |} dataDir = (fs1, None) ∧
  os.free fs1 = os.free fs ∧
  log_contents fs1 (filename dataDir sensorId) =
    log_contents fs (filename dataDir sensorId) ∧
  (os.files fs !! filename dataDir sensorId = None →
   os.files fs1 !! filename dataDir sensorId =
     Some {| os.contents := ""; os.readable := true; os.writable := true |} ∧
   read fs1 sensorId dataDir =
     Returns {| Sensor_id := sensorId; Readings' := [] |}).
Proof.
  intros Hopen. split; [unfold write; cbn [Sensor_id]; rewrite Hopen; reflexivity|].
  destruct (OpenFile_opened _ _ _ Hopen) as (Hfree & _ & _ & f0 & Hf0 & Hc0).
  split; [exact Hfree|]. split.
  { unfold log_contents at 1. rewrite Hf0. exact Hc0. }
  intros Hnone. unfold os.OpenFile in Hopen. rewrite Hnone in Hopen.
  destruct (os.may_create fs); [|discriminate]. injection Hopen as <-.
  split; [apply lookup_insert_eq|].
  unfold read, os.Open. cbn [os.files]. rewrite lookup_insert_eq. reflexivity.
Qed.

Lemma serve_WriteMessage (fs : os.FS) (readings : Readings)
  (dataDir : string) (w : nat) :
  serve dataDir fs (WriteMessage readings w) =
    match os.OpenFile fs (filename dataDir (Sensor_id readings)) with
    | inl _ => Returns (fs, (w, ErrorWriting))
    | inr _ => Returns (fst (write fs readings dataDir), (w, StatusCreated))
    end.
Proof.
  unfold serve, write.
  destruct (os.OpenFile fs _) as [e|fs1]; [reflexivity|].
  destruct (write_loop fs1 _ _) as [fs2 b2].
  destruct (bufio.Flush fs2 b2) as [[fs3 b3] e]. reflexivity.
Qed.

(** X3. The worker answers a write with status 400 exactly when the log
    cannot be opened, that is when it exists without write permission or
    does not exist and cannot be created, and the disk is then as it was;
    every other write is answered with status 201, whatever became of the
    bytes. *)
Theorem worker_error_writing (fs : os.FS) (readings : Readings)
  (dataDir : string) (w : nat) :
  let refused :=
    match os.files fs !! filename dataDir (Sensor_id readings) with
    | Some f => negb (os.writable f)
    | None => negb (os.may_create fs)
    end in
  serve dataDir fs (WriteMessage readings w) =
    if refused then Returns (fs, (w, ErrorWriting))
    else Returns (fst (write fs readings dataDir), (w, StatusCreated)).
Proof.
  cbv zeta. rewrite serve_WriteMessage. unfold os.OpenFile.
  destruct (os.files fs !! _) as [f|].
  - destruct (os.writable f); reflexivity.
  - destruct (os.may_create fs); reflexivity.
Qed.

End write_always_claims.

(** ** The scanner on any file *)

Lemma scan_from_too_long (pre rest tok : string) :
  contains_byte byte_LF pre = false →
  String.length tok < bufio.MaxScanTokenSize →
  bufio.MaxScanTokenSize ≤ String.length tok + String.length pre →
  bufio.scan_from tok (pre +:+ rest) = ([], true).
Proof.
  revert tok. induction pre as [|c pre IH]; intros tok Hlf Htok Hlen.
  { cbn [String.length] in Hlen. lia. }
  cbn [contains_byte] in Hlf. apply orb_false_iff in Hlf as [Hc Hlf].
  rewrite append_cons. cbn [bufio.scan_from]. rewrite Hc.
  destruct (bufio.MaxScanTokenSize <=? S (String.length tok)) eqn:E;
    [reflexivity|].
  apply Nat.leb_gt in E. cbn [String.length] in Hlen.
  apply IH; [exact Hlf| |];
    rewrite length_append; cbn [String.length]; lia.
Qed.

Lemma scan_from_lines_then (lines : list string) (s : string) :
  Forall line_ok lines →
  bufio.scan_from "" (file_lines lines +:+ s) =
    (lines ++ fst (bufio.scan_from "" s), snd (bufio.scan_from "" s)).
Proof.
  induction 1 as [|ln lines (Hlf & Hcr & Hlen) _ IH].
  { cbn [file_lines]. rewrite append_nil_l.
    destruct (bufio.scan_from "" s); reflexivity. }
  cbn [file_lines]. rewrite append_assoc, append_cons.
  rewrite scan_from_line; [|exact Hlf|rewrite append_nil_l; exact Hlen].
  rewrite IH, append_nil_l, dropCR_id by exact Hcr. reflexivity.
Qed.

Lemma last_byte_cons (c : ascii) (s : string) :
  s ≠ "" → last_byte (String c s) = last_byte s.
Proof. destruct s; [congruence|reflexivity]. Qed.

(** Bytes appended after a complete last line are scanned on their own. *)
Lemma scan_from_app (c d tok : string) :
  last_byte c = Some byte_LF →
  snd (bufio.scan_from tok c) = false →
  bufio.scan_from tok (c +:+ d) =
    (fst (bufio.scan_from tok c) ++ fst (bufio.scan_from "" d),
     snd (bufio.scan_from "" d)).
Proof.
  revert tok. induction c as [|ch c IH]; intros tok Hlast Herr; [discriminate|].
  rewrite append_cons. cbn [bufio.scan_from] in *.
  destruct (Ascii.eqb ch byte_LF) eqn:Hch.
  - destruct c as [|ch' c'] eqn:Ec.
    + rewrite append_nil_l. cbn [bufio.scan_from fst snd app].
      destruct (bufio.scan_from "" d); reflexivity.
    + rewrite <- Ec in *. rewrite last_byte_cons in Hlast by (subst c; discriminate).
      destruct (bufio.scan_from "" c) as [toks tl] eqn:Esc. cbn [snd] in Herr.
      rewrite (IH "" Hlast) by (rewrite Esc; exact Herr).
      rewrite Esc. reflexivity.
  - destruct (bufio.MaxScanTokenSize <=? S (String.length tok)); [discriminate|].
    destruct c as [|ch' c'] eqn:Ec.
    { cbn in Hlast. injection Hlast as ->. rewrite Ascii.eqb_refl in Hch.
      discriminate. }
    rewrite <- Ec in *. rewrite last_byte_cons in Hlast by (subst c; discriminate).
    apply IH; assumption.
Qed.

Lemma drop_last_append (s : string) (c : ascii) :
  drop_last (s +:+ String c "") = s.
Proof.
  induction s as [|x s IH]; [reflexivity|]. rewrite append_cons.
  cbn [drop_last]. rewrite IH.
  destruct s; reflexivity.
Qed.

Lemma dropCR_CR (s : string) : bufio.dropCR (s +:+ String byte_CR "") = s.
Proof.
  unfold bufio.dropCR. rewrite last_byte_append_cons. cbn [last_byte].
  rewrite Ascii.eqb_refl. apply drop_last_append.
Qed.

Lemma scan_from_crlf_lines (lines : list string) :
  Forall (λ ln, contains_byte byte_LF ln = false ∧
                S (String.length ln) < bufio.MaxScanTokenSize) lines →
  bufio.scan_from "" (crlf_lines lines) = (lines, false).
Proof.
  unfold crlf_lines. induction 1 as [|ln lines [Hlf Hlen] _ IH]; [reflexivity|].
  cbn [map file_lines]. rewrite scan_from_line.
  - rewrite IH, append_nil_l, dropCR_CR. reflexivity.
  - rewrite contains_byte_append, Hlf. reflexivity.
  - rewrite append_nil_l, length_append. cbn [String.length]. lia.
Qed.

(** ** The loop of [read] on any tokens *)

Lemma Split_sep (s : string) (sep : ascii) :
  contains_byte sep s = true →
  ∃ t0 t1 more, strings.Split s sep = t0 :: t1 :: more.
Proof.
  induction s as [|c s IH]; [discriminate|]. cbn [contains_byte strings.Split].
  destruct (Ascii.eqb c sep).
  - intros _. pose proof (Split_nonempty s sep) as Hne.
    destruct (strings.Split s sep) as [|t1 more]; [contradiction|]. eauto.
  - cbn [orb]. intros H. destruct (IH H) as (t0 & t1 & more & ->). eauto.
Qed.

Section read_any.
Context {T : strconv.Float64Type} {F : strconv.Float64}.

Lemma decode_no_space (text : string) :
  contains_byte byte_space text = false →
  decode text = Panics (IndexOutOfRange 1 1).
Proof.
  intros H. unfold decode. rewrite Split_no_sep by exact H. reflexivity.
Qed.

Lemma decode_fields (text t0 t1 : string) (more : list string) :
  strings.Split text byte_space = t0 :: t1 :: more →
  decode text =
    Returns {| Timestamp := t0; Value := fst (strconv.ParseFloat t1) |}.
Proof.
  intros H. unfold decode. rewrite H. cbn [lookup list_lookup].
  destruct (strconv.ParseFloat t1). reflexivity.
Qed.

Lemma decode_space (text : string) :
  contains_byte byte_space text = true → ∃ r, decode text = Returns r.
Proof.
  intros H. destruct (Split_sep _ _ H) as (t0 & t1 & more & Hs).
  rewrite (decode_fields _ _ _ _ Hs). eauto.
Qed.

Lemma scan_loop_app (tokens1 tokens2 : list string) (acc : list Reading) :
  scan_loop (tokens1 ++ tokens2) acc =
    match scan_loop tokens1 acc with
    | Panics e => Panics e
    | Returns readings => scan_loop tokens2 readings
    end.
Proof.
  revert acc. induction tokens1 as [|t ts IH]; intros acc; [reflexivity|].
  cbn [app scan_loop]. destruct (decode t); [apply IH|reflexivity].
Qed.

Lemma scan_loop_returns (tokens : list string) (acc : list Reading) :
  Forall (λ t, contains_byte byte_space t = true) tokens →
  ∃ readings, scan_loop tokens acc = Returns readings.
Proof.
  intros H. revert acc. induction H as [|t ts Ht _ IH]; intros acc.
  { cbn. eauto. }
  cbn [scan_loop]. destruct (decode_space _ Ht) as [r ->]. apply IH.
Qed.

Lemma scan_loop_panics (tokens : list string) (acc : list Reading) :
  Exists (λ t, contains_byte byte_space t = false) tokens →
  scan_loop tokens acc = Panics (IndexOutOfRange 1 1).
Proof.
  intros H. revert acc. induction tokens as [|t ts IH]; intros acc.
  { inversion H. }
  cbn [scan_loop]. destruct (contains_byte byte_space t) eqn:Ht.
  - destruct (decode_space _ Ht) as [r ->]. apply IH.
    inversion H as [? ? Hno|]; [congruence|assumption].
  - rewrite decode_no_space by exact Ht. reflexivity.
Qed.

(** X7. A [read] that has opened the log returns exactly when every line
    the scanner delivers holds a space; when one does not, an empty line
    included, it panics at [split[1]], index 1 being out of range for a
    slice of length 1. *)
Theorem read_returns_iff_spaces (fs : os.FS) (sensorId : N)
  (dataDir file : string) :
  os.Open fs (filename dataDir sensorId) = inr file →
  (Forall (λ t, contains_byte byte_space t = true) (bufio.Scanner_tokens file) →
   ∃ out, read fs sensorId dataDir =
            Returns {| Sensor_id := sensorId; Readings' := out |}) ∧
  (Exists (λ t, contains_byte byte_space t = false) (bufio.Scanner_tokens file) →
   read fs sensorId dataDir = Panics (IndexOutOfRange 1 1)).
Proof.
  intros Hopen. unfold read. rewrite Hopen. split; intros H.
  - destruct (scan_loop_returns _ [] H) as [rs ->]. eauto.
  - rewrite scan_loop_panics by exact H. reflexivity.
Qed.

(** X8. The loop of [read] looks at the first two fields of a line only:
    whatever follows a second space is dropped.  So a reading whose
    timestamp holds a space is read back with the timestamp cut at that
    space and with the value parsed from the text that followed it. *)
Theorem decode_first_two_fields (ts field rest : string) (r : Reading)
  (date time : string) :
  contains_byte byte_space ts = false →
  contains_byte byte_space field = false →
  contains_byte byte_space date = false →
  contains_byte byte_space time = false →
  Timestamp r = date +:+ " " +:+ time →
  decode (ts +:+ " " +:+ field +:+ " " +:+ rest) =
    Returns {| Timestamp := ts; Value := fst (strconv.ParseFloat field) |} ∧
  decode (encode r) =
    Returns {| Timestamp := date; Value := fst (strconv.ParseFloat time) |}.
Proof.
  intros Hts Hfield Hdate Htime Hr. split.
  - eapply decode_fields.
    change (" " +:+ field +:+ " " +:+ rest)
      with (String byte_space (field +:+ String byte_space rest)).
    rewrite Split_append by exact Hts. rewrite Split_append by exact Hfield.
    reflexivity.
  - unfold encode. rewrite Hr. rewrite !append_assoc.
    eapply decode_fields.
    change (" " +:+ time +:+ " " +:+ strconv.FormatFloat (Value r))
      with (String byte_space
              (time +:+ String byte_space (strconv.FormatFloat (Value r)))).
    rewrite Split_append by exact Hdate. rewrite Split_append by exact Htime.
    reflexivity.
Qed.

End read_any.

Section read_logs.
Context {T : strconv.Float64Type} {F : strconv.Float64}
  {Laws : strconv.Float64Laws F}.

(** X6. [read] does not look at the error of the scanner.  When a line of
    the log has 65536 bytes or more, the scanner gives up there with
    [ErrTooLong], and [read] returns the readings of the lines before it,
    in order, as if the log ended there. *)
Theorem read_stops_at_long_line (fs : os.FS) (sensorId : N)
  (dataDir : string) (f : os.inode) (readings : list Reading)
  (long rest : string) :
  os.files fs !! filename dataDir sensorId = Some f →
  os.readable f = true →
  os.contents f = lines_of readings +:+ long +:+ rest →
  Forall reading_ok readings →
  contains_byte byte_LF long = false →
  bufio.MaxScanTokenSize ≤ String.length long →
  bufio.Scanner_Err (os.contents f) = true ∧
  read fs sensorId dataDir =
    Returns {| Sensor_id := sensorId;
               Readings' := sort.Slice less readings |}.
Proof.
  intros Hf Hrd Hc Hok Hlf Hlen.
  assert (Hscan : bufio.scan_from "" (os.contents f) =
                    (map encode readings, true)).
  { rewrite Hc. unfold lines_of. rewrite scan_from_lines_then.
    - rewrite (scan_from_too_long long rest ""); [|exact Hlf| |exact Hlen].
      + cbn [fst snd]. rewrite app_nil_r. reflexivity.
      + apply Nat.ltb_lt. reflexivity.
    - apply Forall_fmap. eapply Forall_impl; [exact Hok|]. apply encode_line_ok. }
  split; [unfold bufio.Scanner_Err; rewrite Hscan; reflexivity|].
  unfold read, os.Open, bufio.Scanner_tokens. rewrite Hf, Hrd, Hscan.
  cbn [fst]. rewrite scan_loop_encode by exact Hok. reflexivity.
Qed.

(** X9. A log whose lines end in a carriage return and a newline, the
    lines being those of readings with timestamps without space or
    newline and staying, carriage return included, below the largest
    token of the scanner, is read as the same log with lines that end in
    a newline: the scanner drops the carriage return. *)
Theorem read_crlf (fs : os.FS) (sensorId : N) (dataDir : string)
  (f : os.inode) (readings : list Reading) :
  os.files fs !! filename dataDir sensorId = Some f →
  os.readable f = true →
  os.contents f = crlf_lines (map encode readings) →
  Forall reading_ok readings →
  Forall (λ r, S (String.length (encode r)) < bufio.MaxScanTokenSize) readings →
  read fs sensorId dataDir =
    Returns {| Sensor_id := sensorId;
               Readings' := sort.Slice less readings |}.
Proof.
  intros Hf Hrd Hc Hok Hlen.
  unfold read, os.Open, bufio.Scanner_tokens. rewrite Hf, Hrd, Hc.
  rewrite scan_from_crlf_lines.
  - cbn [fst]. rewrite scan_loop_encode by exact Hok. reflexivity.
  - apply Forall_fmap. apply Forall_forall. intros r Hr.
    rewrite Forall_forall in Hok, Hlen. split; [|apply Hlen, Hr].
    apply encode_line_ok, Hok, Hr.
Qed.

(** X5. Reading after an append.  Let the log exist, readable and
    writable, hold complete lines only, the scanner reach its end, and the
    loop of [read] decode it to the readings [old].  After a [write] of a
    batch of readings with timestamps without space or newline and with
    encoded lines below the largest token of the scanner, on a device with
    room, [read] returns the readings [old] followed by the batch, sorted:
    nothing that was there is lost. *)
Theorem read_after_write (fs : os.FS) (batch : Readings) (dataDir : string)
  (f : os.inode) (old : list Reading) :
  os.files fs !! filename dataDir (Sensor_id batch) = Some f →
  os.readable f = true → os.writable f = true →
  os.contents f = "" ∨ last_byte (os.contents f) = Some byte_LF →
  bufio.Scanner_Err (os.contents f) = false →
  scan_loop (bufio.Scanner_tokens (os.contents f)) [] = Returns old →
  Forall reading_ok (Readings' batch) →
  String.length (lines_of (Readings' batch)) ≤ os.free fs →
  ∃ fs',
    write fs batch dataDir = (fs', None) ∧
    read fs' (Sensor_id batch) dataDir =
      Returns {| Sensor_id := Sensor_id batch;
                 Readings' := sort.Slice less (old ++ Readings' batch) |}.
Proof.
  intros Hf Hrd Hwr Hend Herr Hold Hok Hroom.
  assert (Hopen : os.OpenFile fs (filename dataDir (Sensor_id batch)) = inr fs).
  { unfold os.OpenFile. rewrite Hf, Hwr. reflexivity. }
  destruct (write_fits fs batch dataDir fs Hopen Hroom)
    as (fs' & f' & Hw & Hf' & Hc' & Hrd' & _).
  exists fs'. split; [exact Hw|].
  rewrite Hf, Hrd in Hrd'. unfold log_contents in Hc'. rewrite Hf in Hc'.
  unfold read, os.Open. rewrite Hf', Hrd', Hc'.
  assert (Htok : bufio.Scanner_tokens
                   (os.contents f +:+ lines_of (Readings' batch)) =
                 bufio.Scanner_tokens (os.contents f)
                 ++ map encode (Readings' batch)).
  { rewrite <- (Scanner_tokens_lines_of _ Hok). unfold bufio.Scanner_tokens.
    destruct Hend as [Hempty|Hlast].
    - rewrite Hempty, append_nil_l. reflexivity.
    - rewrite scan_from_app by assumption. reflexivity. }
  rewrite Htok, scan_loop_app, Hold, scan_loop_encode by exact Hok.
  reflexivity.
Qed.

End read_logs.

(** ** strconv.ParseUint in base 10 on 32 bits *)

Lemma uint64_small (n : N) : (n < 18446744073709551616)%N → strconv.uint64 n = n.
Proof. intros H. unfold strconv.uint64. apply N.mod_small. exact H. Qed.

Lemma ParseUint_10_32 (s : string) :
  s ≠ "" →
  strconv.ParseUint s 10 32 =
    strconv.ParseUint_loop s 10 1844674407370955162 4294967295 0.
Proof. destruct s; [congruence|reflexivity]. Qed.

(** In base 10 the digits are the bytes [0] to [9]: a letter stands for a
    digit from ten on, which the loop refuses. *)
Lemma digit_value_10 (c : ascii) :
  match strconv.digit_value c with
  | Some d => if is_digit c then d = (N_of_ascii c - 48)%N ∧ (d < 10)%N
              else (10 ≤ d)%N
  | None => is_digit c = false
  end.
Proof.
  unfold strconv.digit_value, is_digit. cbv zeta.
  destruct ((48 <=? N_of_ascii c)%N && (N_of_ascii c <=? 57)%N) eqn:E.
  - apply andb_true_iff in E as [E1 E2].
    apply N.leb_le in E1, E2. lia.
  - destruct ((97 <=? strconv.lower (N_of_ascii c))%N
              && (strconv.lower (N_of_ascii c) <=? 122)%N) eqn:E'; [|reflexivity].
    apply andb_true_iff in E' as [E1 E2]. apply N.leb_le in E1, E2. lia.
Qed.

Lemma decimal_from_ge (s : string) (n : N) : (n ≤ decimal_from n s)%N.
Proof.
  revert n. induction s as [|c s IH]; intros n; cbn [decimal_from]; [lia|].
  etransitivity; [|apply IH]. lia.
Qed.

(** One turn of the loop on a digit, from a value of 32 bits. *)
Lemma ParseUint_loop_digit (c : ascii) (s : string) (n : N) :
  is_digit c = true → (n ≤ 4294967295)%N →
  strconv.ParseUint_loop (String c s) 10 1844674407370955162 4294967295 n =
    if (4294967295 <? n * 10 + (N_of_ascii c - 48))%N
    then (4294967295%N, Some strconv.ErrRange)
    else strconv.ParseUint_loop s 10 1844674407370955162 4294967295
           (n * 10 + (N_of_ascii c - 48)).
Proof.
  intros Hc Hn. cbn [strconv.ParseUint_loop].
  pose proof (digit_value_10 c) as Hd. rewrite Hc in Hd.
  destruct (strconv.digit_value c) as [d|]; [|discriminate].
  destruct Hd as [-> Hd].
  destruct (10 <=? N_of_ascii c - 48)%N eqn:E1; [apply N.leb_le in E1; lia|].
  destruct (1844674407370955162 <=? n)%N eqn:E2; [apply N.leb_le in E2; lia|].
  cbv zeta. rewrite (uint64_small (n * 10)) by lia.
  rewrite uint64_small by lia.
  destruct (n * 10 + (N_of_ascii c - 48) <? n * 10)%N eqn:E3;
    [apply N.ltb_lt in E3; lia|].
  reflexivity.
Qed.

Lemma ParseUint_loop_no_digit (c : ascii) (s : string) (n v : N) :
  is_digit c = false →
  strconv.ParseUint_loop (String c s) 10 1844674407370955162 4294967295 n
    ≠ (v, None).
Proof.
  intros Hc. cbn [strconv.ParseUint_loop].
  pose proof (digit_value_10 c) as Hd. rewrite Hc in Hd.
  destruct (strconv.digit_value c) as [d|]; [|discriminate].
  destruct (10 <=? d)%N eqn:E; [discriminate|]. apply N.leb_gt in E. lia.
Qed.

Lemma ParseUint_loop_accepts (s : string) (n v : N) :
  (n ≤ 4294967295)%N →
  strconv.ParseUint_loop s 10 1844674407370955162 4294967295 n = (v, None) ↔
  all_digits s = true ∧ decimal_from n s = v ∧ (v ≤ 4294967295)%N.
Proof.
  revert n. induction s as [|c s IH]; intros n Hn.
  { cbn. split; [intros [= <-]; auto|intros (_ & <- & _); reflexivity]. }
  cbn [all_digits decimal_from]. destruct (is_digit c) eqn:Hc.
  - rewrite ParseUint_loop_digit by assumption. cbn [andb].
    destruct (4294967295 <? n * 10 + (N_of_ascii c - 48))%N eqn:E.
    + apply N.ltb_lt in E. split; [discriminate|]. intros (_ & <- & Hv).
      pose proof (decimal_from_ge s (n * 10 + (N_of_ascii c - 48))). lia.
    + apply N.ltb_ge in E. apply IH, E.
  - cbn [andb]. split; [|intros [[=] _]].
    intros H. exfalso. revert H. apply ParseUint_loop_no_digit, Hc.
Qed.

Lemma ParseUint_accepts_iff (s : string) (v : N) :
  strconv.ParseUint s 10 32 = (v, None) ↔
  s ≠ "" ∧ all_digits s = true ∧ decimal s = v ∧ (v < 2 ^ 32)%N.
Proof.
  destruct s as [|c s].
  { split; [discriminate|intros [H _]; congruence]. }
  rewrite ParseUint_10_32 by discriminate.
  rewrite ParseUint_loop_accepts by lia. unfold decimal.
  change (2 ^ 32)%N with 4294967296%N.
  split; intros (H1 & H2 & H3); repeat split; try discriminate; try assumption; lia.
Qed.

(** X11. [ParseUint(s, 10, 32)] returns without error exactly on the
    non-empty strings of decimal digits that denote a number below 2^32,
    and returns that number: no sign, no space, no other base; zeros in
    front are allowed, so that a number has many accepted texts. *)
Theorem ParseUint_accepts (s : string) (v : N) :
  (strconv.ParseUint s 10 32 = (v, None) ↔
   s ≠ "" ∧ all_digits s = true ∧ decimal s = v ∧ (v < 2 ^ 32)%N) ∧
  (strconv.ParseUint s 10 32 = (v, None) →
   strconv.ParseUint (String "0" s) 10 32 = (v, None)).
Proof.
  split; [apply ParseUint_accepts_iff|].
  intros H. apply ParseUint_accepts_iff in H as (Hne & Hd & Hv & Hlt).
  apply ParseUint_accepts_iff. split; [discriminate|].
  split; [cbn [all_digits]; rewrite Hd; reflexivity|]. split; [|exact Hlt].
  unfold decimal in *. cbn [decimal_from]. exact Hv.
Qed.

Lemma digit_pretty_N_char (d : N) :
  (d < 10)%N →
  is_digit (pretty_N_char d) = true ∧
  (N_of_ascii (pretty_N_char d) - 48)%N = d.
Proof.
  intros Hd.
  assert (d = 0 ∨ d = 1 ∨ d = 2 ∨ d = 3 ∨ d = 4 ∨ d = 5 ∨ d = 6 ∨ d = 7
          ∨ d = 8 ∨ d = 9)%N as H by lia.
  repeat (destruct H as [->|H]; [split; reflexivity|]). subst d.
  split; reflexivity.
Qed.

Lemma ParseUint_loop_pretty_N_go (x : N) (s : string) :
  (0 < x ≤ 4294967295)%N →
  strconv.ParseUint_loop (pretty_N_go x s) 10 1844674407370955162 4294967295 0 =
    strconv.ParseUint_loop s 10 1844674407370955162 4294967295 x.
Proof.
  revert s. induction (N.lt_wf_0 x) as [x _ IH]. intros s Hx.
  rewrite pretty_N_go_step by lia.
  pose proof (N.mod_lt x 10 ltac:(lia)) as Hmod.
  pose proof (N.div_mod x 10 ltac:(lia)) as Hdiv.
  destruct (digit_pretty_N_char (x `mod` 10) Hmod) as [Hdig Hval].
  assert (Hstep :
    strconv.ParseUint_loop (String (pretty_N_char (x `mod` 10)) s) 10
      1844674407370955162 4294967295 (x `div` 10) =
    strconv.ParseUint_loop s 10 1844674407370955162 4294967295 x).
  { rewrite ParseUint_loop_digit by (exact Hdig || lia). rewrite Hval.
    replace (x `div` 10 * 10 + x `mod` 10)%N with x by lia.
    destruct (4294967295 <? x)%N eqn:E; [apply N.ltb_lt in E; lia|reflexivity]. }
  destruct (decide (x `div` 10 = 0)%N) as [H0|H0].
  - rewrite H0 in *. rewrite pretty_N_go_0. exact Hstep.
  - rewrite IH; [exact Hstep| |]; lia.
Qed.

Lemma pretty_N_go_nonempty (x : N) (s : string) :
  s ≠ "" → pretty_N_go x s ≠ "".
Proof.
  revert s. induction (N.lt_wf_0 x) as [x _ IH]. intros s Hs.
  destruct (decide (x = 0)%N) as [->|H0]; [rewrite pretty_N_go_0; exact Hs|].
  rewrite pretty_N_go_step by lia. apply IH; [|discriminate].
  apply N.div_lt; lia.
Qed.

Lemma ParseUint_pretty_id (n : N) :
  (n < 2 ^ 32)%N →
  strconv.ParseUint (pretty n) 10 32 = (n, None) ∧ uint32 n = n.
Proof.
  change (2 ^ 32)%N with 4294967296%N. intros Hn. split.
  - unfold pretty, pretty_N. destruct (decide (n = 0)%N) as [->|H0];
      [reflexivity|].
    assert (Hne : pretty_N_go n "" ≠ "").
    { rewrite pretty_N_go_step by lia. apply pretty_N_go_nonempty. discriminate. }
    rewrite ParseUint_10_32 by exact Hne.
    rewrite ParseUint_loop_pretty_N_go by lia. reflexivity.
  - unfold uint32. apply N.mod_small. exact Hn.
Qed.

(** X10. The decimal text that [Sprintf] with the verb [%d] gives a
    sensor id, the text that ends the name of its log, is parsed back by
    [ParseUint(s, 10, 32)] to that id, without error, and the conversion
    to [uint32] leaves it as it is; so the log that [read] opens for the
    id parsed from that text is the log of that id. *)
Theorem ParseUint_pretty (dataDir : string) (n : N) :
  (n < 2 ^ 32)%N →
  strconv.ParseUint (pretty n) 10 32 = (n, None) ∧ uint32 n = n ∧
  filename dataDir (uint32 (fst (strconv.ParseUint (pretty n) 10 32))) =
    dataDir +:+ pretty n.
Proof.
  intros Hn. destruct (ParseUint_pretty_id n Hn) as [HP Hu].
  rewrite HP. cbn [fst]. rewrite Hu. auto.
Qed.

(** ** The handlers *)

Lemma length_pos_nonempty (s : string) :
  (0 <? String.length s) = negb (String.eqb s "").
Proof. destruct s; reflexivity. Qed.

Section handlers_proofs.
Context {T : strconv.Float64Type} {F : strconv.Float64}.
Context (json_Marshal : Readings → string).
Context (json_Decode : string → option Readings).

(** X12. [getReading] sends a message to the worker exactly when
    [sensor_id] is a non-empty string of decimal digits that denotes a
    number below 2^32, and the message carries that number, not a
    truncation of it.  Without [sensor_id], or with an empty one, it
    answers 400 with its text for a missing parameter; in every other case
    400 with its text for an invalid id. *)
Theorem getReading_cases (h : nat) (w : http.ResponseWriter)
  (req : http.Request) :
  let id := http.FormValue req "sensor_id" in
  getReading h w req =
    if String.eqb id "" then
      Responded (http.Error w "Error: sensor_id not provided"
                   http.StatusBadRequest)
    else if all_digits id && (decimal id <? 2 ^ 32)%N then
      Sent (ReadMessage (decimal id) h)
    else
      Responded (http.Error w "invalid sensor id" http.StatusBadRequest).
Proof.
  cbv zeta. unfold getReading. rewrite length_pos_nonempty.
  destruct (String.eqb (http.FormValue req "sensor_id") "") eqn:Eid;
    [reflexivity|]. cbn [negb].
  apply String.eqb_neq in Eid.
  destruct (strconv.ParseUint (http.FormValue req "sensor_id") 10 32)
    as [v [e|]] eqn:EP.
  - destruct (all_digits _ && _) eqn:Ev; [|reflexivity].
    apply andb_true_iff in Ev as [Hd Hv]. apply N.ltb_lt in Hv.
    assert (HP : strconv.ParseUint (http.FormValue req "sensor_id") 10 32 =
                 (decimal (http.FormValue req "sensor_id"), None)).
    { apply ParseUint_accepts_iff. auto. }
    congruence.
  - apply ParseUint_accepts_iff in EP as (_ & Hd & Hdec & Hv).
    rewrite Hd, Hdec. apply N.ltb_lt in Hv as Hv'. rewrite Hv'. cbn [andb].
    unfold uint32. rewrite N.mod_small by exact Hv. reflexivity.
Qed.

Lemma serve_ReadMessage (dataDir : string) (fs : os.FS) (sensorId : N)
  (h : nat) :
  serve dataDir fs (ReadMessage sensorId h) =
    match read fs sensorId dataDir with
    | Returns readings => Returns (fs, (h, Body readings))
    | Panics e => Panics e
    end.
Proof. unfold serve. destruct (read fs sensorId dataDir); reflexivity. Qed.

Lemma handleReadings_GET (h : nat) (w : http.ResponseWriter)
  (req : http.Request) (n : N) :
  http.Method req = "GET" →
  http.FormValue req "sensor_id" = pretty n →
  (n < 2 ^ 32)%N →
  handleReadings json_Decode h w req = Sent (ReadMessage n h).
Proof.
  intros Hm Hid Hn. unfold handleReadings, getReading.
  rewrite Hm, Hid. cbn [String.eqb Ascii.eqb Bool.eqb http.MethodGet].
  destruct (ParseUint_pretty_id n Hn) as [HP Hu]. rewrite HP, Hu.
  assert (Hlen : (0 <? String.length (pretty n)) = true).
  { rewrite length_pos_nonempty. destruct (String.eqb (pretty n) "") eqn:E;
      [|reflexivity].
    apply String.eqb_eq in E. rewrite E in HP. discriminate. }
  rewrite Hlen. reflexivity.
Qed.

(** X13. A GET of [/readings] whose [sensor_id] is the decimal text of an
    id below 2^32 is answered with status 200 and the JSON of what [read]
    returns for that id, the log whose name ends in that text; the disk is
    not changed.  When [read] panics there is no answer. *)
Theorem get_request (dataDir : string) (fs : os.FS) (req : http.Request)
  (n : N) :
  http.Method req = "GET" →
  http.FormValue req "sensor_id" = pretty n →
  (n < 2 ^ 32)%N →
  request json_Marshal json_Decode dataDir fs req =
    match read fs n dataDir with
    | Returns readings =>
        Returns (fs, {| http.Header := ∅; http.status := Some 200;
                        http.body := json_Marshal readings |})
    | Panics e => Panics e
    end.
Proof.
  intros Hm Hid Hn. unfold request.
  rewrite (handleReadings_GET _ _ _ n Hm Hid Hn), serve_ReadMessage.
  destruct (read fs n dataDir); reflexivity.
Qed.

(** X14. Whatever the request to [/readings], the answer has status 200,
    201 or 400; status 200 is given to a GET only and status 201 to a
    POST only; and the disk is changed by nothing but a POST that is
    answered with status 201. *)
Theorem request_status (dataDir : string) (fs fs' : os.FS)
  (req : http.Request) (w : http.ResponseWriter) :
  request json_Marshal json_Decode dataDir fs req = Returns (fs', w) →
  (http.status w = Some 200 ∧ http.Method req = "GET" ∧ fs' = fs) ∨
  (http.status w = Some 201 ∧ http.Method req = "POST") ∨
  (http.status w = Some 400 ∧ fs' = fs).
Proof.
  unfold request, handleReadings.
  destruct (String.eqb (http.Method req) http.MethodGet) eqn:Eg.
  - apply String.eqb_eq in Eg. unfold getReading.
    destruct (0 <? _); [|intros [= <- <-]; auto].
    destruct (strconv.ParseUint _ 10 32) as [v [e|]];
      [intros [= <- <-]; auto|].
    rewrite serve_ReadMessage. destruct (read fs _ dataDir); [|discriminate].
    intros [= <- <-]. auto.
  - destruct (String.eqb (http.Method req) http.MethodPost) eqn:Ep;
      [|intros [= <- <-]; auto].
    apply String.eqb_eq in Ep. unfold postReading.
    destruct (json_Decode _) as [readings|]; [|intros [= <- <-]; auto].
    rewrite serve_WriteMessage.
    destruct (os.OpenFile fs _); intros [= <- <-]; auto.
Qed.

(** [handleHello] on a fresh writer: without a first value of
    [name] in the form, or with an empty one, the answer is status 400
    with the text of the error; otherwise it is status 200 with the name
    copied as it is between the two parts of the message. *)
Theorem handleHello_cases (req : http.Request) :
  handleHello http.NewResponse req =
    match http.Form req !! "name" with
    | Some (String c s :: _) =>
        {| http.Header := ∅; http.status := Some 200;
           http.body :=
             "{" +:+ String byte_quote "message" +:+ String byte_quote ": "
             +:+ String byte_quote "Hello " +:+ String c s
             +:+ String byte_quote "}" |}
    | _ =>
        {| http.Header :=
             {[ "Content-Type" := ["text/plain; charset=utf-8"];
                "X-Content-Type-Options" := ["nosniff"] ]};
           http.status := Some 400;
           http.body := "Error: name not provided" +:+ newline |}
    end.
Proof.
  unfold handleHello, http.FormValue.
  assert (Herr : http.Error http.NewResponse "Error: name not provided"
                   http.StatusBadRequest =
    {| http.Header :=
         {[ "Content-Type" := ["text/plain; charset=utf-8"];
            "X-Content-Type-Options" := ["nosniff"] ]};
       http.status := Some 400;
       http.body := "Error: name not provided" +:+ newline |}).
  { unfold http.Error, http.Header_Del, http.Header_Set, http.Write,
      http.WriteHeader, http.NewResponse. cbn [http.Header http.status http.body].
    reflexivity. }
  destruct (http.Form req !! "name") as [[|[|c s] vs]|]; try exact Herr.
  reflexivity.
Qed.

End handlers_proofs.

(** ** The worker *)
Section worker.
Context {T : strconv.Float64Type} {F : strconv.Float64}.

Lemma serve_writer_of (dataDir : string) (fs fs' : os.FS) (m : Message)
  (r : nat * Response) :
  serve dataDir fs m = Returns (fs', r) → fst r = writer_of m.
Proof.
  destruct m as [sensorId h|readings h].
  - rewrite serve_ReadMessage. destruct (read fs sensorId dataDir);
      [|discriminate]. intros [= _ <-]. reflexivity.
  - rewrite serve_WriteMessage. destruct (os.OpenFile fs _);
      intros [= _ <-]; reflexivity.
Qed.

(** X15. However the worker runs, each response it has delivered goes to
    the handler of one message that was pending, each served message has
    one response, and no handler that is still blocked has got one: the
    handlers answered, followed by the handlers blocked, are the handlers
    that were blocked at the start. *)
Theorem worker_answers_once (dataDir : string) (s s' : Server) :
  rtc (step dataDir) s s' →
  ∃ rs, delivered s' = delivered s ++ rs ∧
        map fst rs ++ map writer_of (blocked s') ≡ₚ map writer_of (blocked s).
Proof.
  induction 1 as [s|s s1 s' Hstep _ (rs & Hd & Hp)].
  { exists []. rewrite app_nil_r. auto. }
  destruct Hstep as [s pre post m fs r Hb Hserve].
  cbn [delivered blocked] in *.
  exists (r :: rs). split.
  - rewrite Hd, <- app_assoc. reflexivity.
  - rewrite Hb. rewrite map_app in Hp. rewrite map_app. cbn [map].
    rewrite (serve_writer_of _ _ _ _ _ Hserve). cbn [app].
    rewrite <- Permutation_middle. constructor. exact Hp.
Qed.

End worker.

(** ** A POST, then a GET *)
Section post_get.
Context {T : strconv.Float64Type} {F : strconv.Float64}
  {Laws : strconv.Float64Laws F}.
Context (json_Marshal : Readings → string).
Context (json_Decode : string → option Readings).


End post_get.

(** ** Writes for two sensors *)
Section two_sensors.
Context {T : strconv.Float64Type} {F : strconv.Float64}.

Lemma inode_eq (f g : os.inode) :
  os.contents f = os.contents g → os.readable f = os.readable g →
  os.writable f = os.writable g → f = g.
Proof. destruct f, g. cbn. intros -> -> ->. reflexivity. Qed.

Lemma FS_eq (fs1 fs2 : os.FS) :
  (∀ k, os.files fs1 !! k = os.files fs2 !! k) →
  os.may_create fs1 = os.may_create fs2 → os.free fs1 = os.free fs2 →
  fs1 = fs2.
Proof.
  destruct fs1, fs2. cbn. intros H -> ->. f_equal. apply map_eq, H.
Qed.

Lemma OpenFile_other (fs fs' fs1 : os.FS) (name : string) :
  os.files fs' !! name = os.files fs !! name →
  os.may_create fs' = os.may_create fs →
  os.OpenFile fs name = inr fs1 → ∃ fs1', os.OpenFile fs' name = inr fs1'.
Proof.
  unfold os.OpenFile. intros -> ->.
  destruct (os.files fs !! name) as [f|].
  - destruct (os.writable f); [eauto|discriminate].
  - destruct (os.may_create fs); [eauto|discriminate].
Qed.

(** what a [write] with room leaves, told from the file system before *)
Lemma write_fits_other (fs : os.FS) (a b : Readings) (dataDir : string)
  (fsa : os.FS) :
  Sensor_id a ≠ Sensor_id b →
  os.OpenFile fs (filename dataDir (Sensor_id a)) = inr fsa →
  (∃ fsb, os.OpenFile fs (filename dataDir (Sensor_id b)) = inr fsb) →
  String.length (lines_of (Readings' a)) + String.length (lines_of (Readings' b))
    ≤ os.free fs →
  ∃ fs1 fs2 fa fb,
    write fs a dataDir = (fs1, None) ∧ write fs1 b dataDir = (fs2, None) ∧
    os.files fs2 !! filename dataDir (Sensor_id a) = Some fa ∧
    os.files fs2 !! filename dataDir (Sensor_id b) = Some fb ∧
    os.contents fa = log_contents fs (filename dataDir (Sensor_id a))
                     +:+ lines_of (Readings' a) ∧
    os.readable fa = match os.files fs !! filename dataDir (Sensor_id a) with
                     | Some f => os.readable f | None => true end ∧
    os.writable fa = true ∧
    os.contents fb = log_contents fs (filename dataDir (Sensor_id b))
                     +:+ lines_of (Readings' b) ∧
    os.readable fb = match os.files fs !! filename dataDir (Sensor_id b) with
                     | Some f => os.readable f | None => true end ∧
    os.writable fb = true ∧
    os.free fs2 = os.free fs - String.length (lines_of (Readings' a))
                  - String.length (lines_of (Readings' b)) ∧
    os.may_create fs2 = os.may_create fs ∧
    (∀ other, other ≠ filename dataDir (Sensor_id a) →
              other ≠ filename dataDir (Sensor_id b) →
              os.files fs2 !! other = os.files fs !! other).
Proof.
  intros Hne Hopa [fsb Hopb] Hroom.
  assert (Hnames : filename dataDir (Sensor_id b) ≠ filename dataDir (Sensor_id a)).
  { intros H. apply filename_inj in H. congruence. }
  destruct (write_fits fs a dataDir fsa Hopa ltac:(lia))
    as (fs1 & fa & Hw1 & Hfa & Hca & Hra & Hwa & Hfree1 & Hmc1 & Hoth1).
  destruct (OpenFile_other fs fs1 fsb _ (Hoth1 _ Hnames) Hmc1 Hopb)
    as [fsb' Hopb'].
  destruct (write_fits fs1 b dataDir fsb' Hopb' ltac:(lia))
    as (fs2 & fb & Hw2 & Hfb & Hcb & Hrb & Hwb & Hfree2 & Hmc2 & Hoth2).
  exists fs1, fs2, fa, fb. split; [exact Hw1|]. split; [exact Hw2|].
  split; [rewrite Hoth2 by congruence; exact Hfa|]. split; [exact Hfb|].
  split; [exact Hca|]. split; [exact Hra|]. split; [exact Hwa|].
  unfold log_contents in Hcb. rewrite (Hoth1 _ Hnames) in Hcb, Hrb.
  split; [exact Hcb|]. split; [exact Hrb|]. split; [exact Hwb|].
  split; [lia|]. split; [congruence|].
  intros other H1 H2. rewrite Hoth2, Hoth1 by assumption. reflexivity.
Qed.

(** X17. Writes for two different sensors that can open their logs, on a
    device with room for the lines of both, return no error and leave the
    same disk whichever is served first. *)
Theorem writes_commute (fs : os.FS) (a b : Readings) (dataDir : string)
  (fsa fsb : os.FS) :
  Sensor_id a ≠ Sensor_id b →
  os.OpenFile fs (filename dataDir (Sensor_id a)) = inr fsa →
  os.OpenFile fs (filename dataDir (Sensor_id b)) = inr fsb →
  String.length (lines_of (Readings' a)) + String.length (lines_of (Readings' b))
    ≤ os.free fs →
  ∃ fs1 fs1' fs2,
    write fs a dataDir = (fs1, None) ∧ write fs1 b dataDir = (fs2, None) ∧
    write fs b dataDir = (fs1', None) ∧ write fs1' a dataDir = (fs2, None).
Proof.
  intros Hne Hopa Hopb Hroom.
  destruct (write_fits_other fs a b dataDir fsa Hne Hopa (ex_intro _ _ Hopb) Hroom)
    as (fs1 & fs2 & fa & fb & Hw1 & Hw2 & Hfa & Hfb & Hca & Hra & Hwa
        & Hcb & Hrb & Hwb & Hfree & Hmc & Hoth).
  destruct (write_fits_other fs b a dataDir fsb (not_eq_sym Hne) Hopb
              (ex_intro _ _ Hopa) ltac:(lia))
    as (fs1' & fs2' & fb' & fa' & Hw1' & Hw2' & Hfb' & Hfa' & Hcb' & Hrb'
        & Hwb' & Hca' & Hra' & Hwa' & Hfree' & Hmc' & Hoth').
  exists fs1, fs1', fs2. split; [exact Hw1|]. split; [exact Hw2|].
  split; [exact Hw1'|]. rewrite Hw2'. f_equal. apply FS_eq.
  - intros k.
    destruct (decide (k = filename dataDir (Sensor_id a))) as [->|Ha].
    { rewrite Hfa, Hfa'. f_equal. apply inode_eq; congruence. }
    destruct (decide (k = filename dataDir (Sensor_id b))) as [->|Hb].
    { rewrite Hfb, Hfb'. f_equal. apply inode_eq; congruence. }
    rewrite Hoth, Hoth' by assumption. reflexivity.
  - congruence.
  - lia.
Qed.

End two_sensors.

(** * Concrete runs, with the reference implementation of [strconv] *)
Module runs.
Import refconv example.

Example filename_1 : filename "/d/" 1 = "/d/1".
Proof. reflexivity. Qed.

(** ** C4: sensor 42 was never written *)

Lemma read_absent_sensor_witness :
  os.files (fresh 0) !! filename "/d/" 42 = None ∧
  (read (fresh 0) 42 "/d/" = Returns (batch 42 []) ∧
   serve "/d/" (fresh 0) (ReadMessage 42 0) =
     Returns (fresh 0, (0, Body (batch 42 [])))).
Proof.
  split; [reflexivity|].
  apply (read_absent_sensor (fresh 0) 42 "/d/" 0). reflexivity.
Defined.

(** ** C10: a log without read permission *)

Lemma read_open_error_witness :
  let fs := store "/d/7" "t 1" false true 0 in
  os.Open fs (filename "/d/" 7) = inl (PathError EACCES) ∧
  (read fs 7 "/d/" = Returns (batch 7 []) ∧
   serve "/d/" fs (ReadMessage 7 0) = Returns (fs, (0, Body (batch 7 []))) ∧
   ∀ fs0, os.files fs0 !! filename "/d/" 7 = None →
          read fs 7 "/d/" = read fs0 7 "/d/").
Proof.
  split; [reflexivity|].
  apply (read_open_error (store "/d/7" "t 1" false true 0) 7 "/d/" 0 (PathError EACCES)).
  reflexivity.
Defined.

(** ** C3: two readings appended to a log of one line *)

Lemma write_appends_witness :
  let fs := store "/d/1" ("old 1" +:+ newline) true true 100 in
  let b := batch 1 [R "2024-01-02" 5; R "2024-01-01" 3] in
  os.OpenFile fs (filename "/d/" (Sensor_id b)) = inr fs ∧
  String.length (lines_of (Readings' b)) ≤ os.free fs ∧
  ∃ fs' f',
    write fs b "/d/" = (fs', None) ∧
    os.files fs' !! filename "/d/" (Sensor_id b) = Some f' ∧
    os.contents f' =
      log_contents fs (filename "/d/" (Sensor_id b)) +:+ lines_of (Readings' b) ∧
    ∀ other, other ≠ filename "/d/" (Sensor_id b) →
             os.files fs' !! other = os.files fs !! other.
Proof.
  cbv zeta.
  assert (H1 : os.OpenFile (store "/d/1" ("old 1" +:+ newline) true true 100)
                 (filename "/d/" 1)
               = inr (store "/d/1" ("old 1" +:+ newline) true true 100))
    by reflexivity.
  assert (H2 : String.length
                 (lines_of [R "2024-01-02" 5; R "2024-01-01" 3]) ≤ 100).
  { apply Nat.leb_le. vm_compute. reflexivity. }
  split; [exact H1|]. split; [exact H2|].
  exact (write_appends _ _ (batch 1 [R "2024-01-02" 5; R "2024-01-01" 3]) "/d/" H1 H2).
Defined.

(** C3 as stated fails: on a device with room for three bytes the log is
    opened and [write] returns no error, but the log does not hold the
    line of the reading after its prior contents: it holds the three
    bytes that fitted. *)
Lemma write_without_room :
  let b := batch 1 [R "2024-01-02" 5] in
  os.OpenFile (fresh 3) (filename "/d/" (Sensor_id b))
    = inr (store "/d/1" "" true true 3) ∧
  snd (write (fresh 3) b "/d/") = None ∧
  log_contents (fst (write (fresh 3) b "/d/")) (filename "/d/" (Sensor_id b))
    = "202" ∧
  log_contents (fst (write (fresh 3) b "/d/")) (filename "/d/" (Sensor_id b))
    ≠ log_contents (fresh 3) (filename "/d/" (Sensor_id b))
      +:+ lines_of (Readings' b).
Proof.
  cbv zeta. split; [reflexivity|]. split; [vm_compute; reflexivity|].
  split; [vm_compute; reflexivity|]. vm_compute. discriminate.
Qed.

Example write_appends_run :
  log_contents
    (fst (write (store "/d/1" ("old 1" +:+ newline) true true 100)
            (batch 1 [R "2024-01-02" 5; R "2024-01-01" 3]) "/d/")) "/d/1"
  = "old 1" +:+ newline +:+ "2024-01-02 5" +:+ newline
    +:+ "2024-01-01 3" +:+ newline.
Proof. vm_compute. reflexivity. Qed.

(** ** C5: one line, one reading *)

Lemma codec_round_trip_witness :
  well_formed_line "2024-01-02 5" ∧
  contains_byte byte_space (Timestamp (R "2024-01-01" 3)) = false ∧
  contains_byte byte_LF (Timestamp (R "2024-01-01" 3)) = false ∧
  ((∃ r', decode "2024-01-02 5" = Returns r' ∧ encode r' = "2024-01-02 5") ∧
   decode (encode (R "2024-01-01" 3)) = Returns (R "2024-01-01" 3)).
Proof.
  assert (H1 : well_formed_line "2024-01-02 5").
  { exists "2024-01-02", (of_Z 5). repeat split; reflexivity. }
  split; [exact H1|]. split; [reflexivity|]. split; [reflexivity|].
  exact (codec_round_trip "2024-01-02 5" (R "2024-01-01" 3) H1 eq_refl eq_refl).
Defined.

(** ** C8: a numeral out of range, a field that is no numeral *)

(** C8 as stated fails: the numeral of [10^309] cannot be parsed as a
    [float64], [ParseFloat] reports [ErrRange] and returns [+Inf], and the
    reading decoded has the value [+Inf], not zero. *)
Lemma decode_out_of_range :
  strings.Split ("t " +:+ numeral_1e309) byte_space = ["t"; numeral_1e309] ∧
  snd (strconv.ParseFloat numeral_1e309) = Some strconv.ErrRange ∧
  decode ("t " +:+ numeral_1e309)
    = Returns {| Timestamp := "t"; Value := Inf false |} ∧
  Inf false ≠ strconv.float64_zero.
Proof.
  split; [vm_compute; reflexivity|]. split; [vm_compute; reflexivity|].
  split; [vm_compute; reflexivity|]. discriminate.
Qed.

Lemma decode_value_error_witness :
  strings.Split ("t " +:+ numeral_1e309) byte_space = ["t"; numeral_1e309] ∧
  snd (strconv.ParseFloat numeral_1e309) = Some strconv.ErrRange ∧
  ∃ value,
    decode ("t " +:+ numeral_1e309) =
      Returns {| Timestamp := "t"; Value := value |} ∧
    scan_loop ["t " +:+ numeral_1e309; "u 1"] [] =
      scan_loop ["u 1"] ([] ++ [{| Timestamp := "t"; Value := value |}]) ∧
    (infinite value ∧ value ≠ strconv.float64_zero).
Proof.
  assert (H1 : strings.Split ("t " +:+ numeral_1e309) byte_space
               = ["t"; numeral_1e309]) by (vm_compute; reflexivity).
  assert (H2 : snd (strconv.ParseFloat numeral_1e309) = Some strconv.ErrRange)
    by (vm_compute; reflexivity).
  split; [exact H1|]. split; [exact H2|].
  exact (decode_value_error ("t " +:+ numeral_1e309) "t" numeral_1e309 []
           strconv.ErrRange ["u 1"] [] H1 H2).
Defined.

Example decode_not_a_float :
  decode "t b" = Returns {| Timestamp := "t"; Value := strconv.float64_zero |}.
Proof. reflexivity. Qed.

(** ** C6: thirteen readings *)

(** C6 as stated fails: of thirteen readings in the log, twelve at the
    timestamp [b] then one at [a], [read] returns those at [b] in another
    order than the file has them. *)
Lemma read_not_stable :
  let fs := fst (write (fresh 1000) (batch 1 thirteen) "/d/") in
  (∃ file, os.Open fs (filename "/d/" 1) = inr file ∧
           scan_loop (bufio.Scanner_tokens file) [] = Returns thirteen) ∧
  read fs 1 "/d/" = Returns (batch 1 thirteen_read) ∧
  with_timestamp "b" thirteen_read ≠ with_timestamp "b" thirteen.
Proof.
  split; [|split].
  - exists (lines_of thirteen). split; vm_compute; reflexivity.
  - vm_compute. reflexivity.
  - vm_compute. discriminate.
Qed.

Lemma read_sorts_by_timestamp_witness :
  let fs := store "/d/1" ("2024-01-02 5" +:+ newline +:+ "2024-01-01 3" +:+ newline)
              true true 0 in
  let file := "2024-01-02 5" +:+ newline +:+ "2024-01-01 3" +:+ newline in
  let readings := [R "2024-01-02" 5; R "2024-01-01" 3] in
  os.Open fs (filename "/d/" 1) = inr file ∧
  scan_loop (bufio.Scanner_tokens file) [] = Returns readings ∧
  ∃ out,
    read fs 1 "/d/" = Returns {| Sensor_id := 1; Readings' := out |} ∧
    out ≡ₚ readings ∧ ascending out.
Proof.
  cbv zeta. split; [reflexivity|]. split; [vm_compute; reflexivity|].
  apply (read_sorts_by_timestamp
           (store "/d/1" ("2024-01-02 5" +:+ newline +:+ "2024-01-01 3" +:+ newline)
              true true 0) 1 "/d/"
           ("2024-01-02 5" +:+ newline +:+ "2024-01-01 3" +:+ newline)
           [R "2024-01-02" 5; R "2024-01-01" 3]).
  - reflexivity.
  - vm_compute. reflexivity.
Defined.

(** ** C2: writes, then a read *)




(** the scenario of the specification *)
Example scenario_read :
  read (fst (writes (fresh 100) scenario "/d/")) 1 "/d/"
  = Returns (batch 1 [R "2024-01-01" 3; R "2024-01-02" 5]).
Proof. vm_compute. reflexivity. Qed.

(** ** C1: writers served one after the other *)


Lemma served_2_1_reached :
  rtc (step "/d/")
    {| disk := fresh 100;
       blocked := zip_with (single_write 1) two_writers [1; 2];
       delivered := [] |} served_2_1.
Proof.
  eapply rtc_l.
  { apply (step_select "/d/" _ [single_write 1 (R "2024-01-02" 5) 1] []
             (single_write 1 (R "2024-01-01" 3) 2)
             (fst (write (fresh 100) (batch 1 [R "2024-01-01" 3]) "/d/"))
             (2, StatusCreated)).
    - reflexivity.
    - vm_compute. reflexivity. }
  eapply rtc_l; [|apply rtc_refl].
  apply (step_serve "/d/" _ served_2_1 [] [] (single_write 1 (R "2024-01-02" 5) 1)
           (disk served_2_1) (1, StatusCreated)).
  - reflexivity.
  - vm_compute. reflexivity.
  - reflexivity.
Qed.



(** ** C7: a device that fills up *)

(** C7 fails on the code.  On a device with room for three bytes only,
    the log file is opened and the line of the reading is buffered; the
    final [Flush] hands it to the file, of which three bytes fit, and
    fails with [ENOSPC].  The log then holds the bytes [202] instead of
    the line, yet [write] returns no error and the worker answers the
    writer with status 201. *)
Theorem write_full_disk_reports_success :
  let b := batch 1 [R "2024-01-02" 5] in
  let name := filename "/d/" 1 in
  (∃ fs1, os.OpenFile (fresh 3) name = inr fs1 ∧
     let '(fs2, writer) :=
       write_loop fs1 (bufio.NewWriter name) (Readings' b) in
     snd (bufio.Flush fs2 writer) = Some (PathError ENOSPC)) ∧
  lines_of (Readings' b) = "2024-01-02 5" +:+ newline ∧
  log_contents (fst (write (fresh 3) b "/d/")) name = "202" ∧
  snd (write (fresh 3) b "/d/") = None ∧
  serve "/d/" (fresh 3) (WriteMessage b 0)
  = Returns (fst (write (fresh 3) b "/d/"), (0, StatusCreated)).
Proof.
  cbv zeta. split; [|split; [|split; [|split]]].
  - eexists. split; [reflexivity|]. vm_compute. reflexivity.
  - vm_compute. reflexivity.
  - vm_compute. reflexivity.
  - apply write_error.
  - vm_compute. reflexivity.
Qed.

(** ** C9: lines without a space *)

(** C9 fails on the code.  A log with an empty line, or with a line
    without space, makes [read] panic at [split[1]]: index 1 is out of
    range for a slice of length 1.  Such a log arises from a write of a
    timestamp that holds a newline. *)
Theorem read_panics_on_line_without_space :
  read (store "/d/1" newline true true 0) 1 "/d/"
    = Panics (IndexOutOfRange 1 1) ∧
  read (store "/d/1" ("abc" +:+ newline +:+ "t 1" +:+ newline) true true 0) 1 "/d/"
    = Panics (IndexOutOfRange 1 1) ∧
  read (fst (write (fresh 100) (batch 1 [R ("a" +:+ newline +:+ "b") 2]) "/d/")) 1 "/d/"
    = Panics (IndexOutOfRange 1 1).
Proof. repeat split; vm_compute; reflexivity. Qed.

End runs.

(** * More concrete runs, with the reference implementation of [strconv] *)
Module more_runs.
Import refconv example.

(** ** X1: a line that does not fit on the device *)

Lemma write_append_only_witness :
  let b := batch 1 [R "2024-01-02" 5] in
  os.OpenFile (fresh 3) (filename "/d/" (Sensor_id b))
    = inr (store "/d/1" "" true true 3) ∧
  ∃ f' written rest,
    os.files (fst (write (fresh 3) b "/d/"))
      !! filename "/d/" (Sensor_id b) = Some f' ∧
    lines_of (Readings' b) = written +:+ rest ∧
    os.contents f' =
      log_contents (fresh 3) (filename "/d/" (Sensor_id b)) +:+ written ∧
    os.free (fresh 3) =
      os.free (fst (write (fresh 3) b "/d/")) + String.length written ∧
    (rest = "" ↔ String.length (lines_of (Readings' b)) ≤ os.free (fresh 3)).
Proof.
  cbv zeta.
  assert (H : os.OpenFile (fresh 3)
                (filename "/d/" (Sensor_id (batch 1 [R "2024-01-02" 5])))
              = inr (store "/d/1" "" true true 3)) by reflexivity.
  split; [exact H|].
  exact (write_append_only (fresh 3) _ (batch 1 [R "2024-01-02" 5]) "/d/" H).
Defined.

(** ** X2: a batch without readings for a sensor without log *)

Lemma write_empty_batch_witness :
  os.OpenFile (fresh 0) (filename "/d/" 7) = inr (store "/d/7" "" true true 0) ∧
  (write (fresh 0) {| Sensor_id := 7; Readings' := [] |} "/d/"
     = (store "/d/7" "" true true 0, None) ∧
   os.free (store "/d/7" "" true true 0) = os.free (fresh 0) ∧
   log_contents (store "/d/7" "" true true 0) (filename "/d/" 7) =
     log_contents (fresh 0) (filename "/d/" 7) ∧
   (os.files (fresh 0) !! filename "/d/" 7 = None →
    os.files (store "/d/7" "" true true 0) !! filename "/d/" 7 =
      Some {| os.contents := ""; os.readable := true; os.writable := true |} ∧
    read (store "/d/7" "" true true 0) 7 "/d/" =
      Returns {| Sensor_id := 7; Readings' := [] |})).
Proof.
  assert (H : os.OpenFile (fresh 0) (filename "/d/" 7)
              = inr (store "/d/7" "" true true 0)) by reflexivity.
  split; [exact H|].
  exact (write_empty_batch (fresh 0) _ 7 "/d/" H).
Defined.

(** ** X4: a write for sensor 1, a read of sensor 2 *)

Lemma write_other_sensor_witness :
  let fs := store "/d/2" ("t 1" +:+ newline) true true 3 in
  let b := batch 1 [R "2024-01-02" 5] in
  2%N ≠ Sensor_id b ∧
  read (fst (write fs b "/d/")) 2 "/d/" = read fs 2 "/d/".
Proof.
  cbv zeta.
  assert (H : 2%N ≠ Sensor_id (batch 1 [R "2024-01-02" 5])) by discriminate.
  split; [exact H|].
  exact (write_other_sensor (store "/d/2" ("t 1" +:+ newline) true true 3)
           (batch 1 [R "2024-01-02" 5]) "/d/" 2 H).
Defined.

(** ** X5: a log of one line, then a batch of one reading *)

Lemma read_after_write_witness :
  let f := {| os.contents := "b 2" +:+ newline; os.readable := true;
              os.writable := true |} in
  let fs := store "/d/1" ("b 2" +:+ newline) true true 100 in
  let b := batch 1 [R "a" 1] in
  os.files fs !! filename "/d/" (Sensor_id b) = Some f ∧
  os.readable f = true ∧ os.writable f = true ∧
  (os.contents f = "" ∨ last_byte (os.contents f) = Some byte_LF) ∧
  bufio.Scanner_Err (os.contents f) = false ∧
  scan_loop (bufio.Scanner_tokens (os.contents f)) [] = Returns [R "b" 2] ∧
  Forall reading_ok (Readings' b) ∧
  String.length (lines_of (Readings' b)) ≤ os.free fs ∧
  ∃ fs',
    write fs b "/d/" = (fs', None) ∧
    read fs' (Sensor_id b) "/d/" =
      Returns {| Sensor_id := Sensor_id b;
                 Readings' := sort.Slice less ([R "b" 2] ++ Readings' b) |}.
Proof.
  cbv zeta.
  set (f := {| os.contents := "b 2" +:+ newline; os.readable := true;
               os.writable := true |}).
  set (fs := store "/d/1" ("b 2" +:+ newline) true true 100).
  set (b := batch 1 [R "a" 1]).
  assert (H1 : os.files fs !! filename "/d/" (Sensor_id b) = Some f)
    by reflexivity.
  assert (H4 : os.contents f = "" ∨ last_byte (os.contents f) = Some byte_LF)
    by (right; reflexivity).
  assert (H5 : bufio.Scanner_Err (os.contents f) = false)
    by (vm_compute; reflexivity).
  assert (H6 : scan_loop (bufio.Scanner_tokens (os.contents f)) []
               = Returns [R "b" 2]) by (vm_compute; reflexivity).
  assert (H7 : Forall reading_ok (Readings' b)).
  { repeat (constructor; [apply reading_ok_intro; vm_compute; reflexivity|]).
    constructor. }
  assert (H8 : String.length (lines_of (Readings' b)) ≤ os.free fs).
  { apply Nat.leb_le. vm_compute. reflexivity. }
  split; [exact H1|]. split; [reflexivity|]. split; [reflexivity|].
  split; [exact H4|]. split; [exact H5|]. split; [exact H6|].
  split; [exact H7|]. split; [exact H8|].
  exact (read_after_write fs b "/d/" f [R "b" 2] H1 eq_refl eq_refl H4 H5 H6
           H7 H8).
Defined.

(** ** X6: a line of 65536 bytes after one good line *)

Lemma read_stops_at_long_line_witness :
  let long := repeat_byte "x" bufio.MaxScanTokenSize in
  let rest := newline +:+ "u 2" +:+ newline in
  let f := {| os.contents := lines_of [R "t" 1] +:+ long +:+ rest;
              os.readable := true; os.writable := true |} in
  let fs := store "/d/1" (lines_of [R "t" 1] +:+ long +:+ rest) true true 0 in
  os.files fs !! filename "/d/" 1 = Some f ∧
  os.readable f = true ∧
  os.contents f = lines_of [R "t" 1] +:+ long +:+ rest ∧
  Forall reading_ok [R "t" 1] ∧
  contains_byte byte_LF long = false ∧
  bufio.MaxScanTokenSize ≤ String.length long ∧
  (bufio.Scanner_Err (os.contents f) = true ∧
   read fs 1 "/d/" =
     Returns {| Sensor_id := 1; Readings' := sort.Slice less [R "t" 1] |}).
Proof.
  cbv zeta.
  set (long := repeat_byte "x" bufio.MaxScanTokenSize).
  set (rest := newline +:+ "u 2" +:+ newline).
  set (f := {| os.contents := lines_of [R "t" 1] +:+ long +:+ rest;
               os.readable := true; os.writable := true |}).
  set (fs := store "/d/1" (lines_of [R "t" 1] +:+ long +:+ rest) true true 0).
  assert (H1 : os.files fs !! filename "/d/" 1 = Some f) by reflexivity.
  assert (H4 : Forall reading_ok [R "t" 1]).
  { repeat (constructor; [apply reading_ok_intro; vm_compute; reflexivity|]).
    constructor. }
  assert (H5 : contains_byte byte_LF long = false) by (vm_compute; reflexivity).
  assert (H6 : bufio.MaxScanTokenSize ≤ String.length long).
  { apply Nat.leb_le. vm_compute. reflexivity. }
  split; [exact H1|]. split; [reflexivity|]. split; [reflexivity|].
  split; [exact H4|]. split; [exact H5|]. split; [exact H6|].
  exact (read_stops_at_long_line fs 1 "/d/" f [R "t" 1] long rest H1 eq_refl
           eq_refl H4 H5 H6).
Defined.

(** ** X7: a log of two lines, with and without a line without space *)

Lemma read_returns_iff_spaces_witness :
  let file := "t 1" +:+ newline +:+ "abc" +:+ newline in
  let fs := store "/d/1" file true true 0 in
  os.Open fs (filename "/d/" 1) = inr file ∧
  ((Forall (λ t, contains_byte byte_space t = true) (bufio.Scanner_tokens file) →
    ∃ out, read fs 1 "/d/" = Returns {| Sensor_id := 1; Readings' := out |}) ∧
   (Exists (λ t, contains_byte byte_space t = false) (bufio.Scanner_tokens file) →
    read fs 1 "/d/" = Panics (IndexOutOfRange 1 1))).
Proof.
  cbv zeta.
  assert (H : os.Open (store "/d/1" ("t 1" +:+ newline +:+ "abc" +:+ newline)
                         true true 0) (filename "/d/" 1)
              = inr ("t 1" +:+ newline +:+ "abc" +:+ newline)) by reflexivity.
  split; [exact H|].
  exact (read_returns_iff_spaces _ 1 "/d/" _ H).
Defined.

(** ** X8: a timestamp with a date and a time of day *)

Lemma decode_first_two_fields_witness :
  let r := R ("2024-01-02 10:30" ) 5 in
  contains_byte byte_space "t" = false ∧
  contains_byte byte_space "1" = false ∧
  contains_byte byte_space "2024-01-02" = false ∧
  contains_byte byte_space "10:30" = false ∧
  Timestamp r = "2024-01-02" +:+ " " +:+ "10:30" ∧
  (decode ("t" +:+ " " +:+ "1" +:+ " " +:+ "and more") =
     Returns {| Timestamp := "t"; Value := fst (strconv.ParseFloat "1") |} ∧
   decode (encode r) =
     Returns {| Timestamp := "2024-01-02";
                Value := fst (strconv.ParseFloat "10:30") |}).
Proof.
  cbv zeta. split; [reflexivity|]. split; [reflexivity|].
  split; [reflexivity|]. split; [reflexivity|]. split; [reflexivity|].
  exact (decode_first_two_fields "t" "1" "and more" (R "2024-01-02 10:30" 5)
           "2024-01-02" "10:30" eq_refl eq_refl eq_refl eq_refl eq_refl).
Defined.

(** ** X9: two lines that end in a carriage return and a newline *)

Lemma read_crlf_witness :
  let readings := [R "b" 2; R "a" 1] in
  let f := {| os.contents := crlf_lines (map encode readings);
              os.readable := true; os.writable := true |} in
  let fs := store "/d/1" (crlf_lines (map encode readings)) true true 0 in
  os.files fs !! filename "/d/" 1 = Some f ∧
  os.readable f = true ∧
  os.contents f = crlf_lines (map encode readings) ∧
  Forall reading_ok readings ∧
  Forall (λ r, S (String.length (encode r)) < bufio.MaxScanTokenSize) readings ∧
  read fs 1 "/d/" =
    Returns {| Sensor_id := 1; Readings' := sort.Slice less readings |}.
Proof.
  cbv zeta.
  set (readings := [R "b" 2; R "a" 1]).
  set (f := {| os.contents := crlf_lines (map encode readings);
               os.readable := true; os.writable := true |}).
  set (fs := store "/d/1" (crlf_lines (map encode readings)) true true 0).
  assert (H1 : os.files fs !! filename "/d/" 1 = Some f) by reflexivity.
  assert (H4 : Forall reading_ok readings).
  { repeat (constructor; [apply reading_ok_intro; vm_compute; reflexivity|]).
    constructor. }
  assert (H5 : Forall (λ r, S (String.length (encode r)) < bufio.MaxScanTokenSize)
                 readings).
  { repeat (constructor; [apply Nat.ltb_lt; vm_compute; reflexivity|]).
    constructor. }
  split; [exact H1|]. split; [reflexivity|]. split; [reflexivity|].
  split; [exact H4|]. split; [exact H5|].
  exact (read_crlf fs 1 "/d/" f readings H1 eq_refl eq_refl H4 H5).
Defined.

(** ** X10: the largest sensor id *)

Lemma ParseUint_pretty_witness :
  (4294967295 < 2 ^ 32)%N ∧
  (strconv.ParseUint (pretty 4294967295%N) 10 32 = (4294967295%N, None) ∧
   uint32 4294967295 = 4294967295%N ∧
   filename "/d/"
     (uint32 (fst (strconv.ParseUint (pretty 4294967295%N) 10 32))) =
     "/d/" +:+ pretty 4294967295%N).
Proof.
  assert (H : (4294967295 < 2 ^ 32)%N) by reflexivity.
  split; [exact H|]. exact (ParseUint_pretty "/d/" 4294967295 H).
Defined.

Example ParseUint_bounds :
  strconv.ParseUint "4294967295" 10 32 = (4294967295%N, None) ∧
  strconv.ParseUint "4294967296" 10 32 = (4294967295%N, Some strconv.ErrRange) ∧
  strconv.ParseUint "007" 10 32 = (7%N, None) ∧
  strconv.ParseUint "+7" 10 32 = (0%N, Some strconv.ErrSyntax) ∧
  strconv.ParseUint "0x10" 10 32 = (0%N, Some strconv.ErrSyntax) ∧
  strconv.ParseUint "" 10 32 = (0%N, Some strconv.ErrSyntax).
Proof. repeat split; vm_compute; reflexivity. Qed.

(** ** X13, X14, X16: requests *)

Lemma get_request_witness :
  let req := {| http.Method := "GET";
                http.Form := {[ "sensor_id" := ["1"] ]};
                http.Body := "" |} in
  let fs := store "/d/1" ("t 1" +:+ newline) true true 0 in
  http.Method req = "GET" ∧
  http.FormValue req "sensor_id" = pretty 1%N ∧
  (1 < 2 ^ 32)%N ∧
  request (λ r, lines_of (Readings' r)) (λ _, None) "/d/" fs req =
    match read fs 1 "/d/" with
    | Returns readings =>
        Returns (fs, {| http.Header := ∅; http.status := Some 200;
                        http.body := lines_of (Readings' readings) |})
    | Panics e => Panics e
    end.
Proof.
  cbv zeta.
  assert (H3 : (1 < 2 ^ 32)%N) by reflexivity.
  split; [reflexivity|]. split; [reflexivity|]. split; [exact H3|].
  exact (get_request (λ r, lines_of (Readings' r)) (λ _, None) "/d/"
           (store "/d/1" ("t 1" +:+ newline) true true 0)
           {| http.Method := "GET"; http.Form := {[ "sensor_id" := ["1"] ]};
              http.Body := "" |} 1 eq_refl eq_refl H3).
Defined.

Lemma request_status_witness :
  let req := {| http.Method := "DELETE"; http.Form := ∅; http.Body := "" |} in
  let w := http.Error http.NewResponse "Undefined route" http.StatusBadRequest in
  request (λ r, lines_of (Readings' r)) (λ _, None) "/d/" (fresh 0) req
    = Returns (fresh 0, w) ∧
  ((http.status w = Some 200 ∧ http.Method req = "GET" ∧ fresh 0 = fresh 0) ∨
   (http.status w = Some 201 ∧ http.Method req = "POST") ∨
   (http.status w = Some 400 ∧ fresh 0 = fresh 0)).
Proof.
  cbv zeta.
  assert (H : request (λ r, lines_of (Readings' r)) (λ _, None) "/d/" (fresh 0)
                {| http.Method := "DELETE"; http.Form := ∅; http.Body := "" |}
              = Returns (fresh 0,
                         http.Error http.NewResponse "Undefined route"
                           http.StatusBadRequest)) by reflexivity.
  split; [exact H|].
  exact (request_status (λ r, lines_of (Readings' r)) (λ _, None) "/d/"
           (fresh 0) (fresh 0) _ _ H).
Defined.


(** ** X15: two writers served *)

Lemma worker_answers_once_witness :
  let s0 := {| disk := fresh 100;
               blocked := zip_with (single_write 1) two_writers [1; 2];
               delivered := [] |} in
  rtc (step "/d/") s0 served_2_1 ∧
  ∃ rs, delivered served_2_1 = delivered s0 ++ rs ∧
        map fst rs ++ map writer_of (blocked served_2_1)
          ≡ₚ map writer_of (blocked s0).
Proof.
  cbv zeta. split; [exact runs.served_2_1_reached|].
  exact (worker_answers_once "/d/" _ served_2_1 runs.served_2_1_reached).
Defined.

(** ** X17: writes for sensors 1 and 2 *)

Lemma writes_commute_witness :
  let a := batch 1 [R "2024-01-02" 5] in
  let b := batch 2 [R "2024-01-01" 3] in
  Sensor_id a ≠ Sensor_id b ∧
  os.OpenFile (fresh 100) (filename "/d/" (Sensor_id a))
    = inr (store "/d/1" "" true true 100) ∧
  os.OpenFile (fresh 100) (filename "/d/" (Sensor_id b))
    = inr (store "/d/2" "" true true 100) ∧
  String.length (lines_of (Readings' a)) + String.length (lines_of (Readings' b))
    ≤ os.free (fresh 100) ∧
  ∃ fs1 fs1' fs2,
    write (fresh 100) a "/d/" = (fs1, None) ∧ write fs1 b "/d/" = (fs2, None) ∧
    write (fresh 100) b "/d/" = (fs1', None) ∧ write fs1' a "/d/" = (fs2, None).
Proof.
  cbv zeta.
  set (a := batch 1 [R "2024-01-02" 5]). set (b := batch 2 [R "2024-01-01" 3]).
  assert (H1 : Sensor_id a ≠ Sensor_id b) by discriminate.
  assert (H2 : os.OpenFile (fresh 100) (filename "/d/" (Sensor_id a))
               = inr (store "/d/1" "" true true 100)) by reflexivity.
  assert (H3 : os.OpenFile (fresh 100) (filename "/d/" (Sensor_id b))
               = inr (store "/d/2" "" true true 100)) by reflexivity.
  assert (H4 : String.length (lines_of (Readings' a))
               + String.length (lines_of (Readings' b)) ≤ os.free (fresh 100)).
  { apply Nat.leb_le. vm_compute. reflexivity. }
  split; [exact H1|]. split; [exact H2|]. split; [exact H3|]. split; [exact H4|].
  exact (writes_commute (fresh 100) a b "/d/" _ _ H1 H2 H3 H4).
Defined.

End more_runs.

